(** * Queue node: FIFO queue / mutex for workflow concurrency control

    A shallow embedding of [src/nodes/Queue/Queue.node.ts] (the [execute]
    method of class [Queue]) and the properties of its queue/lock state
    machine.

    Conventions of the embedding.
    - The workflow static data is passed in and returned explicitly.
    - [Record<string, KeyQueueState>] is a JavaScript object used as a map.
      It is modelled by its own properties in property order, the order in
      which [Object.keys] lists them: array-index keys ascending, then the
      other keys in creation order.  Reading [o[k]] also finds the names a
      plain object inherits from [Object.prototype]; what it finds there
      has no [queue], so [.queue.push] and [.queue.length] throw a
      [TypeError].  A throw ends the invocation without a return value and
      leaves the static data as written so far.
    - Values follow the TypeScript types of the source: the ['key'] node
      parameter is a string, and so is [json.key] of a signal when present.
    - [Date.now()] and [getNodeParameter('key', i)] are host reads; what
      they return at loop index [i] comes with the i-th arrival. *)

From Stdlib Require Import List String Ascii ZArith NArith Bool Lia Arith.
From Stdlib Require Import Permutation.
Import ListNotations.

Local Open Scope string_scope.
Local Open Scope list_scope.

Set Implicit Arguments.

(** ** JavaScript objects used as string-keyed maps *)

Module JsObject.

Definition digit_of (c : ascii) : option N :=
  let n := N_of_ascii c in
  if ((48 <=? n) && (n <=? 57))%N then Some (n - 48)%N else None.

Fixpoint digits (s : string) (acc : N) : option N :=
  match s with
  | EmptyString => Some acc
  | String c s' =>
      match digit_of c with
      | Some d => digits s' (10 * acc + d)%N
      | None => None
      end
  end.

(** A property key is an array index when it is the canonical decimal form
    of an integer in [0, 2^32 - 2]. *)
Definition array_index (s : string) : option N :=
  match s with
  | EmptyString => None
  | String c s' =>
      if Ascii.eqb c "0"%char && negb (String.eqb s' "") then None
      else match digits s 0%N with
           | Some n => if (n <=? 4294967294)%N then Some n else None
           | None => None
           end
  end.

Section Obj.
Variable V : Type.

Definition t := list (string * V).

Definition empty : t := [].

(** The own property [k] of [o], if it has one. *)
Fixpoint get (k : string) (o : t) : option V :=
  match o with
  | [] => None
  | (k', v) :: o' => if String.eqb k' k then Some v else get k o'
  end.

(** The property names of [Object.prototype] (Node.js), which every plain
    object inherits. *)
Definition prototype_names : list string :=
  ["constructor"; "__defineGetter__"; "__defineSetter__"; "hasOwnProperty";
   "__lookupGetter__"; "__lookupSetter__"; "isPrototypeOf";
   "propertyIsEnumerable"; "toString"; "valueOf"; "__proto__";
   "toLocaleString"].

Definition inherited (k : string) : bool :=
  existsb (String.eqb k) prototype_names.

(** What [o[k]] evaluates to: the value of the own property, else what the
    prototype has under that name (a function, or the prototype itself for
    [__proto__]: not nullish, and without the fields of [V]), else
    [undefined]. *)
Inductive Value : Type :=
| Own (v : V)
| Inherited
| Undefined.

Definition read (k : string) (o : t) : Value :=
  match get k o with
  | Some v => Own v
  | None => if inherited k then Inherited else Undefined
  end.

(** [Object.keys(o)] *)
Definition keys (o : t) : list string := map fst o.

(** In-place mutation of the object stored under [k]; the property keeps
    its position. *)
Fixpoint update (k : string) (f : V -> V) (o : t) : t :=
  match o with
  | [] => []
  | (k', v) :: o' =>
      if String.eqb k' k then (k', f v) :: update k f o'
      else (k', v) :: update k f o'
  end.

(** Where a new array-index key goes: after the smaller array indices and
    before everything else. *)
Fixpoint insert_index (n : N) (k : string) (v : V) (o : t) : t :=
  match o with
  | [] => [(k, v)]
  | (k', v') :: o' =>
      match array_index k' with
      | Some n' =>
          if (n' <? n)%N then (k', v') :: insert_index n k v o'
          else (k, v) :: o
      | None => (k, v) :: o
      end
  end.

(** [o[k] = v] for a key that [o] does not have yet. *)
Definition create (k : string) (v : V) (o : t) : t :=
  match array_index k with
  | Some n => insert_index n k v o
  | None => o ++ [(k, v)]
  end.

(** [delete o[k]] *)
Definition delete (k : string) (o : t) : t :=
  filter (fun p => negb (String.eqb (fst p) k)) o.

End Obj.

Arguments empty {V}.
Arguments Inherited {V}.
Arguments Undefined {V}.
End JsObject.

(** ** Data model *)

(** The [json] object of an item, restricted to string-valued fields. *)
Definition IDataObject := JsObject.t string.

Record INodeExecutionData := { json : option IDataObject }.

(** One queued item *)
Record QueueEntry := {
  key : string;
  data : INodeExecutionData;
  timestamp : Z
}.

(** Per-key queue state (used in multi mode) *)
Record KeyQueueState := {
  queue : list QueueEntry;
  locked : bool
}.

(** Workflow static data shape; [None] is an absent field. *)
Record QueueStaticData := {
  sd_queue : option (list QueueEntry);
  sd_locked : option bool;
  sd_queues : option (JsObject.t KeyQueueState)
}.

Inductive Mode := modeSingle | modeMulti.

(** What iteration [i] of the enqueue loop reads: [dataInput[i]],
    [getNodeParameter('key', i)] and [Date.now()]. *)
Record Arrival := {
  item : INodeExecutionData;
  key_param : string;
  now : Z
}.

(** The static data of a workflow that never ran the node: [{}]. *)
Definition no_static_data : QueueStaticData :=
  {| sd_queue := None; sd_locked := None; sd_queues := None |}.

(** ** The [execute] method *)

(** [{ ...d }] *)
Definition spread (d : INodeExecutionData) : INodeExecutionData :=
  {| json := json d |}.

(** [signalInput[i].json?.key]; [key] is no name that objects inherit. *)
Definition signalKey (s : INodeExecutionData) : option string :=
  match json s with
  | Some o => JsObject.get "key" o
  | None => None
  end.

(** The key a signal releases: [signalKey] when it is truthy. *)
Definition release_key (s : INodeExecutionData) : option string :=
  match signalKey s with
  | Some k => if String.eqb k "" then None else Some k
  | None => None
  end.

Definition new_entry (a : Arrival) : QueueEntry :=
  {| key := key_param a; data := item a; timestamp := now a |}.

Definition push (entry : QueueEntry) (st : KeyQueueState) : KeyQueueState :=
  {| queue := queue st ++ [entry]; locked := locked st |}.

Definition set_locked (b : bool) (st : KeyQueueState) : KeyQueueState :=
  {| queue := queue st; locked := b |}.

(** [queue.shift()] *)
Definition shift (st : KeyQueueState) : KeyQueueState :=
  {| queue := tl (queue st); locked := locked st |}.

Definition Output := list INodeExecutionData.

(** *** Single mode: [staticData.queue] and [staticData.locked] *)

Definition enqueue_single (st : KeyQueueState) (a : Arrival) : KeyQueueState :=
  push (new_entry a) st.

Definition promote_single (st : KeyQueueState) (output : Output)
  : KeyQueueState * Output :=
  match locked st, queue st with
  | false, front :: _ => (set_locked true st, output ++ [spread (data front)])
  | _, _ => (st, output)
  end.

Definition release_single (acc : KeyQueueState * Output)
  (s : INodeExecutionData) : KeyQueueState * Output :=
  let '(st, output) := acc in
  match signalKey s with
  | None => acc
  | Some k =>
      if String.eqb k "" then acc
      else
        match queue st with
        | [] => acc
        | head :: _ =>
            if String.eqb (key head) k then
              let st1 := set_locked false (shift st) in
              match queue st1 with
              | next :: _ =>
                  (set_locked true st1, output ++ [spread (data next)])
              | [] => (st1, output)
              end
            else acc
        end
  end.

Definition execute_single (dataInput : list Arrival)
  (signalInput : list INodeExecutionData) (st : KeyQueueState)
  : KeyQueueState * Output :=
  let st1 := fold_left enqueue_single dataInput st in
  fold_left release_single signalInput (promote_single st1 []).

(** *** Multi mode: [staticData.queues] *)

Definition Queues := JsObject.t KeyQueueState.

(** How the method goes on: normally, with the [output] array built so far,
    or not at all after a [TypeError] was thrown.  What was written to the
    static data before the throw stays written. *)
Inductive Completion (A : Type) : Type :=
| Normal (value : A)
| Throw.

Arguments Normal {A} value.
Arguments Throw {A}.

Definition Running : Type := Queues * Completion Output.

Abbreviation running qs output :=
  (@pair Queues (Completion Output) qs (@Normal Output output))
  (only parsing).
Abbreviation thrown qs :=
  (@pair Queues (Completion Output) qs (@Throw Output)) (only parsing).

(** One iteration of the enqueue loop.  When [queues[key]] is inherited it
    is not nullish, [??=] assigns nothing, and [.queue] is [undefined]:
    [.push] throws. *)
Definition enqueue_multi (acc : Running) (a : Arrival) : Running :=
  match acc with
  | (_, Throw) => acc
  | (qs, Normal output) =>
      let k := key_param a in
      let entry := new_entry a in
      match JsObject.read k qs with
      | JsObject.Own _ =>
          running (JsObject.update k (push entry) qs) output
      | JsObject.Undefined =>
          running
            (JsObject.update k (push entry)
               (JsObject.create k {| queue := []; locked := false |} qs))
            output
      | JsObject.Inherited => thrown qs
      end
  end.

(** One iteration of [for (const key of Object.keys(staticData.queues))].
    The keys are the object's own and the loop removes none of them, so the
    lookup finds a state. *)
Definition promote_key (acc : Queues * Output) (k : string)
  : Queues * Output :=
  let '(qs, output) := acc in
  match JsObject.get k qs with
  | Some state =>
      match locked state, queue state with
      | false, front :: _ =>
          (JsObject.update k (set_locked true) qs,
           output ++ [spread (data front)])
      | _, _ => acc
      end
  | None => acc
  end.

Definition promote_multi (qs : Queues) (output : Output) : Queues * Output :=
  fold_left promote_key (JsObject.keys qs) (qs, output).

(** The promotion loop, reached only when the enqueue loop did not throw. *)
Definition promote_phase (acc : Running) : Running :=
  match acc with
  | (_, Throw) => acc
  | (qs, Normal output) =>
      let '(qs', output') := promote_multi qs output in
      running qs' output'
  end.

(** One iteration of the signal loop.  An inherited [queues[signalKey]] is
    truthy and has no [queue]: [state.queue.length] throws. *)
Definition release_multi (acc : Running) (s : INodeExecutionData) : Running :=
  match acc with
  | (_, Throw) => acc
  | (qs, Normal output) =>
      match signalKey s with
      | None => acc
      | Some k =>
          if String.eqb k "" then acc
          else
            match JsObject.read k qs with
            | JsObject.Undefined => acc
            | JsObject.Inherited => thrown qs
            | JsObject.Own state =>
                match queue state with
                | [] => acc
                | _ :: _ =>
                    let unlock st := set_locked false (shift st) in
                    match queue (unlock state) with
                    | next :: _ =>
                        running
                          (JsObject.update k
                             (fun st => set_locked true (unlock st)) qs)
                          (output ++ [spread (data next)])
                    | [] => running (JsObject.delete k qs) output
                    end
                end
            end
      end
  end.

Definition execute_multi (dataInput : list Arrival)
  (signalInput : list INodeExecutionData) (qs : Queues) : Running :=
  let acc := fold_left enqueue_multi dataInput (running qs []) in
  fold_left release_multi signalInput (promote_phase acc).

(** *** Both modes *)

(** [x ?? d] *)
Definition nullish {A} (x : option A) (d : A) : A :=
  match x with Some v => v | None => d end.

(** [staticData.queue ??= []; staticData.locked ??= false] *)
Definition init_single (staticData : QueueStaticData) : KeyQueueState :=
  {| queue := nullish (sd_queue staticData) [];
     locked := nullish (sd_locked staticData) false |}.

(** [staticData.queues ??= {}] *)
Definition init_multi (staticData : QueueStaticData) : Queues :=
  nullish (sd_queues staticData) JsObject.empty.

(** The mode is read once and is the same in every test of the method, so
    each loop runs one mode's branch throughout.  The result is the static
    data as the method leaves it and the returned array [[output]], or no
    value when the method threw.  Single mode never looks a key up in an
    object and never throws. *)
Definition execute (mode : Mode) (dataInput : list Arrival)
  (signalInput : list INodeExecutionData) (staticData : QueueStaticData)
  : QueueStaticData * Completion (list Output) :=
  match mode with
  | modeSingle =>
      let '(st, output) :=
        execute_single dataInput signalInput (init_single staticData) in
      ({| sd_queue := Some (queue st);
          sd_locked := Some (locked st);
          sd_queues := sd_queues staticData |},
       Normal [output])
  | modeMulti =>
      let '(qs, completion) :=
        execute_multi dataInput signalInput (init_multi staticData) in
      ({| sd_queue := sd_queue staticData;
          sd_locked := sd_locked staticData;
          sd_queues := Some qs |},
       match completion with
       | Normal output => Normal [output]
       | Throw => Throw
       end)
  end.

(** A run: the node executed once per invocation, on the static data the
    previous invocation left, whether it returned or threw. *)
Record Invocation := {
  dataInput : list Arrival;
  signalInput : list INodeExecutionData
}.

Fixpoint run (mode : Mode) (invs : list Invocation) (sd : QueueStaticData)
  : QueueStaticData * list (Completion (list Output)) :=
  match invs with
  | [] => (sd, [])
  | inv :: invs' =>
      let '(sd1, out) := execute mode (dataInput inv) (signalInput inv) sd in
      let '(sd2, outs) := run mode invs' sd1 in
      (sd2, out :: outs)
  end.

(** The items a run handed on, in order: those of the invocations that
    returned. *)
Definition items {A} (c : Completion (list A)) : list A :=
  match c with Normal l => l | Throw => [] end.

Definition returned_items (outs : list (Completion (list Output))) : Output :=
  flat_map (fun c => List.concat (items c)) outs.

Definition returned {A} (c : Completion A) : bool :=
  match c with Normal _ => true | Throw => false end.

(** ** Multi mode where no key is inherited

    The iterations of the enqueue and signal loops on a key that
    [queues[key]] resolves to an own state or to [undefined]; they are what
    [enqueue_multi] and [release_multi] do when they do not throw, and the
    proofs go through them. *)

Definition enqueue_ok (qs : Queues) (a : Arrival) : Queues :=
  let k := key_param a in
  let qs1 :=
    match JsObject.get k qs with
    | Some _ => qs
    | None => JsObject.create k {| queue := []; locked := false |} qs
    end in
  JsObject.update k (push (new_entry a)) qs1.

Definition release_ok (acc : Queues * Output) (s : INodeExecutionData)
  : Queues * Output :=
  let '(qs, output) := acc in
  match signalKey s with
  | None => acc
  | Some k =>
      if String.eqb k "" then acc
      else
        match JsObject.get k qs with
        | None => acc
        | Some state =>
            match queue state with
            | [] => acc
            | _ :: _ =>
                let unlock st := set_locked false (shift st) in
                match queue (unlock state) with
                | next :: _ =>
                    (JsObject.update k (fun st => set_locked true (unlock st)) qs,
                     output ++ [spread (data next)])
                | [] => (JsObject.delete k qs, output)
                end
            end
        end
  end.

Definition execute_multi_ok (dataInput : list Arrival)
  (signalInput : list INodeExecutionData) (qs : Queues) : Queues * Output :=
  let qs1 := fold_left enqueue_ok dataInput qs in
  let '(qs2, output) := promote_multi qs1 [] in
  fold_left release_ok signalInput (qs2, output).

(** Whether an iteration throws: the key it looks up resolves to an
    inherited property. *)
Definition enqueue_throws (qs : Queues) (a : Arrival) : bool :=
  match JsObject.read (key_param a) qs with
  | JsObject.Inherited => true
  | _ => false
  end.

Definition release_throws (qs : Queues) (s : INodeExecutionData) : bool :=
  match release_key s with
  | Some k =>
      match JsObject.read k qs with
      | JsObject.Inherited => true
      | _ => false
      end
  | None => false
  end.

(** ** Sample data *)

Definition payload (name : string) : INodeExecutionData :=
  {| json := Some [("name", name)] |}.

Definition arrival (k name : string) (t : Z) : Arrival :=
  {| item := payload name; key_param := k; now := t |}.

Definition signal (k : string) : INodeExecutionData :=
  {| json := Some [("key", k)] |}.

Definition signal_without_key : INodeExecutionData :=
  {| json := Some [("done", "yes")] |}.

Definition entry (k name : string) (t : Z) : QueueEntry :=
  new_entry (arrival k name t).

(** ** History of a run

    The state transitions are those of [execute]; the history records, for
    each step, which entry was enqueued, which was handed the lock and
    pushed on [output], and which was removed, and in which queue.  It is
    computed from the state the step starts in. *)

Inductive QueueId := Global | Keyed (k : string).

Definition qid_eqb (a b : QueueId) : bool :=
  match a, b with
  | Global, Global => true
  | Keyed k, Keyed k' => String.eqb k k'
  | _, _ => false
  end.

Inductive Event :=
| Enqueued (q : QueueId) (e : QueueEntry)
| Emitted (q : QueueId) (e : QueueEntry)
| Dequeued (q : QueueId) (e : QueueEntry).

Definition Log := list Event.

Definition event_queue (ev : Event) : QueueId :=
  match ev with Enqueued q _ | Emitted q _ | Dequeued q _ => q end.

(** Entries enqueued into [q], in arrival order. *)
Definition arrived (q : QueueId) (log : Log) : list QueueEntry :=
  flat_map (fun ev => match ev with
                      | Enqueued q' e => if qid_eqb q q' then [e] else []
                      | _ => []
                      end) log.

(** Entries of [q] that were handed the lock, their payload pushed on
    [output], in that order. *)
Definition emitted (q : QueueId) (log : Log) : list QueueEntry :=
  flat_map (fun ev => match ev with
                      | Emitted q' e => if qid_eqb q q' then [e] else []
                      | _ => []
                      end) log.

(** Entries a release removed from [q], in removal order. *)
Definition dequeued (q : QueueId) (log : Log) : list QueueEntry :=
  flat_map (fun ev => match ev with
                      | Dequeued q' e => if qid_eqb q q' then [e] else []
                      | _ => []
                      end) log.

(** The items the history puts on the output. *)
Definition outputs_of (log : Log) : Output :=
  flat_map (fun ev => match ev with
                      | Emitted _ e => [spread (data e)]
                      | _ => []
                      end) log.

(** History of a loop: the events of each iteration, from the state the
    iteration starts in. *)
Section Trace.
Variables St In : Type.
Variable step : St -> In -> St.
Variable events : St -> In -> Log.

Fixpoint trace (st : St) (l : list In) : Log :=
    match l with
    | [] => []
    | i :: l' => events st i ++ trace (step st i) l'
    end.
End Trace.

Definition promote_events (q : QueueId) (st : KeyQueueState) : Log :=
  match locked st, queue st with
  | false, front :: _ => [Emitted q front]
  | _, _ => []
  end.

Definition advance_events (q : QueueId) (st : KeyQueueState) : Log :=
  match queue st with
  | [] => []
  | head :: rest =>
      Dequeued q head ::
      match rest with
      | next :: _ => [Emitted q next]
      | [] => []
      end
  end.

Definition enqueue_events_single (st : KeyQueueState) (a : Arrival) : Log :=
  [Enqueued Global (new_entry a)].

Definition release_state_single (st : KeyQueueState) (s : INodeExecutionData)
  : KeyQueueState :=
  fst (release_single (st, []) s).

Definition release_events_single (st : KeyQueueState) (s : INodeExecutionData)
  : Log :=
  match signalKey s with
  | None => []
  | Some k =>
      if String.eqb k "" then []
      else
        match queue st with
        | [] => []
        | head :: _ =>
            if String.eqb (key head) k then advance_events Global st else []
        end
  end.

Definition log_single (arrivals : list Arrival)
  (signals : list INodeExecutionData) (st : KeyQueueState) : Log :=
  let st1 := fold_left enqueue_single arrivals st in
  trace enqueue_single enqueue_events_single st arrivals
  ++ promote_events Global st1
  ++ trace release_state_single release_events_single
       (fst (promote_single st1 [])) signals.

Definition enqueue_events_ok (qs : Queues) (a : Arrival) : Log :=
  [Enqueued (Keyed (key_param a)) (new_entry a)].

Definition promote_state_key (qs : Queues) (k : string) : Queues :=
  fst (promote_key (qs, []) k).

Definition promote_events_key (qs : Queues) (k : string) : Log :=
  match JsObject.get k qs with
  | Some state => promote_events (Keyed k) state
  | None => []
  end.

Definition release_state_ok (qs : Queues) (s : INodeExecutionData)
  : Queues :=
  fst (release_ok (qs, []) s).

Definition release_events_ok (qs : Queues) (s : INodeExecutionData) : Log :=
  match signalKey s with
  | None => []
  | Some k =>
      if String.eqb k "" then []
      else
        match JsObject.get k qs with
        | Some state => advance_events (Keyed k) state
        | None => []
        end
  end.

Definition log_multi_ok (arrivals : list Arrival)
  (signals : list INodeExecutionData) (qs : Queues) : Log :=
  let qs1 := fold_left enqueue_ok arrivals qs in
  trace enqueue_ok enqueue_events_ok qs arrivals
  ++ trace promote_state_key promote_events_key qs1 (JsObject.keys qs1)
  ++ trace release_state_ok release_events_ok
       (fst (promote_multi qs1 [])) signals.

(** The history of the loops as [execute_multi] runs them: an iteration
    that throws, and what would have come after it, leaves no event. *)
Definition enqueue_events_multi (acc : Running) (a : Arrival) : Log :=
  match acc with
  | (_, Throw) => []
  | (qs, Normal _) =>
      match JsObject.read (key_param a) qs with
      | JsObject.Inherited => []
      | _ => [Enqueued (Keyed (key_param a)) (new_entry a)]
      end
  end.

Definition promote_phase_events (acc : Running) : Log :=
  match acc with
  | (_, Throw) => []
  | (qs, Normal _) =>
      trace promote_state_key promote_events_key qs (JsObject.keys qs)
  end.

Definition release_events_multi (acc : Running) (s : INodeExecutionData)
  : Log :=
  match acc with
  | (_, Throw) => []
  | (qs, Normal _) =>
      match signalKey s with
      | None => []
      | Some k =>
          if String.eqb k "" then []
          else
            match JsObject.read k qs with
            | JsObject.Own state => advance_events (Keyed k) state
            | _ => []
            end
      end
  end.

Definition log_multi (arrivals : list Arrival)
  (signals : list INodeExecutionData) (qs : Queues) : Log :=
  let acc := fold_left enqueue_multi arrivals (running qs []) in
  trace enqueue_multi enqueue_events_multi (running qs []) arrivals
  ++ promote_phase_events acc
  ++ trace release_multi release_events_multi (promote_phase acc) signals.

Definition execute_log (mode : Mode) (arrivals : list Arrival)
  (signals : list INodeExecutionData) (staticData : QueueStaticData) : Log :=
  match mode with
  | modeSingle => log_single arrivals signals (init_single staticData)
  | modeMulti => log_multi arrivals signals (init_multi staticData)
  end.

Fixpoint run_log (mode : Mode) (invs : list Invocation)
  (sd : QueueStaticData) : Log :=
  match invs with
  | [] => []
  | inv :: invs' =>
      execute_log mode (dataInput inv) (signalInput inv) sd
      ++ run_log mode invs'
           (fst (execute mode (dataInput inv) (signalInput inv) sd))
  end.

(** The part of the history whose emitted payloads were handed on: the
    history of the invocations that returned. *)
Fixpoint delivered_log (mode : Mode) (invs : list Invocation)
  (sd : QueueStaticData) : Log :=
  match invs with
  | [] => []
  | inv :: invs' =>
      (if returned (snd (execute mode (dataInput inv) (signalInput inv) sd))
       then execute_log mode (dataInput inv) (signalInput inv) sd
       else [])
      ++ delivered_log mode invs'
           (fst (execute mode (dataInput inv) (signalInput inv) sd))
  end.

(** Every invocation of the run returned. *)
Definition all_returned (mode : Mode) (invs : list Invocation)
  (sd : QueueStaticData) : Prop :=
  forall c, In c (snd (run mode invs sd)) -> returned c = true.

(** The queue [q] as the static data holds it; a queue the data does not
    hold is empty and unlocked. *)
Definition idle : KeyQueueState := {| queue := []; locked := false |}.

Definition view_multi (qs : Queues) (k : string) : KeyQueueState :=
  nullish (JsObject.get k qs) idle.

Definition view (mode : Mode) (sd : QueueStaticData) (q : QueueId)
  : KeyQueueState :=
  match mode, q with
  | modeSingle, Global => init_single sd
  | modeMulti, Keyed k => view_multi (init_multi sd) k
  | _, _ => idle
  end.

Definition prefix {A} (l1 l2 : list A) : Prop := exists rest, l2 = l1 ++ rest.

(** [l1] is [l2] with some elements left out, the others in their order. *)
Inductive Subseq {A : Type} : list A -> list A -> Prop :=
| subseq_nil : Subseq [] []
| subseq_skip x l1 l2 : Subseq l1 l2 -> Subseq l1 (x :: l2)
| subseq_take x l1 l2 : Subseq l1 l2 -> Subseq (x :: l1) (x :: l2).

(** ** A queue and its history

    What the history of queue [q] and its state have to do with each other:
    the entries enqueued are those removed followed by those still queued;
    the entries emitted are those removed, followed by the head when the
    queue is locked; a locked queue has a head. *)

Record QInv (q : QueueId) (st : KeyQueueState) (log : Log) : Prop := {
  inv_arrived : arrived q log = dequeued q log ++ queue st;
  inv_emitted :
    emitted q log =
    dequeued q log ++ (if locked st then firstn 1 (queue st) else []);
  inv_locked : locked st = true -> queue st <> []
}.

(** A queue that has waiters has a holder. *)
Definition Held (st : KeyQueueState) : Prop :=
  queue st <> [] -> locked st = true.

Definition RunInv (mode : Mode) (sd : QueueStaticData) (log : Log) : Prop :=
  forall q, QInv q (view mode sd q) log.

(** The effect of promotion and of a release that removes the head, on one
    queue. *)
Definition promote_state (st : KeyQueueState) : KeyQueueState :=
  match locked st, queue st with
  | false, _ :: _ => set_locked true st
  | _, _ => st
  end.

Definition advance_state (st : KeyQueueState) : KeyQueueState :=
  match queue st with
  | [] => st
  | _ :: rest =>
      {| queue := rest;
         locked := match rest with [] => false | _ :: _ => true end |}
  end.

(** What a release that finds the state [o] under its key leaves there. *)
Definition advance_slot (o : option KeyQueueState) : option KeyQueueState :=
  match o with
  | Some st =>
      match queue st with
      | [] => Some st
      | [_] => None
      | _ :: _ :: _ => Some (advance_state st)
      end
  | None => None
  end.

Definition MInv (qs : Queues) (log : Log) : Prop :=
  forall k, QInv (Keyed k) (view_multi qs k) log.

Definition MHeld (qs : Queues) : Prop :=
  forall k, Held (view_multi qs k).

(** Every key of the mapping has waiters or a holder. *)
Definition NonEmpty (qs : Queues) : Prop :=
  forall k st, JsObject.get k qs = Some st -> queue st <> [].

(** What promotion pushes on the output for one queue. *)
Definition promote_output (st : KeyQueueState) : Output :=
  match locked st, queue st with
  | false, front :: _ => [spread (data front)]
  | _, _ => []
  end.


(** What the signal loop pushes on the output: for each signal in turn,
    what its iteration pushes, from the state the iteration starts in. *)
Fixpoint released_single (st : KeyQueueState)
  (signals : list INodeExecutionData) : Output :=
  match signals with
  | [] => []
  | s :: signals' =>
      snd (release_single (st, []) s)
      ++ released_single (fst (release_single (st, []) s)) signals'
  end.

Fixpoint released_ok (qs : Queues) (signals : list INodeExecutionData)
  : Output :=
  match signals with
  | [] => []
  | s :: signals' =>
      snd (release_ok (qs, []) s)
      ++ released_ok (fst (release_ok (qs, []) s)) signals'
  end.

(** A signal that finds nothing to release: it has no truthy key, or, in
    single mode, the queue is empty or its head has another key, or, in
    multi mode, its key resolves to [undefined] or to a state with an empty
    queue. *)
Definition unmatched_single (st : KeyQueueState) (s : INodeExecutionData)
  : bool :=
  match release_key s with
  | None => true
  | Some k =>
      match queue st with
      | [] => true
      | head :: _ => negb (String.eqb (key head) k)
      end
  end.

Definition unmatched_multi (qs : Queues) (s : INodeExecutionData) : bool :=
  match release_key s with
  | None => true
  | Some k =>
      match JsObject.read k qs with
      | JsObject.Undefined => true
      | JsObject.Own st => match queue st with [] => true | _ :: _ => false end
      | JsObject.Inherited => false
      end
  end.

(** The lengths of the queues of the mapping, key by key. *)
Definition queue_lengths (qs : Queues) : list (string * nat) :=
  map (fun p => (fst p, List.length (queue (snd p)))) qs.

(** The arrivals of a run, and those that go to queue [q]: all of them to
    the one queue of single mode, those with key [k] to the queue of [k] in
    multi mode. *)
Definition all_arrivals (invs : list Invocation) : list Arrival :=
  flat_map dataInput invs.

Definition arrivals_of (mode : Mode) (q : QueueId) (invs : list Invocation)
  : list QueueEntry :=
  match mode, q with
  | modeSingle, Global => map new_entry (all_arrivals invs)
  | modeMulti, Keyed k =>
      map new_entry
        (filter (fun a => String.eqb k (key_param a)) (all_arrivals invs))
  | _, _ => []
  end.

Definition is_enqueue (ev : Event) : bool :=
  match ev with Enqueued _ _ => true | _ => false end.

(** In multi mode every entry is kept under its own key. *)
Definition KeysMatch (qs : Queues) : Prop :=
  forall k st e, JsObject.get k qs = Some st -> In e (queue st) -> key e = k.

(** The same entries, arrivals and states with other clock readings. *)
Definition retime_entry (f : Z -> Z) (e : QueueEntry) : QueueEntry :=
  {| key := key e; data := data e; timestamp := f (timestamp e) |}.

Definition retime_arrival (f : Z -> Z) (a : Arrival) : Arrival :=
  {| item := item a; key_param := key_param a; now := f (now a) |}.

Definition retime_state (f : Z -> Z) (st : KeyQueueState) : KeyQueueState :=
  {| queue := map (retime_entry f) (queue st); locked := locked st |}.

Definition retime_queues (f : Z -> Z) (qs : Queues) : Queues :=
  map (fun p => (fst p, retime_state f (snd p))) qs.

(** A change of the state under the output of a loop. *)
Definition retime_acc {St} (g : St -> St) (acc : St * Output) : St * Output :=
  (g (fst acc), snd acc).

(** The same under the accumulator of the loops of multi mode. *)
Definition retime_running (f : Z -> Z) (acc : Running) : Running :=
  (retime_queues f (fst acc), snd acc).

(** The single queue [st] and a mapping [qs] that hold the same entries,
    all with key [k]: the mapping is empty when the queue is idle, and has
    the queue under [k] and nothing else when it is not. *)
Definition one_key (k : string) (st : KeyQueueState) (qs : Queues) : Prop :=
  (forall e, In e (queue st) -> key e = k)
  /\ ((qs = [] /\ st = idle) \/ (qs = [(k, st)] /\ queue st <> [])).

Definition one_key_acc (k : string) (a1 : KeyQueueState * Output)
  (a2 : Queues * Output) : Prop :=
  snd a1 = snd a2 /\ one_key k (fst a1) (fst a2).

(** * Properties *)

Unset Implicit Arguments.

(** ** Lookup after the operations on a JavaScript object *)

Module JsObjectFacts.
Import JsObject.

Section Facts.
Variable V : Type.
Implicit Types o : t V.

Lemma get_update_eq k f o :
  get k (update k f o) = option_map f (get k o).
Proof.
  induction o as [|[k' v] o IH]; simpl; [reflexivity|].
  destruct (String.eqb k' k) eqn:E; simpl; rewrite E; auto.
Qed.

Lemma get_update_ne k k' f o :
  k' <> k -> get k' (update k f o) = get k' o.
Proof.
  intros Hne. induction o as [|[k0 v] o IH]; simpl; [reflexivity|].
  destruct (String.eqb k0 k) eqn:E; simpl; rewrite IH; [|reflexivity].
  apply String.eqb_eq in E. subst k0.
  destruct (String.eqb k k') eqn:E'; [|reflexivity].
  apply String.eqb_eq in E'. congruence.
Qed.

Lemma get_insert_index_eq n k v o :
  get k o = None -> get k (insert_index n k v o) = Some v.
Proof.
  induction o as [|[k' v'] o IH]; simpl; intros H.
  - now rewrite String.eqb_refl.
  - destruct (String.eqb k' k) eqn:E; [discriminate|].
    destruct (array_index k') as [n'|]; simpl.
    + destruct (n' <? n)%N; simpl.
      * rewrite E. auto.
      * now rewrite String.eqb_refl.
    + now rewrite String.eqb_refl.
Qed.

Lemma get_insert_index_ne n k k' v o :
  k' <> k -> get k' (insert_index n k v o) = get k' o.
Proof.
  intros Hne.
  assert (Hk : String.eqb k k' = false)
    by (apply String.eqb_neq; congruence).
  induction o as [|[k0 v0] o IH]; simpl.
  - now rewrite Hk.
  - destruct (array_index k0) as [n'|]; simpl.
    + destruct (n' <? n)%N; simpl.
      * now rewrite IH.
      * now rewrite Hk.
    + now rewrite Hk.
Qed.

Lemma get_app k o1 o2 :
  get k (o1 ++ o2) =
  match get k o1 with Some v => Some v | None => get k o2 end.
Proof.
  induction o1 as [|[k' v] o1 IH]; simpl; [reflexivity|].
  destruct (String.eqb k' k); auto.
Qed.

Lemma get_create_eq k v o :
  get k o = None -> get k (create k v o) = Some v.
Proof.
  intros H. unfold create. destruct (array_index k).
  - now apply get_insert_index_eq.
  - rewrite get_app, H. simpl. now rewrite String.eqb_refl.
Qed.

Lemma get_create_ne k k' v o :
  k' <> k -> get k' (create k v o) = get k' o.
Proof.
  intros Hne. unfold create. destruct (array_index k).
  - now apply get_insert_index_ne.
  - rewrite get_app. destruct (get k' o); [reflexivity|]. simpl.
    destruct (String.eqb k k') eqn:E; [|reflexivity].
    apply String.eqb_eq in E. congruence.
Qed.

Lemma get_delete_eq k o : get k (delete k o) = None.
Proof.
  induction o as [|[k' v] o IH]; simpl; [reflexivity|].
  destruct (String.eqb k' k) eqn:E; simpl; [assumption|].
  now rewrite E.
Qed.

Lemma get_delete_ne k k' o :
  k' <> k -> get k' (delete k o) = get k' o.
Proof.
  intros Hne. induction o as [|[k0 v] o IH]; simpl; [reflexivity|].
  destruct (String.eqb k0 k) eqn:E; simpl.
  - apply String.eqb_eq in E. subst k0.
    destruct (String.eqb k k') eqn:E'; [|assumption].
    apply String.eqb_eq in E'. congruence.
  - now rewrite IH.
Qed.

Lemma get_In k v o : get k o = Some v -> In (k, v) o.
Proof.
  induction o as [|[k' v'] o IH]; simpl; [discriminate|].
  destruct (String.eqb k' k) eqn:E.
  - apply String.eqb_eq in E. intros [= ->]. left. now subst.
  - auto.
Qed.

Lemma get_None_keys k o : get k o = None <-> ~ In k (keys o).
Proof.
  induction o as [|[k' v'] o IH]; simpl.
  - tauto.
  - destruct (String.eqb k' k) eqn:E.
    + apply String.eqb_eq in E. split; [discriminate|]. intros H.
      exfalso. apply H. now left.
    + apply String.eqb_neq in E. rewrite IH. tauto.
Qed.

Lemma keys_update k f o : keys (update k f o) = keys o.
Proof.
  induction o as [|[k' v] o IH]; simpl; [reflexivity|].
  destruct (String.eqb k' k); simpl; now rewrite IH.
Qed.

End Facts.
End JsObjectFacts.

(** ** The history agrees with the output *)

Lemma spread_id d : spread d = d.
Proof. now destruct d. Qed.

Lemma qid_eqb_refl q : qid_eqb q q = true.
Proof. destruct q; simpl; [reflexivity | apply String.eqb_refl]. Qed.

Lemma qid_eqb_eq a b : qid_eqb a b = true <-> a = b.
Proof.
  destruct a, b; simpl; try (split; [discriminate | congruence]).
  - tauto.
  - rewrite String.eqb_eq. split; congruence.
Qed.

Lemma qid_eqb_neq a b : a <> b -> qid_eqb a b = false.
Proof.
  intros H. destruct (qid_eqb a b) eqn:E; [|reflexivity].
  apply qid_eqb_eq in E. contradiction.
Qed.

Lemma arrived_app q l1 l2 : arrived q (l1 ++ l2) = arrived q l1 ++ arrived q l2.
Proof. apply flat_map_app. Qed.

Lemma emitted_app q l1 l2 : emitted q (l1 ++ l2) = emitted q l1 ++ emitted q l2.
Proof. apply flat_map_app. Qed.

Lemma dequeued_app q l1 l2 :
  dequeued q (l1 ++ l2) = dequeued q l1 ++ dequeued q l2.
Proof. apply flat_map_app. Qed.

Lemma outputs_of_app l1 l2 :
  outputs_of (l1 ++ l2) = outputs_of l1 ++ outputs_of l2.
Proof. apply flat_map_app. Qed.

Ltac split_log :=
  rewrite ?arrived_app, ?emitted_app, ?dequeued_app, ?outputs_of_app.

Section Loops.
Variables St In : Type.
Variable step : St -> In -> St.
Variable events : St -> In -> Log.

Lemma trace_app st l1 l2 :
  trace step events st (l1 ++ l2) =
  trace step events st l1 ++ trace step events (fold_left step l1 st) l2.
Proof.
  revert st. induction l1 as [|i l1 IH]; intros st; simpl; [reflexivity|].
  now rewrite IH, app_assoc.
Qed.

(** A loop whose body pushes on [output] what its events say. *)
Lemma fold_left_trace (f : St * Output -> In -> St * Output) :
  (forall st out i, f (st, out) i = (step st i, out ++ outputs_of (events st i))) ->
  forall l st out,
    fold_left f l (st, out) =
    (fold_left step l st, out ++ outputs_of (trace step events st l)).
Proof.
  intros Hf. induction l as [|i l IH]; intros st out; simpl.
  - now rewrite app_nil_r.
  - rewrite Hf, IH, outputs_of_app, app_assoc. reflexivity.
Qed.

(** A property of state and history that every iteration keeps holds after
    the loop. *)
Lemma trace_invariant (P : St -> Log -> Prop) :
  (forall st log i, P st log -> P (step st i) (log ++ events st i)) ->
  forall l st log,
    P st log -> P (fold_left step l st) (log ++ trace step events st l).
Proof.
  intros Hstep. induction l as [|i l IH]; intros st log HP; simpl.
  - now rewrite app_nil_r.
  - rewrite app_assoc. apply IH, Hstep, HP.
Qed.

End Loops.

Lemma fold_enqueue_single arrivals st :
  fold_left enqueue_single arrivals st =
  {| queue := queue st ++ map new_entry arrivals; locked := locked st |}.
Proof.
  revert st. induction arrivals as [|a l IH]; intros st; simpl.
  - rewrite app_nil_r. now destruct st.
  - rewrite IH. simpl. now rewrite <- app_assoc.
Qed.

Lemma promote_single_events st out :
  promote_single st out =
  (fst (promote_single st []), out ++ outputs_of (promote_events Global st)).
Proof.
  unfold promote_single, promote_events.
  destruct (locked st); simpl; [now rewrite app_nil_r|].
  destruct (queue st); simpl; [now rewrite app_nil_r | reflexivity].
Qed.

Lemma release_single_events st out s :
  release_single (st, out) s =
  (release_state_single st s, out ++ outputs_of (release_events_single st s)).
Proof.
  unfold release_state_single, release_single, release_events_single,
    advance_events.
  destruct (signalKey s) as [k|]; simpl; [|now rewrite app_nil_r].
  destruct (String.eqb k ""); simpl; [now rewrite app_nil_r|].
  destruct (queue st) as [|head rest] eqn:Hq; simpl; [now rewrite app_nil_r|].
  destruct (String.eqb (key head) k); simpl; [|now rewrite app_nil_r].
  rewrite ?Hq. simpl.
  destruct rest; simpl; [now rewrite app_nil_r | reflexivity].
Qed.

Lemma outputs_of_enqueue_single st l :
  outputs_of (trace enqueue_single enqueue_events_single st l) = [].
Proof. revert st. induction l; intros st; simpl; auto. Qed.

Lemma execute_single_log arrivals signals st :
  snd (execute_single arrivals signals st) =
  outputs_of (log_single arrivals signals st).
Proof.
  unfold execute_single, log_single.
  rewrite promote_single_events.
  rewrite (fold_left_trace _ _ release_state_single release_events_single
             release_single release_single_events).
  simpl. split_log. now rewrite outputs_of_enqueue_single.
Qed.

Lemma promote_key_events qs out k :
  promote_key (qs, out) k =
  (promote_state_key qs k, out ++ outputs_of (promote_events_key qs k)).
Proof.
  unfold promote_state_key, promote_key, promote_events_key, promote_events.
  destruct (JsObject.get k qs) as [state|]; simpl; [|now rewrite app_nil_r].
  destruct (locked state); simpl; [now rewrite app_nil_r|].
  destruct (queue state); simpl; [now rewrite app_nil_r | reflexivity].
Qed.

Lemma release_ok_events qs out s :
  release_ok (qs, out) s =
  (release_state_ok qs s, out ++ outputs_of (release_events_ok qs s)).
Proof.
  unfold release_state_ok, release_ok, release_events_ok,
    advance_events.
  destruct (signalKey s) as [k|]; simpl; [|now rewrite app_nil_r].
  destruct (String.eqb k ""); simpl; [now rewrite app_nil_r|].
  destruct (JsObject.get k qs) as [state|]; simpl; [|now rewrite app_nil_r].
  destruct (queue state) as [|head rest] eqn:Hq; simpl;
    [now rewrite app_nil_r|].
  destruct rest; simpl; [now rewrite app_nil_r | reflexivity].
Qed.

Lemma outputs_of_enqueue_ok qs l :
  outputs_of (trace enqueue_ok enqueue_events_ok qs l) = [].
Proof. revert qs. induction l; intros qs; simpl; auto. Qed.

Lemma promote_multi_events qs out :
  promote_multi qs out =
  (fold_left promote_state_key (JsObject.keys qs) qs,
   out ++ outputs_of
     (trace promote_state_key promote_events_key qs (JsObject.keys qs))).
Proof.
  unfold promote_multi.
  apply (fold_left_trace _ _ promote_state_key promote_events_key
           promote_key promote_key_events).
Qed.

Lemma execute_multi_ok_log arrivals signals qs :
  snd (execute_multi_ok arrivals signals qs) =
  outputs_of (log_multi_ok arrivals signals qs).
Proof.
  unfold execute_multi_ok, log_multi_ok.
  rewrite promote_multi_events.
  rewrite (fold_left_trace _ _ release_state_ok release_events_ok
             release_ok release_ok_events).
  simpl. split_log. now rewrite outputs_of_enqueue_ok.
Qed.

(** ** One queue: each kind of step keeps the invariant *)

Lemma foreign_events q evs :
  (forall ev, In ev evs -> event_queue ev <> q) ->
  arrived q evs = [] /\ emitted q evs = [] /\ dequeued q evs = [].
Proof.
  induction evs as [|ev evs IH]; intros H; simpl; [auto|].
  destruct IH as (Ha & He & Hd); [intros; apply H; now right|].
  assert (Hq : qid_eqb q (event_queue ev) = false).
  { apply qid_eqb_neq. intros ->. apply (H ev); [now left | reflexivity]. }
  rewrite Ha, He, Hd.
  destruct ev; simpl in Hq; rewrite Hq; auto.
Qed.

Lemma qinv_foreign q st log evs :
  (forall ev, In ev evs -> event_queue ev <> q) ->
  QInv q st log -> QInv q st (log ++ evs).
Proof.
  intros Hf [Ha He Hl].
  destruct (foreign_events q evs Hf) as (Ha' & He' & Hd').
  split; split_log; rewrite ?Ha', ?He', ?Hd', ?app_nil_r; auto.
Qed.

Lemma qinv_push q e st log :
  QInv q st log -> QInv q (push e st) (log ++ [Enqueued q e]).
Proof.
  intros [Ha He Hl]. split; split_log; simpl; rewrite ?qid_eqb_refl, ?app_nil_r.
  - rewrite Ha. now rewrite app_assoc.
  - rewrite He. destruct (locked st) eqn:El; [|reflexivity].
    destruct (queue st); [now destruct Hl | reflexivity].
  - intros _. now destruct (queue st).
Qed.

Lemma qinv_promote q st log :
  QInv q st log ->
  QInv q (promote_state st) (log ++ promote_events q st)
  /\ Held (promote_state st).
Proof.
  intros Hinv. pose proof Hinv as [Ha He Hl].
  unfold promote_state, promote_events, Held.
  destruct (locked st) eqn:El.
  - rewrite app_nil_r. split; [exact Hinv | intros _; exact El].
  - destruct (queue st) as [|front rest] eqn:Eq.
    + rewrite app_nil_r. split; [exact Hinv | rewrite Eq; congruence].
    + split; [|reflexivity].
      split; split_log; simpl; rewrite ?qid_eqb_refl, ?app_nil_r, ?Eq.
      * exact Ha.
      * rewrite He, ?app_nil_r. reflexivity.
      * discriminate.
Qed.

Lemma qinv_advance q st log :
  QInv q st log -> Held st ->
  QInv q (advance_state st) (log ++ advance_events q st)
  /\ Held (advance_state st).
Proof.
  intros Hinv Hh. pose proof Hinv as [Ha He Hl].
  unfold advance_state, advance_events, Held.
  destruct (queue st) as [|head rest] eqn:Eq.
  - rewrite app_nil_r. split; [exact Hinv | rewrite Eq; congruence].
  - assert (El : locked st = true) by (apply Hh; rewrite Eq; discriminate).
    rewrite El in He. simpl in He.
    destruct rest as [|next rest]; simpl.
    + split; [|congruence].
      split; split_log; simpl; rewrite ?qid_eqb_refl, ?app_nil_r.
      * exact Ha.
      * exact He.
      * discriminate.
    + split; [|reflexivity].
      split; split_log; simpl; rewrite ?qid_eqb_refl, ?app_nil_r.
      * rewrite Ha, <- app_assoc. reflexivity.
      * rewrite He, <- !app_assoc. reflexivity.
      * discriminate.
Qed.

Lemma trace_events St In (step : St -> In -> St) (events : St -> In -> Log)
  (Q : Event -> Prop) :
  (forall st i ev, List.In ev (events st i) -> Q ev) ->
  forall l st ev, List.In ev (trace step events st l) -> Q ev.
Proof.
  intros H. induction l as [|i l IH]; intros st ev; simpl; [tauto|].
  rewrite in_app_iff. intros [Hin|Hin]; eauto.
Qed.

Lemma promote_events_queue q st ev :
  In ev (promote_events q st) -> event_queue ev = q.
Proof.
  unfold promote_events. destruct (locked st); simpl; [tauto|].
  destruct (queue st); simpl; [tauto|]. now intros [<-|[]].
Qed.

Lemma advance_events_queue q st ev :
  In ev (advance_events q st) -> event_queue ev = q.
Proof.
  unfold advance_events. destruct (queue st) as [|h [|n r]]; simpl.
  - tauto.
  - now intros [<-|[]].
  - now intros [<-|[<-|[]]].
Qed.

(** ** Single mode *)

Lemma promote_single_state st out :
  fst (promote_single st out) = promote_state st.
Proof.
  unfold promote_single, promote_state.
  destruct (locked st); [reflexivity|]. now destruct (queue st).
Qed.

Lemma release_single_cases st s :
  (release_state_single st s = st /\ release_events_single st s = [])
  \/ (release_state_single st s = advance_state st
      /\ release_events_single st s = advance_events Global st).
Proof.
  unfold release_state_single, release_single, release_events_single.
  destruct (signalKey s) as [k|]; [|now left].
  destruct (String.eqb k ""); [now left|].
  destruct (queue st) as [|head rest] eqn:Eq; [now left|].
  destruct (String.eqb (key head) k); [|now left].
  right. split; [|unfold advance_events; now rewrite Eq].
  unfold advance_state, set_locked, shift. simpl. rewrite Eq. simpl.
  now destruct rest.
Qed.

Lemma log_single_global arrivals signals st ev :
  In ev (log_single arrivals signals st) -> event_queue ev = Global.
Proof.
  unfold log_single. rewrite !in_app_iff. intros [H|[H|H]].
  - eapply (trace_events _ _ _ _ (fun e => event_queue e = Global));
      [|exact H].
    intros ? ? ? [<-|[]]. reflexivity.
  - now apply promote_events_queue in H.
  - eapply (trace_events _ _ _ _ (fun e => event_queue e = Global));
      [|exact H].
    intros st' s ev'.
    destruct (release_single_cases st' s) as [[_ ->]|[_ ->]]; simpl; [tauto|].
    apply advance_events_queue.
Qed.

Lemma execute_single_inv arrivals signals st log :
  QInv Global st log ->
  let st' := fst (execute_single arrivals signals st) in
  QInv Global st' (log ++ log_single arrivals signals st) /\ Held st'.
Proof.
  intros Hinv. unfold execute_single, log_single.
  rewrite promote_single_events.
  rewrite (fold_left_trace _ _ release_state_single release_events_single
             release_single release_single_events).
  simpl. rewrite promote_single_state. rewrite !app_assoc.
  apply (trace_invariant _ _ release_state_single release_events_single
           (fun st log => QInv Global st log /\ Held st)).
  - intros st0 log0 s [Hi Hh].
    destruct (release_single_cases st0 s) as [[-> ->]|[-> ->]].
    + now rewrite app_nil_r.
    + now apply qinv_advance.
  - apply qinv_promote.
    apply (trace_invariant _ _ enqueue_single enqueue_events_single
             (fun st log => QInv Global st log)); [|exact Hinv].
    intros st0 log0 a Hi. now apply qinv_push.
Qed.

(** ** Multi mode: what each step does to the state under each key *)

Import JsObjectFacts.

Lemma eqb_sym_false k k' : String.eqb k k' = false -> k' <> k.
Proof. intros E ->. now rewrite String.eqb_refl in E. Qed.

Lemma get_enqueue_ok qs a k :
  JsObject.get k (enqueue_ok qs a) =
  if String.eqb (key_param a) k
  then Some (push (new_entry a) (view_multi qs k))
  else JsObject.get k qs.
Proof.
  unfold enqueue_ok, view_multi.
  destruct (String.eqb (key_param a) k) eqn:E.
  - apply String.eqb_eq in E. subst k. rewrite get_update_eq.
    destruct (JsObject.get (key_param a) qs) as [st|] eqn:G; simpl.
    + now rewrite G.
    + now rewrite get_create_eq.
  - apply eqb_sym_false in E. rewrite get_update_ne by exact E.
    destruct (JsObject.get (key_param a) qs); [reflexivity|].
    now apply get_create_ne.
Qed.

Lemma get_promote_key qs k0 k :
  JsObject.get k (promote_state_key qs k0) =
  if String.eqb k0 k
  then option_map promote_state (JsObject.get k qs)
  else JsObject.get k qs.
Proof.
  unfold promote_state_key, promote_key, promote_state.
  destruct (String.eqb k0 k) eqn:E.
  - apply String.eqb_eq in E. subst k.
    destruct (JsObject.get k0 qs) as [st|] eqn:G; simpl; [|exact G].
    destruct (locked st); simpl; [exact G|].
    destruct (queue st); simpl; [exact G|].
    now rewrite get_update_eq, G.
  - apply eqb_sym_false in E.
    destruct (JsObject.get k0 qs) as [st|]; simpl; [|reflexivity].
    destruct (locked st); simpl; [reflexivity|].
    destruct (queue st); simpl; [reflexivity|].
    now apply get_update_ne.
Qed.

Lemma promote_events_key_view qs k :
  promote_events_key qs k = promote_events (Keyed k) (view_multi qs k).
Proof.
  unfold promote_events_key, view_multi.
  now destruct (JsObject.get k qs).
Qed.

Lemma release_ok_skip qs s :
  release_key s = None ->
  release_state_ok qs s = qs /\ release_events_ok qs s = [].
Proof.
  unfold release_key, release_state_ok, release_ok,
    release_events_ok.
  destruct (signalKey s) as [k|]; [|now split].
  destruct (String.eqb k ""); [now split | discriminate].
Qed.

Lemma get_release_ok qs s k0 k :
  release_key s = Some k0 ->
  JsObject.get k (release_state_ok qs s) =
  if String.eqb k0 k then advance_slot (JsObject.get k qs)
  else JsObject.get k qs.
Proof.
  unfold release_key, release_state_ok, release_ok, advance_slot.
  destruct (signalKey s) as [k1|]; [|discriminate].
  destruct (String.eqb k1 ""); [discriminate|]. intros [= ->].
  destruct (String.eqb k0 k) eqn:E.
  - apply String.eqb_eq in E. subst k.
    destruct (JsObject.get k0 qs) as [st|] eqn:G; simpl; [|exact G].
    destruct (queue st) as [|head [|next rest]] eqn:Eq; simpl.
    + exact G.
    + rewrite ?Eq. simpl. apply get_delete_eq.
    + rewrite ?Eq. simpl. rewrite get_update_eq, G. simpl.
      unfold advance_state, set_locked, shift. simpl. now rewrite Eq.
  - apply eqb_sym_false in E.
    destruct (JsObject.get k0 qs) as [st|]; simpl; [|reflexivity].
    destruct (queue st) as [|head [|next rest]] eqn:Eq; simpl.
    + reflexivity.
    + rewrite ?Eq. simpl. now apply get_delete_ne.
    + rewrite ?Eq. simpl. now apply get_update_ne.
Qed.

Lemma release_events_ok_view qs s k0 :
  release_key s = Some k0 ->
  release_events_ok qs s = advance_events (Keyed k0) (view_multi qs k0).
Proof.
  unfold release_key, release_events_ok, view_multi.
  destruct (signalKey s) as [k1|]; [|discriminate].
  destruct (String.eqb k1 ""); [discriminate|]. intros [= ->].
  now destruct (JsObject.get k0 qs).
Qed.

Lemma view_advance_slot o :
  nullish (advance_slot o) idle = advance_state (nullish o idle).
Proof.
  destruct o as [st|]; simpl; [|reflexivity].
  unfold advance_state.
  destruct (queue st) as [|head [|next rest]]; reflexivity.
Qed.

Lemma view_promote_slot o :
  nullish (option_map promote_state o) idle = promote_state (nullish o idle).
Proof. now destruct o. Qed.

(** ** Multi mode: the invariant *)

Lemma keyed_neq k0 k : String.eqb k0 k = false -> Keyed k0 <> Keyed k.
Proof. intros E [= ->]. now rewrite String.eqb_refl in E. Qed.

(** A step that works on the queue of one key. *)
Lemma minv_step qs qs' log evs k0 (f : KeyQueueState -> KeyQueueState) :
  (forall k, view_multi qs' k =
             if String.eqb k0 k then f (view_multi qs k) else view_multi qs k) ->
  (forall ev, In ev evs -> event_queue ev = Keyed k0) ->
  (QInv (Keyed k0) (view_multi qs k0) log ->
   QInv (Keyed k0) (f (view_multi qs k0)) (log ++ evs)) ->
  MInv qs log -> MInv qs' (log ++ evs).
Proof.
  intros Hview Hev Hstep Hinv k. rewrite Hview.
  destruct (String.eqb k0 k) eqn:E.
  - apply String.eqb_eq in E. subst k. apply Hstep, Hinv.
  - apply qinv_foreign; [|apply Hinv].
    intros ev Hin. rewrite (Hev ev Hin). now apply keyed_neq.
Qed.

Lemma view_enqueue_ok qs a k :
  view_multi (enqueue_ok qs a) k =
  if String.eqb (key_param a) k then push (new_entry a) (view_multi qs k)
  else view_multi qs k.
Proof.
  unfold view_multi at 1. rewrite get_enqueue_ok.
  now destruct (String.eqb (key_param a) k).
Qed.

Lemma view_promote_key qs k0 k :
  view_multi (promote_state_key qs k0) k =
  if String.eqb k0 k then promote_state (view_multi qs k) else view_multi qs k.
Proof.
  unfold view_multi at 1. rewrite get_promote_key.
  destruct (String.eqb k0 k); [apply view_promote_slot | reflexivity].
Qed.

Lemma view_release_ok qs s k0 k :
  release_key s = Some k0 ->
  view_multi (release_state_ok qs s) k =
  if String.eqb k0 k then advance_state (view_multi qs k) else view_multi qs k.
Proof.
  intros H. unfold view_multi at 1. rewrite (get_release_ok _ _ _ _ H).
  destruct (String.eqb k0 k); [apply view_advance_slot | reflexivity].
Qed.

Lemma minv_enqueue qs log a :
  MInv qs log ->
  MInv (enqueue_ok qs a) (log ++ enqueue_events_ok qs a).
Proof.
  apply (minv_step qs _ log _ (key_param a) (push (new_entry a))).
  - apply view_enqueue_ok.
  - now intros ev [<-|[]].
  - apply qinv_push.
Qed.

Lemma minv_promote_key qs log k0 :
  MInv qs log ->
  MInv (promote_state_key qs k0) (log ++ promote_events_key qs k0).
Proof.
  rewrite promote_events_key_view.
  apply (minv_step qs _ log _ k0 promote_state).
  - apply view_promote_key.
  - apply promote_events_queue.
  - apply qinv_promote.
Qed.

Lemma minv_promote ks : forall qs log,
  MInv qs log ->
  (forall k, ~ In k ks -> Held (view_multi qs k)) ->
  MInv (fold_left promote_state_key ks qs)
       (log ++ trace promote_state_key promote_events_key qs ks)
  /\ MHeld (fold_left promote_state_key ks qs).
Proof.
  induction ks as [|k0 ks IH]; intros qs log Hinv Hheld; simpl.
  - rewrite app_nil_r. split; [exact Hinv|]. intros k. now apply Hheld.
  - rewrite app_assoc. apply IH; [now apply minv_promote_key|].
    intros k Hk. rewrite view_promote_key.
    destruct (String.eqb k0 k) eqn:E.
    + apply String.eqb_eq in E. subst k.
      apply (qinv_promote (Keyed k0) _ log), Hinv.
    + apply Hheld. simpl. intros [->|H]; [|contradiction].
      now rewrite String.eqb_refl in E.
Qed.

Lemma minv_release qs log s :
  MInv qs log /\ MHeld qs ->
  MInv (release_state_ok qs s) (log ++ release_events_ok qs s)
  /\ MHeld (release_state_ok qs s).
Proof.
  intros [Hinv Hheld].
  destruct (release_key s) as [k0|] eqn:Hk.
  - rewrite (release_events_ok_view _ _ _ Hk). split.
    + apply (minv_step qs _ log _ k0 advance_state); [| |
        intros H; now apply qinv_advance | exact Hinv].
      * intros k. now apply view_release_ok.
      * apply advance_events_queue.
    + intros k. rewrite (view_release_ok _ _ _ _ Hk).
      destruct (String.eqb k0 k); [|apply Hheld].
      now apply (qinv_advance (Keyed k) _ log).
  - destruct (release_ok_skip qs s Hk) as [-> ->].
    now rewrite app_nil_r.
Qed.

Lemma view_absent qs k :
  ~ In k (JsObject.keys qs) -> view_multi qs k = idle.
Proof.
  intros H. apply get_None_keys in H. unfold view_multi. now rewrite H.
Qed.

Lemma execute_multi_ok_inv arrivals signals qs log :
  MInv qs log ->
  let qs' := fst (execute_multi_ok arrivals signals qs) in
  MInv qs' (log ++ log_multi_ok arrivals signals qs) /\ MHeld qs'.
Proof.
  intros Hinv. unfold execute_multi_ok, log_multi_ok.
  rewrite promote_multi_events.
  rewrite (fold_left_trace _ _ release_state_ok release_events_ok
             release_ok release_ok_events).
  simpl. rewrite !app_assoc.
  apply (trace_invariant _ _ release_state_ok release_events_ok
           (fun qs log => MInv qs log /\ MHeld qs)).
  - intros qs0 log0 s. apply minv_release.
  - apply minv_promote.
    + apply (trace_invariant _ _ enqueue_ok enqueue_events_ok MInv);
        [|exact Hinv].
      intros qs0 log0 a. apply minv_enqueue.
    + intros k Hk. rewrite (view_absent _ _ Hk). unfold Held. simpl. congruence.
Qed.

Lemma log_multi_ok_keyed arrivals signals qs ev :
  In ev (log_multi_ok arrivals signals qs) -> event_queue ev <> Global.
Proof.
  unfold log_multi_ok. rewrite !in_app_iff. intros [H|[H|H]].
  - eapply (trace_events _ _ _ _ (fun e => event_queue e <> Global));
      [|exact H].
    intros ? ? ? [<-|[]]. discriminate.
  - eapply (trace_events _ _ _ _ (fun e => event_queue e <> Global));
      [|exact H].
    intros qs' k ev'. rewrite promote_events_key_view. intros Hin.
    apply promote_events_queue in Hin. congruence.
  - eapply (trace_events _ _ _ _ (fun e => event_queue e <> Global));
      [|exact H].
    intros qs' s ev'. destruct (release_key s) as [k0|] eqn:Hk.
    + rewrite (release_events_ok_view _ _ _ Hk). intros Hin.
      apply advance_events_queue in Hin. congruence.
    + destruct (release_ok_skip qs' s Hk) as [_ ->]. intros [].
Qed.

(** ** The invariant before the first invocation *)

Lemma held_idle : Held idle.
Proof. unfold Held. simpl. congruence. Qed.

(** ** The history records the arrivals of the run *)

Lemma arrived_no_enqueue q evs :
  (forall ev, In ev evs -> is_enqueue ev = false) -> arrived q evs = [].
Proof.
  induction evs as [|ev evs IH]; intros H; simpl; [reflexivity|].
  rewrite IH by (intros; apply H; now right).
  specialize (H ev (or_introl eq_refl)). destruct ev; simpl in H;
    [discriminate | reflexivity | reflexivity].
Qed.

Lemma promote_events_no_enqueue q st ev :
  In ev (promote_events q st) -> is_enqueue ev = false.
Proof.
  unfold promote_events. destruct (locked st); simpl; [tauto|].
  destruct (queue st); simpl; [tauto|]. now intros [<-|[]].
Qed.

Lemma advance_events_no_enqueue q st ev :
  In ev (advance_events q st) -> is_enqueue ev = false.
Proof.
  unfold advance_events. destruct (queue st) as [|h [|n r]]; simpl.
  - tauto.
  - now intros [<-|[]].
  - now intros [<-|[<-|[]]].
Qed.

Lemma arrived_log_single q arrivals signals st :
  arrived q (log_single arrivals signals st) =
  match q with Global => map new_entry arrivals | Keyed _ => [] end.
Proof.
  unfold log_single. split_log.
  rewrite (arrived_no_enqueue q (promote_events _ _))
    by apply promote_events_no_enqueue.
  rewrite (arrived_no_enqueue q (trace release_state_single _ _ _)).
  - rewrite !app_nil_r. generalize st.
    induction arrivals as [|a l IH]; intros st0; simpl.
    + now destruct q.
    + rewrite IH. now destruct q.
  - apply (trace_events _ _ _ _ (fun e => is_enqueue e = false)).
    intros st' s ev.
    destruct (release_single_cases st' s) as [[_ ->]|[_ ->]]; simpl; [tauto|].
    apply advance_events_no_enqueue.
Qed.

Lemma arrived_log_multi_ok q arrivals signals qs :
  arrived q (log_multi_ok arrivals signals qs) =
  match q with
  | Global => []
  | Keyed k =>
      map new_entry (filter (fun a => String.eqb k (key_param a)) arrivals)
  end.
Proof.
  unfold log_multi_ok. split_log.
  rewrite (arrived_no_enqueue q (trace promote_state_key _ _ _)).
  rewrite (arrived_no_enqueue q (trace release_state_ok _ _ _)).
  - rewrite !app_nil_r. generalize qs.
    induction arrivals as [|a l IH]; intros qs0; simpl.
    + now destruct q.
    + rewrite IH. destruct q as [|k]; simpl; [reflexivity|].
      now destruct (String.eqb k (key_param a)).
  - apply (trace_events _ _ _ _ (fun e => is_enqueue e = false)).
    intros qs' s ev. destruct (release_key s) as [k0|] eqn:Hk.
    + rewrite (release_events_ok_view _ _ _ Hk).
      apply advance_events_no_enqueue.
    + destruct (release_ok_skip qs' s Hk) as [_ ->]. intros [].
  - apply (trace_events _ _ _ _ (fun e => is_enqueue e = false)).
    intros qs' k ev. rewrite promote_events_key_view.
    apply promote_events_no_enqueue.
Qed.

Lemma outputs_of_global log :
  (forall ev, In ev log -> event_queue ev = Global) ->
  outputs_of log = map (fun e => spread (data e)) (emitted Global log).
Proof.
  induction log as [|ev log IH]; intros H; simpl; [reflexivity|].
  rewrite map_app, IH by (intros; apply H; now right).
  specialize (H ev (or_introl eq_refl)).
  destruct ev; simpl in *; subst; reflexivity.
Qed.

(** ** Single mode: an unmatched release *)

Lemma release_single_unmatched st output s :
  unmatched_single st s = true -> release_single (st, output) s = (st, output).
Proof.
  unfold unmatched_single, release_key, release_single.
  destruct (signalKey s) as [k|]; [|reflexivity].
  destruct (String.eqb k ""); [reflexivity|].
  destruct (queue st) as [|head rest]; [reflexivity|].
  now destruct (String.eqb (key head) k).
Qed.

(** ** The key a release works on *)

Lemma release_key_signalKey s k : release_key s = Some k -> signalKey s = Some k.
Proof.
  unfold release_key. destruct (signalKey s) as [k1|]; [|discriminate].
  destruct (String.eqb k1 ""); [discriminate | congruence].
Qed.

Lemma release_ok_state qs output s :
  fst (release_ok (qs, output) s) = release_state_ok qs s.
Proof. now rewrite release_ok_events. Qed.

(** ** The steps keep every queue of the mapping non-empty *)

Lemma fold_left_keeps St In (step : St -> In -> St) (P : St -> Prop) :
  (forall st i, P st -> P (step st i)) ->
  forall l st, P st -> P (fold_left step l st).
Proof.
  intros H. induction l as [|i l IH]; intros st HP; simpl; auto.
Qed.

Lemma nonempty_enqueue qs a : NonEmpty qs -> NonEmpty (enqueue_ok qs a).
Proof.
  intros H k st. rewrite get_enqueue_ok.
  destruct (String.eqb (key_param a) k); [|apply H].
  intros [= <-]. simpl. now destruct (queue (view_multi qs k)).
Qed.

Lemma queue_promote_state st : queue (promote_state st) = queue st.
Proof.
  unfold promote_state. destruct (locked st); [reflexivity|].
  destruct (queue st) eqn:Eq; simpl; congruence.
Qed.

Lemma nonempty_promote_key qs k0 :
  NonEmpty qs -> NonEmpty (promote_state_key qs k0).
Proof.
  intros H k st. rewrite get_promote_key.
  destruct (String.eqb k0 k); [|apply H].
  destruct (JsObject.get k qs) as [st0|] eqn:G; simpl; [|discriminate].
  intros [= <-]. rewrite queue_promote_state. now apply (H k).
Qed.

Lemma nonempty_release qs s :
  NonEmpty qs -> NonEmpty (release_state_ok qs s).
Proof.
  intros H k st. destruct (release_key s) as [k0|] eqn:Hk.
  - rewrite (get_release_ok _ _ _ _ Hk).
    destruct (String.eqb k0 k); [|apply H].
    destruct (JsObject.get k qs) as [st0|] eqn:G; simpl; [|discriminate].
    destruct (queue st0) as [|head [|next rest]] eqn:Eq.
    + intros [= <-]. now apply (H k).
    + discriminate.
    + intros [= <-]. unfold advance_state. rewrite Eq. simpl. discriminate.
  - destruct (release_ok_skip qs s Hk) as [-> _]. apply H.
Qed.

Lemma execute_multi_ok_state arrivals signals qs :
  fst (execute_multi_ok arrivals signals qs) =
  fold_left release_state_ok signals
    (fold_left promote_state_key
       (JsObject.keys (fold_left enqueue_ok arrivals qs))
       (fold_left enqueue_ok arrivals qs)).
Proof.
  unfold execute_multi_ok. rewrite promote_multi_events.
  now rewrite (fold_left_trace _ _ release_state_ok release_events_ok
                 release_ok release_ok_events).
Qed.

Lemma nonempty_execute_multi_ok arrivals signals qs :
  NonEmpty qs -> NonEmpty (fst (execute_multi_ok arrivals signals qs)).
Proof.
  intros H. rewrite execute_multi_ok_state.
  apply fold_left_keeps; [intros; now apply nonempty_release|].
  apply fold_left_keeps; [intros; now apply nonempty_promote_key|].
  apply fold_left_keeps; [intros; now apply nonempty_enqueue | exact H].
Qed.

(** ** The output of the signal loop *)

Lemma release_single_delta st output s :
  release_single (st, output) s =
  (fst (release_single (st, []) s), output ++ snd (release_single (st, []) s)).
Proof. now rewrite !release_single_events. Qed.

Lemma release_ok_delta qs output s :
  release_ok (qs, output) s =
  (fst (release_ok (qs, []) s), output ++ snd (release_ok (qs, []) s)).
Proof. now rewrite !release_ok_events. Qed.

Lemma fold_release_single signals : forall st output,
  snd (fold_left release_single signals (st, output)) =
  output ++ released_single st signals.
Proof.
  induction signals as [|s signals IH]; intros st output;
    cbn [fold_left released_single].
  - simpl. now rewrite app_nil_r.
  - rewrite release_single_delta, IH. now rewrite app_assoc.
Qed.

Lemma fold_release_ok signals : forall qs output,
  snd (fold_left release_ok signals (qs, output)) =
  output ++ released_ok qs signals.
Proof.
  induction signals as [|s signals IH]; intros qs output;
    cbn [fold_left released_ok].
  - simpl. now rewrite app_nil_r.
  - rewrite release_ok_delta, IH. now rewrite app_assoc.
Qed.

(** ** The steps and the empty key *)

Lemma view_fold_enqueue_ok arrivals : forall qs k,
  view_multi (fold_left enqueue_ok arrivals qs) k =
  {| queue := queue (view_multi qs k)
              ++ map new_entry
                   (filter (fun a => String.eqb (key_param a) k) arrivals);
     locked := locked (view_multi qs k) |}.
Proof.
  induction arrivals as [|a arrivals IH]; intros qs k; simpl.
  - rewrite app_nil_r. now destruct (view_multi qs k).
  - rewrite IH, view_enqueue_ok.
    destruct (String.eqb (key_param a) k); simpl; [|reflexivity].
    now rewrite <- app_assoc.
Qed.

Lemma get_fold_promote ks : forall qs k,
  option_map queue (JsObject.get k (fold_left promote_state_key ks qs)) =
  option_map queue (JsObject.get k qs).
Proof.
  induction ks as [|k0 ks IH]; intros qs k; simpl; [reflexivity|].
  rewrite IH, get_promote_key.
  destruct (String.eqb k0 k); [|reflexivity].
  destruct (JsObject.get k qs); simpl; [|reflexivity].
  now rewrite queue_promote_state.
Qed.

Lemma release_key_not_empty s : release_key s <> Some "".
Proof.
  unfold release_key. destruct (signalKey s) as [k|]; [|discriminate].
  destruct (String.eqb k "") eqn:E; [discriminate|].
  intros [= ->]. discriminate.
Qed.

Lemma get_empty_key_release qs s :
  JsObject.get "" (release_state_ok qs s) = JsObject.get "" qs.
Proof.
  destruct (release_key s) as [k0|] eqn:Hk.
  - rewrite (get_release_ok _ _ _ _ Hk).
    destruct (String.eqb k0 "") eqn:E; [|reflexivity].
    apply String.eqb_eq in E. subst k0. now apply release_key_not_empty in Hk.
  - now destruct (release_ok_skip qs s Hk) as [-> _].
Qed.

Lemma get_empty_key_signals signals : forall qs,
  JsObject.get "" (fold_left release_state_ok signals qs) =
  JsObject.get "" qs.
Proof.
  induction signals as [|s signals IH]; intros qs; simpl; [reflexivity|].
  now rewrite IH, get_empty_key_release.
Qed.

(** ** The steps keep the keys distinct *)

Section Keys.
Variable V : Type.
Implicit Types o : JsObject.t V.



Lemma in_keys_insert_index n k v o x :
  In x (JsObject.keys (JsObject.insert_index n k v o)) <->
  x = k \/ In x (JsObject.keys o).
Proof.
  induction o as [|[k' v'] o IH]; simpl.
  - split; intros [H|H]; auto.
  - destruct (JsObject.array_index k') as [n'|]; simpl.
    + destruct (n' <? n)%N; simpl.
      * rewrite IH. tauto.
      * split; intros [H|H]; auto.
    + split; intros [H|H]; auto.
Qed.

Lemma nodup_keys_insert_index n k v o :
  ~ In k (JsObject.keys o) -> NoDup (JsObject.keys o) ->
  NoDup (JsObject.keys (JsObject.insert_index n k v o)).
Proof.
  induction o as [|[k' v'] o IH]; simpl; intros Hk Hnd.
  - constructor; [tauto | constructor].
  - assert (Hcons : NoDup (k :: k' :: JsObject.keys o))
      by (constructor; [simpl; tauto | exact Hnd]).
    destruct (JsObject.array_index k') as [n'|]; [|exact Hcons].
    destruct (n' <? n)%N; [|exact Hcons]. simpl.
    inversion Hnd as [|? ? Hk' Hnd']; subst.
    constructor; [|apply IH; tauto].
    rewrite in_keys_insert_index. intros [->|H]; tauto.
Qed.

Lemma nodup_keys_create k v o :
  ~ In k (JsObject.keys o) -> NoDup (JsObject.keys o) ->
  NoDup (JsObject.keys (JsObject.create k v o)).
Proof.
  intros Hk Hnd. unfold JsObject.create.
  destruct (JsObject.array_index k); [now apply nodup_keys_insert_index|].
  unfold JsObject.keys. rewrite map_app. simpl.
  apply NoDup_app; [exact Hnd | constructor; [tauto | constructor] |].
  intros x Hx [<-|[]]. contradiction.
Qed.

Lemma keys_delete k o :
  JsObject.keys (JsObject.delete k o) =
  filter (fun x => negb (String.eqb x k)) (JsObject.keys o).
Proof.
  induction o as [|[k' v] o IH]; simpl; [reflexivity|].
  destruct (String.eqb k' k); simpl; now rewrite IH.
Qed.

Lemma nodup_keys_delete k o :
  NoDup (JsObject.keys o) -> NoDup (JsObject.keys (JsObject.delete k o)).
Proof. intros H. rewrite keys_delete. now apply NoDup_filter. Qed.

End Keys.

Lemma nodup_enqueue qs a :
  NoDup (JsObject.keys qs) -> NoDup (JsObject.keys (enqueue_ok qs a)).
Proof.
  intros H. unfold enqueue_ok. rewrite keys_update.
  destruct (JsObject.get (key_param a) qs) eqn:G; [exact H|].
  apply nodup_keys_create; [now apply get_None_keys | exact H].
Qed.

Lemma keys_promote_key qs k :
  JsObject.keys (promote_state_key qs k) = JsObject.keys qs.
Proof.
  unfold promote_state_key, promote_key.
  destruct (JsObject.get k qs) as [st|]; [|reflexivity].
  destruct (locked st); [reflexivity|].
  destruct (queue st); [reflexivity|]. simpl. apply keys_update.
Qed.

Lemma nodup_release qs s :
  NoDup (JsObject.keys qs) -> NoDup (JsObject.keys (release_state_ok qs s)).
Proof.
  intros H. unfold release_state_ok, release_ok.
  destruct (signalKey s) as [k|]; [|exact H].
  destruct (String.eqb k ""); [exact H|].
  destruct (JsObject.get k qs) as [st|]; [|exact H].
  destruct (queue st) as [|head [|next rest]] eqn:Eq; simpl; rewrite ?Eq; simpl.
  - exact H.
  - now apply nodup_keys_delete.
  - now rewrite keys_update.
Qed.

Lemma nodup_execute_multi_ok arrivals signals qs :
  NoDup (JsObject.keys qs) ->
  NoDup (JsObject.keys (fst (execute_multi_ok arrivals signals qs))).
Proof.
  intros H. rewrite execute_multi_ok_state.
  apply (fold_left_keeps _ _ _ (fun qs => NoDup (JsObject.keys qs)));
    [intros; now apply nodup_release|].
  apply (fold_left_keeps _ _ _ (fun qs => NoDup (JsObject.keys qs)));
    [intros; now rewrite keys_promote_key|].
  apply (fold_left_keeps _ _ _ (fun qs => NoDup (JsObject.keys qs)));
    [intros; now apply nodup_enqueue | exact H].
Qed.

(** ** Promotion, key by key *)

Lemma promote_single_spec st output :
  promote_single st output = (promote_state st, output ++ promote_output st).
Proof.
  unfold promote_single, promote_state, promote_output.
  destruct (locked st); [now rewrite app_nil_r|].
  destruct (queue st); [now rewrite app_nil_r | reflexivity].
Qed.




(** ** Membership in the history *)

Lemma in_outputs_of x log :
  In x (outputs_of log) ->
  exists q e, In (Emitted q e) log /\ x = spread (data e).
Proof.
  induction log as [|ev log IH]; simpl; [tauto|].
  rewrite in_app_iff. intros [H|H].
  - destruct ev as [q e|q e|q e]; simpl in H; try tauto.
    destruct H as [<-|[]]. exists q, e. auto.
  - destruct (IH H) as (q & e & Hin & Hx). exists q, e. auto.
Qed.

Lemma in_emitted q e log : In (Emitted q e) log -> In e (emitted q log).
Proof.
  induction log as [|ev log IH]; simpl; [tauto|].
  rewrite in_app_iff. intros [->|H]; [|auto].
  left. simpl. rewrite qid_eqb_refl. now left.
Qed.

Lemma in_arrivals_of mode q invs e :
  In e (arrivals_of mode q invs) ->
  exists a, In a (all_arrivals invs) /\ e = new_entry a.
Proof.
  unfold arrivals_of. destruct mode, q; simpl; try tauto;
    rewrite in_map_iff; intros (a & <- & Ha).
  - exists a. auto.
  - apply filter_In in Ha. exists a. tauto.
Qed.

(** ** Each step emits at most one item *)

Lemma trace_outputs_bound St In (step : St -> In -> St)
  (events : St -> In -> Log) :
  (forall st i, List.length (outputs_of (events st i)) <= 1) ->
  forall l st,
    List.length (outputs_of (trace step events st l)) <= List.length l.
Proof.
  intros H. induction l as [|i l IH]; intros st; simpl; [lia|].
  rewrite outputs_of_app, length_app.
  specialize (H st i). specialize (IH (step st i)). lia.
Qed.

Lemma promote_events_bound q st :
  List.length (outputs_of (promote_events q st)) <= 1.
Proof.
  unfold promote_events. destruct (locked st); simpl; [lia|].
  destruct (queue st); simpl; lia.
Qed.

Lemma advance_events_bound q st :
  List.length (outputs_of (advance_events q st)) <= 1.
Proof.
  unfold advance_events. destruct (queue st) as [|h [|n r]]; simpl; lia.
Qed.

Lemma release_events_single_bound st s :
  List.length (outputs_of (release_events_single st s)) <= 1.
Proof.
  destruct (release_single_cases st s) as [[_ ->]|[_ ->]]; simpl; [lia|].
  apply advance_events_bound.
Qed.

Lemma release_events_ok_bound qs s :
  List.length (outputs_of (release_events_ok qs s)) <= 1.
Proof.
  destruct (release_key s) as [k0|] eqn:Hk.
  - rewrite (release_events_ok_view _ _ _ Hk). apply advance_events_bound.
  - destruct (release_ok_skip qs s Hk) as [_ ->]. simpl. lia.
Qed.

(** ** Promotion of a held queue *)

Lemma promote_state_held st : Held st -> promote_state st = st.
Proof.
  unfold Held, promote_state. intros H.
  destruct (locked st) eqn:El; [reflexivity|].
  destruct (queue st) eqn:Eq; [reflexivity|].
  assert (false = true) by (apply H; discriminate). discriminate.
Qed.

Lemma promote_output_held st : Held st -> promote_output st = [].
Proof.
  unfold Held, promote_output. intros H.
  destruct (locked st) eqn:El; [reflexivity|].
  destruct (queue st) eqn:Eq; [reflexivity|].
  assert (false = true) by (apply H; discriminate). discriminate.
Qed.

Lemma promote_key_held qs output k :
  MHeld qs -> promote_key (qs, output) k = (qs, output).
Proof.
  intros H. specialize (H k). unfold Held, view_multi in H.
  unfold promote_key.
  destruct (JsObject.get k qs) as [st|]; [|reflexivity]. simpl in H.
  destruct (locked st) eqn:El; [reflexivity|].
  destruct (queue st) eqn:Eq; [reflexivity|].
  assert (false = true) by (apply H; discriminate). discriminate.
Qed.

Lemma promote_keys_held qs output ks :
  MHeld qs -> fold_left promote_key ks (qs, output) = (qs, output).
Proof.
  intros H. induction ks as [|k ks IH]; cbn [fold_left]; [reflexivity|].
  now rewrite promote_key_held.
Qed.

(** ** Single mode: a batch of unmatched signals *)

Lemma fold_release_single_unmatched signals : forall st output,
  (forall s, In s signals -> unmatched_single st s = true) ->
  fold_left release_single signals (st, output) = (st, output).
Proof.
  induction signals as [|s signals IH]; intros st output H;
    cbn [fold_left]; [reflexivity|].
  rewrite release_single_unmatched by (apply H; now left).
  apply IH. intros s' Hs'. apply H. now right.
Qed.

(** ** The steps keep the entries under their key *)

Lemma keysmatch_enqueue qs a : KeysMatch qs -> KeysMatch (enqueue_ok qs a).
Proof.
  intros H k st e. rewrite get_enqueue_ok.
  destruct (String.eqb (key_param a) k) eqn:E; [|apply H].
  apply String.eqb_eq in E. intros [= <-]. simpl. rewrite in_app_iff.
  intros [Hin|[<-|[]]]; [|exact E].
  unfold view_multi in Hin.
  destruct (JsObject.get k qs) as [st0|] eqn:G; simpl in Hin; [|destruct Hin].
  now apply (H k st0).
Qed.

Lemma keysmatch_promote_key qs k0 :
  KeysMatch qs -> KeysMatch (promote_state_key qs k0).
Proof.
  intros H k st e. rewrite get_promote_key.
  destruct (String.eqb k0 k); [|apply H].
  destruct (JsObject.get k qs) as [st0|] eqn:G; simpl; [|discriminate].
  intros [= <-]. rewrite queue_promote_state. now apply (H k).
Qed.

Lemma keysmatch_release qs s :
  KeysMatch qs -> KeysMatch (release_state_ok qs s).
Proof.
  intros H k st e. destruct (release_key s) as [k0|] eqn:Hk.
  - rewrite (get_release_ok _ _ _ _ Hk).
    destruct (String.eqb k0 k); [|apply H].
    destruct (JsObject.get k qs) as [st0|] eqn:G; simpl; [|discriminate].
    destruct (queue st0) as [|head [|next rest]] eqn:Eq.
    + intros [= <-]. now apply (H k).
    + discriminate.
    + intros [= <-]. unfold advance_state. rewrite Eq. simpl. intros Hin.
      apply (H k st0 e G). rewrite Eq. now right.
  - destruct (release_ok_skip qs s Hk) as [-> _]. apply H.
Qed.

(** ** Releases commute *)

Section Commute.
Variable V : Type.
Implicit Types o : JsObject.t V.

Lemma update_update_comm k1 k2 f g o :
  k1 <> k2 ->
  JsObject.update k1 f (JsObject.update k2 g o) =
  JsObject.update k2 g (JsObject.update k1 f o).
Proof.
  intros Hne. induction o as [|[k v] o IH]; simpl; [reflexivity|].
  destruct (String.eqb k k2) eqn:E2, (String.eqb k k1) eqn:E1; simpl;
    rewrite ?E1, ?E2, IH; try reflexivity.
  apply String.eqb_eq in E1, E2. congruence.
Qed.

Lemma update_delete_comm k1 k2 f o :
  JsObject.update k1 f (JsObject.delete k2 o) =
  JsObject.delete k2 (JsObject.update k1 f o).
Proof.
  induction o as [|[k v] o IH]; simpl; [reflexivity|].
  destruct (String.eqb k k2) eqn:E2, (String.eqb k k1) eqn:E1; simpl;
    rewrite ?E1, ?E2, ?IH; simpl; reflexivity.
Qed.

Lemma delete_delete_comm k1 k2 o :
  JsObject.delete k1 (JsObject.delete k2 o) =
  JsObject.delete k2 (JsObject.delete k1 o).
Proof.
  induction o as [|[k v] o IH]; simpl; [reflexivity|].
  destruct (String.eqb k k2) eqn:E2, (String.eqb k k1) eqn:E1; simpl;
    rewrite ?E1, ?E2, ?IH; reflexivity.
Qed.

End Commute.

(** What [state.queue.shift(); state.locked = false; state.locked = true]
    makes of a state. *)
Lemma release_ok_at qs output s k :
  release_key s = Some k ->
  release_ok (qs, output) s =
  match JsObject.get k qs with
  | None => (qs, output)
  | Some st =>
      match queue st with
      | [] => (qs, output)
      | [_] => (JsObject.delete k qs, output)
      | _ :: next :: _ =>
          (JsObject.update k
             (fun st => set_locked true (set_locked false (shift st))) qs,
           output ++ [spread (data next)])
      end
  end.
Proof.
  unfold release_key, release_ok.
  destruct (signalKey s) as [k1|]; [|discriminate].
  destruct (String.eqb k1 ""); [discriminate|]. intros [= ->].
  destruct (JsObject.get k qs) as [st|]; [|reflexivity].
  destruct (queue st) as [|head [|next rest]] eqn:Eq; simpl; rewrite ?Eq;
    reflexivity.
Qed.

Lemma release_ok_same_key acc s s' :
  release_key s = release_key s' -> release_ok acc s = release_ok acc s'.
Proof.
  destruct acc as [qs output]. intros H.
  destruct (release_key s) as [k|] eqn:Hk.
  - now rewrite (release_ok_at _ _ _ _ Hk),
      (release_ok_at qs output s' k (eq_sym H)).
  - destruct (release_ok_skip qs s Hk) as [Hs He].
    destruct (release_ok_skip qs s' (eq_sym H)) as [Hs' He'].
    rewrite !release_ok_events, Hs, He, Hs', He'. reflexivity.
Qed.

Lemma release_ok_other_key qs s1 s2 k1 k2 :
  release_key s1 = Some k1 -> release_key s2 = Some k2 -> k1 <> k2 ->
  release_state_ok (release_state_ok qs s1) s2 =
  release_state_ok (release_state_ok qs s2) s1
  /\ snd (release_ok (release_state_ok qs s1, []) s2) =
     snd (release_ok (qs, []) s2).
Proof.
  intros H1 H2 Hne.
  assert (G2 : JsObject.get k2 (release_state_ok qs s1) = JsObject.get k2 qs).
  { rewrite (get_release_ok _ _ _ _ H1).
    destruct (String.eqb k1 k2) eqn:E; [|reflexivity].
    apply String.eqb_eq in E. contradiction. }
  assert (G1 : JsObject.get k1 (release_state_ok qs s2) = JsObject.get k1 qs).
  { rewrite (get_release_ok _ _ _ _ H2).
    destruct (String.eqb k2 k1) eqn:E; [|reflexivity].
    apply String.eqb_eq in E. congruence. }
  split.
  - unfold release_state_ok at 1 3.
    rewrite (release_ok_at _ _ _ _ H2), (release_ok_at _ _ _ _ H1).
    rewrite G1, G2. unfold release_state_ok.
    rewrite (release_ok_at _ _ _ _ H2), (release_ok_at _ _ _ _ H1).
    destruct (JsObject.get k1 qs) as [st1|];
      destruct (JsObject.get k2 qs) as [st2|];
      try destruct (queue st1) as [|h1 [|n1 r1]];
      try destruct (queue st2) as [|h2 [|n2 r2]];
      simpl; try reflexivity;
      first [ apply delete_delete_comm
            | apply update_delete_comm
            | symmetry; apply update_delete_comm
            | apply update_update_comm; congruence ].
  - rewrite !(release_ok_at _ _ _ _ H2), G2.
    destruct (JsObject.get k2 qs) as [st2|]; [|reflexivity].
    destruct (queue st2) as [|h2 [|n2 r2]]; reflexivity.
Qed.

Lemma release_ok_swap qs x y :
  release_state_ok (release_state_ok qs x) y =
  release_state_ok (release_state_ok qs y) x
  /\ Permutation
       (snd (release_ok (qs, []) x)
        ++ snd (release_ok (release_state_ok qs x, []) y))
       (snd (release_ok (qs, []) y)
        ++ snd (release_ok (release_state_ok qs y, []) x)).
Proof.
  destruct (release_key x) as [k1|] eqn:Hx.
  2:{ destruct (release_ok_skip qs x Hx) as [Hs He].
      destruct (release_ok_skip (release_state_ok qs y) x Hx)
        as [Hs' He'].
      rewrite Hs, Hs'. split; [reflexivity|].
      rewrite !release_ok_events, He, He'. simpl.
      now rewrite app_nil_r. }
  destruct (release_key y) as [k2|] eqn:Hy.
  2:{ destruct (release_ok_skip qs y Hy) as [Hs He].
      destruct (release_ok_skip (release_state_ok qs x) y Hy)
        as [Hs' He'].
      rewrite Hs, Hs'. split; [reflexivity|].
      rewrite !release_ok_events, He, He'. simpl.
      now rewrite app_nil_r. }
  destruct (String.eqb k1 k2) eqn:E.
  - apply String.eqb_eq in E. subst k2.
    assert (Hsame : forall acc, release_ok acc x = release_ok acc y)
      by (intros; apply release_ok_same_key; congruence).
    unfold release_state_ok. rewrite !Hsame. split; reflexivity.
  - assert (Hne : k1 <> k2)
      by (intros ->; now rewrite String.eqb_refl in E).
    destruct (release_ok_other_key qs x y k1 k2 Hx Hy Hne) as [Hst Ho].
    destruct (release_ok_other_key qs y x k2 k1 Hy Hx (not_eq_sym Hne))
      as [_ Ho'].
    split; [exact Hst|]. rewrite Ho, Ho'. apply Permutation_app_comm.
Qed.

Lemma release_batch_permutation signals signals' :
  Permutation signals signals' ->
  forall qs,
    fold_left release_state_ok signals qs =
    fold_left release_state_ok signals' qs
    /\ Permutation (released_ok qs signals) (released_ok qs signals').
Proof.
  induction 1 as [|s l l' Hperm IH|x y l|l l' l'' H1 IH1 H2 IH2]; intros qs.
  - split; [reflexivity | constructor].
  - cbn [fold_left released_ok]. rewrite release_ok_state.
    destruct (IH (release_state_ok qs s)) as [Hst Ho].
    split; [exact Hst | now apply Permutation_app_head].
  - cbn [fold_left released_ok]. rewrite !release_ok_state.
    destruct (release_ok_swap qs y x) as [Hst Ho].
    rewrite Hst. split; [reflexivity|].
    rewrite !app_assoc. now apply Permutation_app_tail.
  - destruct (IH1 qs) as [Hs1 Ho1], (IH2 qs) as [Hs2 Ho2].
    split; [congruence | now transitivity (released_ok qs l')].
Qed.

(** ** The steps under other clock readings *)

Lemma new_entry_retime f a :
  new_entry (retime_arrival f a) = retime_entry f (new_entry a).
Proof. reflexivity. Qed.

Lemma retime_idle f : retime_state f idle = idle.
Proof. reflexivity. Qed.

Lemma push_retime f e st :
  push (retime_entry f e) (retime_state f st) = retime_state f (push e st).
Proof. unfold push, retime_state. simpl. now rewrite map_app. Qed.

Lemma set_locked_retime f b st :
  set_locked b (retime_state f st) = retime_state f (set_locked b st).
Proof. reflexivity. Qed.

Lemma shift_retime f st : shift (retime_state f st) = retime_state f (shift st).
Proof. unfold shift, retime_state. simpl. now destruct (queue st). Qed.

Lemma fold_left_retime St In (step : St * Output -> In -> St * Output)
  (g : St -> St) :
  (forall acc i, step (retime_acc g acc) i = retime_acc g (step acc i)) ->
  forall l acc,
    fold_left step l (retime_acc g acc) = retime_acc g (fold_left step l acc).
Proof.
  intros H. induction l as [|i l IH]; intros acc; cbn [fold_left];
    [reflexivity|].
  now rewrite H, IH.
Qed.

Lemma fold_enqueue_single_retime f arrivals : forall st,
  fold_left enqueue_single (map (retime_arrival f) arrivals) (retime_state f st)
  = retime_state f (fold_left enqueue_single arrivals st).
Proof.
  induction arrivals as [|a l IH]; intros st; cbn [map fold_left];
    [reflexivity|].
  unfold enqueue_single at 2. rewrite new_entry_retime, push_retime. apply IH.
Qed.

Lemma promote_single_retime f st output :
  promote_single (retime_state f st) output
  = retime_acc (retime_state f) (promote_single st output).
Proof.
  unfold promote_single, retime_acc. simpl.
  destruct (locked st); [reflexivity|].
  destruct (queue st); reflexivity.
Qed.

Lemma release_single_retime f acc s :
  release_single (retime_acc (retime_state f) acc) s
  = retime_acc (retime_state f) (release_single acc s).
Proof.
  destruct acc as [st output]. unfold release_single, retime_acc. simpl.
  destruct (signalKey s) as [k|]; [|reflexivity].
  destruct (String.eqb k ""); [reflexivity|].
  destruct (queue st) as [|head [|next rest]] eqn:Eq; simpl; [reflexivity| |];
    (destruct (String.eqb (key head) k); [|reflexivity]);
    unfold set_locked, shift, retime_state; simpl; rewrite ?Eq; reflexivity.
Qed.

Section RetimeObject.
Variable f : Z -> Z.

Lemma get_retime k qs :
  JsObject.get k (retime_queues f qs)
  = option_map (retime_state f) (JsObject.get k qs).
Proof.
  induction qs as [|[k' st] qs IH]; simpl; [reflexivity|].
  now destruct (String.eqb k' k).
Qed.

Lemma keys_retime qs : JsObject.keys (retime_queues f qs) = JsObject.keys qs.
Proof.
  unfold JsObject.keys, retime_queues. rewrite map_map. reflexivity.
Qed.

Lemma update_retime k g' g qs :
  (forall st, g' (retime_state f st) = retime_state f (g st)) ->
  JsObject.update k g' (retime_queues f qs)
  = retime_queues f (JsObject.update k g qs).
Proof.
  intros Hg. induction qs as [|[k' st] qs IH]; simpl; [reflexivity|].
  destruct (String.eqb k' k); simpl; now rewrite IH, ?Hg.
Qed.

Lemma delete_retime k qs :
  JsObject.delete k (retime_queues f qs)
  = retime_queues f (JsObject.delete k qs).
Proof.
  induction qs as [|[k' st] qs IH]; simpl; [reflexivity|].
  destruct (String.eqb k' k); simpl; now rewrite IH.
Qed.

Lemma insert_index_retime n k st qs :
  JsObject.insert_index n k (retime_state f st) (retime_queues f qs)
  = retime_queues f (JsObject.insert_index n k st qs).
Proof.
  induction qs as [|[k' st'] qs IH]; simpl; [reflexivity|].
  destruct (JsObject.array_index k'); [|reflexivity].
  destruct (n0 <? n)%N; simpl; [now rewrite IH | reflexivity].
Qed.

Lemma create_retime k st qs :
  JsObject.create k (retime_state f st) (retime_queues f qs)
  = retime_queues f (JsObject.create k st qs).
Proof.
  unfold JsObject.create. destruct (JsObject.array_index k).
  - apply insert_index_retime.
  - unfold retime_queues. now rewrite map_app.
Qed.

Lemma enqueue_ok_retime qs a :
  enqueue_ok (retime_queues f qs) (retime_arrival f a)
  = retime_queues f (enqueue_ok qs a).
Proof.
  unfold enqueue_ok. cbn [key_param retime_arrival].
  rewrite get_retime, new_entry_retime.
  destruct (JsObject.get (key_param a) qs); simpl.
  - apply update_retime. intros st. apply push_retime.
  - rewrite <- (update_retime _ (push (retime_entry f (new_entry a)))
                  (push (new_entry a))) by (intros; apply push_retime).
    rewrite <- create_retime. reflexivity.
Qed.

Lemma fold_enqueue_ok_retime arrivals : forall qs,
  fold_left enqueue_ok (map (retime_arrival f) arrivals) (retime_queues f qs)
  = retime_queues f (fold_left enqueue_ok arrivals qs).
Proof.
  induction arrivals as [|a l IH]; intros qs; cbn [map fold_left];
    [reflexivity|].
  rewrite enqueue_ok_retime. apply IH.
Qed.

Lemma promote_key_retime acc k :
  promote_key (retime_acc (retime_queues f) acc) k
  = retime_acc (retime_queues f) (promote_key acc k).
Proof.
  destruct acc as [qs output]. unfold promote_key, retime_acc.
  cbn [fst snd]. rewrite get_retime.
  destruct (JsObject.get k qs) as [st|]; simpl; [|reflexivity].
  destruct (locked st); [reflexivity|].
  destruct (queue st); simpl; [reflexivity|].
  now rewrite (update_retime _ (set_locked true) (set_locked true))
    by reflexivity.
Qed.

Lemma release_ok_retime acc s :
  release_ok (retime_acc (retime_queues f) acc) s
  = retime_acc (retime_queues f) (release_ok acc s).
Proof.
  destruct acc as [qs output]. unfold release_ok, retime_acc.
  cbn [fst snd].
  destruct (signalKey s) as [k|]; [|reflexivity].
  destruct (String.eqb k ""); [reflexivity|].
  rewrite get_retime.
  destruct (JsObject.get k qs) as [st|]; simpl; [|reflexivity].
  destruct (queue st) as [|head [|next rest]]; simpl.
  - reflexivity.
  - now rewrite delete_retime.
  - rewrite (update_retime _ _
               (fun st => set_locked true (set_locked false (shift st))));
      [reflexivity|].
    intros st0. now rewrite shift_retime.
Qed.

End RetimeObject.

(** ** Promotion emits the head of an unlocked queue *)

Lemma promote_keys_output ks qs output :
  snd (fold_left promote_key ks (qs, output)) =
  output ++ outputs_of (trace promote_state_key promote_events_key qs ks).
Proof.
  now rewrite (fold_left_trace _ _ promote_state_key promote_events_key
                 promote_key promote_key_events).
Qed.

Lemma promote_keys_emit ks : forall qs output k st front rest,
  In k ks ->
  JsObject.get k qs = Some st ->
  locked st = false ->
  queue st = front :: rest ->
  In (spread (data front)) (snd (fold_left promote_key ks (qs, output))).
Proof.
  induction ks as [|k0 ks IH]; intros qs output k st front rest Hin G El Eq;
    [destruct Hin|].
  cbn [fold_left]. rewrite promote_key_events.
  destruct (String.eqb k0 k) eqn:E.
  - apply String.eqb_eq in E. subst k0.
    rewrite promote_keys_output. apply in_app_iff. left.
    apply in_app_iff. right.
    unfold promote_events_key, promote_events. rewrite G, El, Eq. now left.
  - apply (IH _ _ k st front rest); auto.
    + destruct Hin as [->|Hin]; [|exact Hin].
      now rewrite String.eqb_refl in E.
    + now rewrite get_promote_key, E.
Qed.

(** ** One key: the steps of the two modes *)

Section OneKey.
Variable k : string.

Lemma create_in_empty (st : KeyQueueState) :
  JsObject.create k st [] = [(k, st)].
Proof. unfold JsObject.create. now destruct (JsObject.array_index k). Qed.

Lemma one_key_enqueue st qs a :
  key_param a = k ->
  one_key k st qs ->
  one_key k (enqueue_single st a) (enqueue_ok qs a).
Proof.
  intros Hk [Hkeys Hshape]. split.
  - intros e. simpl. rewrite in_app_iff. intros [H|[<-|[]]]; auto.
  - right. unfold enqueue_ok, enqueue_single. rewrite Hk.
    split; [|simpl; now destruct (queue st)].
    destruct Hshape as [[-> ->]|[-> _]]; simpl.
    + rewrite create_in_empty. simpl. now rewrite String.eqb_refl.
    + now rewrite String.eqb_refl; simpl; rewrite String.eqb_refl.
Qed.

Lemma one_key_fold_enqueue arrivals : forall st qs,
  (forall a, In a arrivals -> key_param a = k) ->
  one_key k st qs ->
  one_key k (fold_left enqueue_single arrivals st)
    (fold_left enqueue_ok arrivals qs).
Proof.
  induction arrivals as [|a l IH]; intros st qs Hall H; cbn [fold_left];
    [exact H|].
  apply IH; [intros; apply Hall; now right|].
  apply one_key_enqueue; [apply Hall; now left | exact H].
Qed.

Lemma one_key_promote st qs output :
  one_key k st qs ->
  one_key_acc k (promote_single st output) (promote_multi qs output).
Proof.
  intros [Hkeys Hshape]. unfold one_key_acc, promote_multi, promote_single.
  destruct Hshape as [[-> ->]|[-> Hne]]; simpl.
  - split; [reflexivity|]. split; [intros e []|]. now left.
  - rewrite String.eqb_refl.
    destruct (locked st) eqn:El; simpl.
    + split; [reflexivity|]. split; [exact Hkeys|]. now right.
    + destruct (queue st) as [|front rest] eqn:Eq; [now destruct Hne|].
      simpl. split; [reflexivity|].
      split; simpl; rewrite ?Eq; [exact Hkeys|].
      right. split; [reflexivity | discriminate].
Qed.

Lemma one_key_release a1 a2 s :
  one_key_acc k a1 a2 ->
  one_key_acc k (release_single a1 s) (release_ok a2 s).
Proof.
  destruct a1 as [st o1], a2 as [qs o2]. intros [Ho [Hkeys Hshape]].
  simpl in Ho, Hkeys, Hshape. subst o2.
  unfold one_key_acc, release_single, release_ok.
  destruct (signalKey s) as [k'|];
    [|split; [reflexivity | split; assumption]].
  destruct (String.eqb k' "");
    [split; [reflexivity | split; assumption]|].
  destruct Hshape as [[-> ->]|[-> Hne]]; simpl.
  - split; [reflexivity|]. split; [intros e []|]. now left.
  - destruct (queue st) as [|head rest] eqn:Eq; [now destruct Hne|].
    assert (Hhead : key head = k) by (apply Hkeys; now left).
    rewrite Hhead.
    destruct (String.eqb k k') eqn:E.
    + simpl. rewrite Eq. simpl.
      destruct rest as [|next rest]; simpl; rewrite ?E; simpl.
      * split; [reflexivity|]. split; [|left; split; [reflexivity|]].
        -- simpl. rewrite Eq. intros e [].
        -- unfold set_locked, shift, idle. simpl. now rewrite Eq.
      * split; [reflexivity|]. split; [|right; split; [reflexivity|]].
        -- simpl. rewrite Eq. simpl. intros e He. apply Hkeys. now right.
        -- simpl. rewrite Eq. simpl. discriminate.
    + simpl. split; [reflexivity|]. split; [|right; split; [reflexivity|]].
      * rewrite Eq. exact Hkeys.
      * now rewrite Eq.
Qed.

Lemma one_key_fold_release signals : forall a1 a2,
  one_key_acc k a1 a2 ->
  one_key_acc k (fold_left release_single signals a1)
    (fold_left release_ok signals a2).
Proof.
  induction signals as [|s l IH]; intros a1 a2 H; cbn [fold_left];
    [exact H|].
  apply IH, one_key_release, H.
Qed.

Lemma one_key_execute arrivals signals st qs :
  (forall a, In a arrivals -> key_param a = k) ->
  one_key k st qs ->
  one_key_acc k (execute_single arrivals signals st)
    (execute_multi_ok arrivals signals qs).
Proof.
  intros Hall H. unfold execute_single, execute_multi_ok.
  pose proof (one_key_promote _ _ [] (one_key_fold_enqueue arrivals st qs Hall H))
    as Hp.
  destruct (promote_multi (fold_left enqueue_ok arrivals qs) [])
    as [qs2 promoted].
  now apply one_key_fold_release.
Qed.

End OneKey.

(** * The invocation with its throws *)

(** ** A loop that a throw ends *)

Section Abortable.
Variable Item : Type.
Variable step_ok : Queues -> Item -> Queues.
Variable events_ok : Queues -> Item -> Log.
Variable throws : Queues -> Item -> bool.
Variable step : Running -> Item -> Running.
Variable events : Running -> Item -> Log.

Hypothesis step_normal : forall qs out i,
  step (running qs out) i =
  if throws qs i then (thrown qs)
  else (running (step_ok qs i) (out ++ outputs_of (events_ok qs i))).
Hypothesis events_normal : forall qs out i,
  events (running qs out) i = if throws qs i then [] else events_ok qs i.
Hypothesis step_throw : forall qs i, step (thrown qs) i = (thrown qs).
Hypothesis events_throw : forall qs i, events (thrown qs) i = [].

Lemma loop_after_throw l qs :
  fold_left step l (thrown qs) = (thrown qs)
  /\ trace step events (thrown qs) l = [].
Proof.
  induction l as [|i l [IH1 IH2]]; cbn [fold_left trace]; [now split|].
  now rewrite step_throw, events_throw, IH1, IH2.
Qed.

(** A loop that comes to its end ran every iteration. *)
Lemma loop_returned l : forall qs out,
  returned (snd (fold_left step l (running qs out))) = true ->
  fold_left step l (running qs out) =
  running (fold_left step_ok l qs)
    (out ++ outputs_of (trace step_ok events_ok qs l))
  /\ trace step events (running qs out) l = trace step_ok events_ok qs l.
Proof.
  induction l as [|i l IH]; intros qs out; cbn [fold_left trace].
  - intros _. simpl. now rewrite app_nil_r.
  - rewrite step_normal, events_normal. destruct (throws qs i).
    + destruct (loop_after_throw l qs) as [-> _]. discriminate.
    + intros H. destruct (IH _ _ H) as [E1 E2]. rewrite E1, E2.
      now rewrite outputs_of_app, app_assoc.
Qed.

Lemma loop_started l acc :
  returned (snd (fold_left step l acc)) = true -> returned (snd acc) = true.
Proof.
  destruct acc as [qs [out|]]; [reflexivity|].
  now destruct (loop_after_throw l qs) as [-> _].
Qed.

(** In any case the loop ran the iterations of an initial part of the
    list, all of it when it came to its end. *)
Lemma loop_cases l : forall qs out,
  exists n,
    n <= List.length l
    /\ fst (fold_left step l (running qs out))
       = fold_left step_ok (firstn n l) qs
    /\ trace step events (running qs out) l
       = trace step_ok events_ok qs (firstn n l)
    /\ (returned (snd (fold_left step l (running qs out))) = true ->
        n = List.length l).
Proof.
  induction l as [|i l IH]; intros qs out; cbn [fold_left trace].
  - exists 0. simpl. auto.
  - rewrite step_normal, events_normal. destruct (throws qs i).
    + exists 0. destruct (loop_after_throw l qs) as [-> ->]. simpl.
      repeat split; [lia | discriminate].
    + destruct (IH (step_ok qs i) (out ++ outputs_of (events_ok qs i)))
        as (n & Hn & Hst & Htr & Hret).
      exists (S n). simpl. rewrite Hst, Htr.
      repeat split; [lia|]. intros H. now rewrite Hret.
Qed.

Lemma loop_no_throw l : forall qs out,
  (forall i qs', List.In i l -> throws qs' i = false) ->
  fold_left step l (running qs out) =
  running (fold_left step_ok l qs)
    (out ++ outputs_of (trace step_ok events_ok qs l))
  /\ trace step events (running qs out) l = trace step_ok events_ok qs l.
Proof.
  induction l as [|i l IH]; intros qs out H; cbn [fold_left trace].
  - simpl. now rewrite app_nil_r.
  - rewrite step_normal, events_normal, (H i qs) by now left.
    destruct (IH (step_ok qs i) (out ++ outputs_of (events_ok qs i)))
      as [E1 E2]; [intros; apply H; now right|].
    rewrite E1, E2. now rewrite outputs_of_app, app_assoc.
Qed.

(** What every iteration keeps, the loop keeps, thrown or not. *)
Lemma loop_keeps (P : Queues -> Prop) :
  (forall qs i, P qs -> P (step_ok qs i)) ->
  forall l acc, P (fst acc) -> P (fst (fold_left step l acc)).
Proof.
  intros Hstep. induction l as [|i l IH]; intros [qs [out|]] HP;
    cbn [fold_left]; [exact HP | exact HP | |].
  - apply IH. rewrite step_normal. destruct (throws qs i); simpl; auto.
  - apply IH. now rewrite step_throw.
Qed.

(** The same with the history, for a property [I] that holds throughout
    and a property [H] that holds while nothing was thrown. *)
Lemma loop_invariant (I : Queues -> Log -> Prop) (H : Queues -> Prop) :
  (forall qs log i,
     I qs log -> H qs ->
     I (step_ok qs i) (log ++ events_ok qs i) /\ H (step_ok qs i)) ->
  forall l acc log,
    I (fst acc) log ->
    (returned (snd acc) = true -> H (fst acc)) ->
    I (fst (fold_left step l acc)) (log ++ trace step events acc l)
    /\ (returned (snd (fold_left step l acc)) = true ->
        H (fst (fold_left step l acc))).
Proof.
  intros Hstep. induction l as [|i l IH]; intros [qs [out|]] log HI HH;
    cbn [fold_left trace].
  - rewrite app_nil_r. auto.
  - rewrite app_nil_r. auto.
  - rewrite step_normal, events_normal, app_assoc.
    destruct (throws qs i).
    + apply IH; simpl; [now rewrite app_nil_r | discriminate].
    + destruct (Hstep qs log i HI (HH eq_refl)) as [HI' HH'].
      apply IH; simpl; auto.
  - rewrite step_throw, events_throw, app_assoc, app_nil_r.
    apply IH; simpl; [exact HI | discriminate].
Qed.

End Abortable.

(** ** The two loops of multi mode *)

Lemma read_own k (qs : Queues) st :
  JsObject.get k qs = Some st -> JsObject.read k qs = JsObject.Own st.
Proof. unfold JsObject.read. now intros ->. Qed.

Lemma read_inherited k (qs : Queues) :
  JsObject.read k qs = JsObject.Inherited ->
  JsObject.get k qs = None /\ JsObject.inherited k = true.
Proof.
  unfold JsObject.read. destruct (JsObject.get k qs); [discriminate|].
  destruct (JsObject.inherited k); [auto | discriminate].
Qed.

Lemma enqueue_multi_normal qs out a :
  enqueue_multi (running qs out) a =
  if enqueue_throws qs a then (thrown qs)
  else running (enqueue_ok qs a)
         (out ++ outputs_of (enqueue_events_ok qs a)).
Proof.
  unfold enqueue_multi, enqueue_throws, enqueue_ok, JsObject.read. simpl.
  rewrite app_nil_r.
  destruct (JsObject.get (key_param a) qs); [reflexivity|].
  now destruct (JsObject.inherited (key_param a)).
Qed.

Lemma enqueue_events_multi_normal qs (out : Output) a :
  enqueue_events_multi (running qs out) a =
  if enqueue_throws qs a then [] else enqueue_events_ok qs a.
Proof.
  unfold enqueue_events_multi, enqueue_throws, JsObject.read.
  destruct (JsObject.get (key_param a) qs); [reflexivity|].
  now destruct (JsObject.inherited (key_param a)).
Qed.

Lemma release_multi_lift qs out s :
  release_multi (running qs out) s =
  if release_throws qs s then (thrown qs)
  else running (fst (release_ok (qs, out) s)) (snd (release_ok (qs, out) s)).
Proof.
  unfold release_multi, release_throws, release_key, release_ok,
    JsObject.read.
  destruct (signalKey s) as [k|]; [|reflexivity].
  destruct (String.eqb k ""); [reflexivity|].
  destruct (JsObject.get k qs) as [st|].
  - destruct (queue st) as [|head [|next rest]] eqn:Eq; simpl; rewrite ?Eq;
      reflexivity.
  - now destruct (JsObject.inherited k).
Qed.

Lemma release_multi_normal qs out s :
  release_multi (running qs out) s =
  if release_throws qs s then (thrown qs)
  else running (release_state_ok qs s)
         (out ++ outputs_of (release_events_ok qs s)).
Proof. now rewrite release_multi_lift, release_ok_events. Qed.

Lemma release_events_multi_normal qs (out : Output) s :
  release_events_multi (running qs out) s =
  if release_throws qs s then [] else release_events_ok qs s.
Proof.
  unfold release_events_multi, release_throws, release_events_ok, release_key,
    JsObject.read.
  destruct (signalKey s) as [k|]; [|reflexivity].
  destruct (String.eqb k ""); [reflexivity|].
  destruct (JsObject.get k qs); [reflexivity|].
  now destruct (JsObject.inherited k).
Qed.

Ltac loop_hyps :=
  first [ apply enqueue_multi_normal | apply enqueue_events_multi_normal
        | apply release_multi_normal | apply release_events_multi_normal
        | reflexivity ].

Lemma enqueue_loop_after_throw arrivals qs :
  fold_left enqueue_multi arrivals (thrown qs) = thrown qs
  /\ trace enqueue_multi enqueue_events_multi (thrown qs) arrivals = [].
Proof. apply loop_after_throw; intros; reflexivity. Qed.

Lemma release_loop_after_throw signals qs :
  fold_left release_multi signals (thrown qs) = thrown qs
  /\ trace release_multi release_events_multi (thrown qs) signals = [].
Proof. apply loop_after_throw; intros; reflexivity. Qed.

Lemma enqueue_loop_returned arrivals qs out :
  returned (snd (fold_left enqueue_multi arrivals (running qs out))) = true ->
  fold_left enqueue_multi arrivals (running qs out)
  = running (fold_left enqueue_ok arrivals qs) out
  /\ trace enqueue_multi enqueue_events_multi (running qs out) arrivals
     = trace enqueue_ok enqueue_events_ok qs arrivals.
Proof.
  intros H.
  destruct (loop_returned _ enqueue_ok enqueue_events_ok enqueue_throws
              enqueue_multi enqueue_events_multi enqueue_multi_normal
              enqueue_events_multi_normal
              ltac:(reflexivity) ltac:(reflexivity) arrivals qs out H)
    as [E1 E2].
  rewrite E1, E2, outputs_of_enqueue_ok, app_nil_r. auto.
Qed.

Lemma release_loop_returned signals qs out :
  returned (snd (fold_left release_multi signals (running qs out))) = true ->
  fold_left release_multi signals (running qs out)
  = running (fold_left release_state_ok signals qs)
      (out ++ outputs_of
                (trace release_state_ok release_events_ok qs signals))
  /\ trace release_multi release_events_multi (running qs out) signals
     = trace release_state_ok release_events_ok qs signals.
Proof.
  apply (loop_returned _ release_state_ok release_events_ok release_throws
           release_multi release_events_multi release_multi_normal
           release_events_multi_normal
           ltac:(reflexivity) ltac:(reflexivity)).
Qed.

Lemma enqueue_loop_started arrivals acc :
  returned (snd (fold_left enqueue_multi arrivals acc)) = true ->
  returned (snd acc) = true.
Proof.
  apply (loop_started _ enqueue_multi enqueue_events_multi
           ltac:(reflexivity) ltac:(reflexivity)).
Qed.

Lemma release_loop_started signals acc :
  returned (snd (fold_left release_multi signals acc)) = true ->
  returned (snd acc) = true.
Proof.
  apply (loop_started _ release_multi release_events_multi
           ltac:(reflexivity) ltac:(reflexivity)).
Qed.

Lemma enqueue_loop_cases arrivals qs out :
  exists n,
    n <= List.length arrivals
    /\ fst (fold_left enqueue_multi arrivals (running qs out))
       = fold_left enqueue_ok (firstn n arrivals) qs
    /\ trace enqueue_multi enqueue_events_multi (running qs out) arrivals
       = trace enqueue_ok enqueue_events_ok qs (firstn n arrivals)
    /\ (returned (snd (fold_left enqueue_multi arrivals (running qs out)))
        = true -> n = List.length arrivals).
Proof.
  apply (loop_cases _ enqueue_ok enqueue_events_ok enqueue_throws
           enqueue_multi enqueue_events_multi enqueue_multi_normal
           enqueue_events_multi_normal
           ltac:(reflexivity) ltac:(reflexivity)).
Qed.

Lemma release_loop_cases signals qs out :
  exists n,
    n <= List.length signals
    /\ fst (fold_left release_multi signals (running qs out))
       = fold_left release_state_ok (firstn n signals) qs
    /\ trace release_multi release_events_multi (running qs out) signals
       = trace release_state_ok release_events_ok qs (firstn n signals)
    /\ (returned (snd (fold_left release_multi signals (running qs out)))
        = true -> n = List.length signals).
Proof.
  apply (loop_cases _ release_state_ok release_events_ok release_throws
           release_multi release_events_multi release_multi_normal
           release_events_multi_normal
           ltac:(reflexivity) ltac:(reflexivity)).
Qed.

Lemma enqueue_loop_no_throw arrivals qs out :
  (forall a qs', In a arrivals -> enqueue_throws qs' a = false) ->
  fold_left enqueue_multi arrivals (running qs out)
  = running (fold_left enqueue_ok arrivals qs) out
  /\ trace enqueue_multi enqueue_events_multi (running qs out) arrivals
     = trace enqueue_ok enqueue_events_ok qs arrivals.
Proof.
  intros H.
  destruct (loop_no_throw _ enqueue_ok enqueue_events_ok enqueue_throws
              enqueue_multi enqueue_events_multi enqueue_multi_normal
              enqueue_events_multi_normal arrivals qs out H) as [E1 E2].
  rewrite E1, E2, outputs_of_enqueue_ok, app_nil_r. auto.
Qed.

Lemma release_loop_no_throw signals qs out :
  (forall s qs', In s signals -> release_throws qs' s = false) ->
  fold_left release_multi signals (running qs out)
  = running (fold_left release_state_ok signals qs)
      (out ++ outputs_of
                (trace release_state_ok release_events_ok qs signals))
  /\ trace release_multi release_events_multi (running qs out) signals
     = trace release_state_ok release_events_ok qs signals.
Proof.
  apply (loop_no_throw _ release_state_ok release_events_ok release_throws
           release_multi release_events_multi release_multi_normal
           release_events_multi_normal).
Qed.

Lemma enqueue_loop_keeps (P : Queues -> Prop) :
  (forall qs a, P qs -> P (enqueue_ok qs a)) ->
  forall arrivals acc,
    P (fst acc) -> P (fst (fold_left enqueue_multi arrivals acc)).
Proof.
  apply (loop_keeps _ enqueue_ok enqueue_events_ok enqueue_throws
           enqueue_multi enqueue_multi_normal ltac:(reflexivity)).
Qed.

Lemma release_loop_keeps (P : Queues -> Prop) :
  (forall qs s, P qs -> P (release_state_ok qs s)) ->
  forall signals acc,
    P (fst acc) -> P (fst (fold_left release_multi signals acc)).
Proof.
  apply (loop_keeps _ release_state_ok release_events_ok release_throws
           release_multi release_multi_normal ltac:(reflexivity)).
Qed.

(** ** Promotion between the loops *)

Lemma promote_phase_state acc :
  fst (promote_phase acc) =
  if returned (snd acc)
  then fold_left promote_state_key (JsObject.keys (fst acc)) (fst acc)
  else fst acc.
Proof.
  destruct acc as [qs [out|]]; simpl; [|reflexivity].
  rewrite promote_multi_events. reflexivity.
Qed.

Lemma promote_phase_normal qs out :
  promote_phase (running qs out) =
  running (fold_left promote_state_key (JsObject.keys qs) qs)
    (out ++ outputs_of (promote_phase_events (running qs out))).
Proof. simpl. now rewrite promote_multi_events. Qed.

Lemma promote_phase_returned acc :
  returned (snd (promote_phase acc)) = returned (snd acc).
Proof.
  destruct acc as [qs [out|]]; simpl; [|reflexivity].
  now destruct (promote_multi qs out).
Qed.

Lemma promote_phase_keeps (P : Queues -> Prop) :
  (forall qs k, P qs -> P (promote_state_key qs k)) ->
  forall acc, P (fst acc) -> P (fst (promote_phase acc)).
Proof.
  intros H acc HP. rewrite promote_phase_state.
  destruct (returned (snd acc)); [|exact HP].
  now apply fold_left_keeps.
Qed.

(** ** One invocation in multi mode *)

Lemma fold_release_ok_trace signals qs out :
  fold_left release_ok signals (qs, out) =
  (fold_left release_state_ok signals qs,
   out ++ outputs_of (trace release_state_ok release_events_ok qs signals)).
Proof.
  apply (fold_left_trace _ _ release_state_ok release_events_ok release_ok
           release_ok_events).
Qed.

(** An invocation that returns ran every iteration of both loops. *)
Lemma execute_multi_returned arrivals signals qs :
  returned (snd (execute_multi arrivals signals qs)) = true ->
  execute_multi arrivals signals qs
  = running (fst (execute_multi_ok arrivals signals qs))
      (snd (execute_multi_ok arrivals signals qs))
  /\ log_multi arrivals signals qs = log_multi_ok arrivals signals qs.
Proof.
  unfold execute_multi, log_multi, execute_multi_ok, log_multi_ok.
  intros H.
  pose proof (release_loop_started _ _ H) as H1.
  rewrite promote_phase_returned in H1.
  destruct (enqueue_loop_returned arrivals qs [] H1) as [E1 E2].
  rewrite E1, E2 in *. rewrite promote_phase_normal in *.
  destruct (release_loop_returned _ _ _ H) as [E3 E4].
  rewrite E3, E4. rewrite promote_multi_events, fold_release_ok_trace.
  simpl. split; reflexivity.
Qed.

Lemma execute_multi_keeps (P : Queues -> Prop) :
  (forall qs a, P qs -> P (enqueue_ok qs a)) ->
  (forall qs k, P qs -> P (promote_state_key qs k)) ->
  (forall qs s, P qs -> P (release_state_ok qs s)) ->
  forall arrivals signals qs,
    P qs -> P (fst (execute_multi arrivals signals qs)).
Proof.
  intros He Hp Hr arrivals signals qs HP. unfold execute_multi.
  apply release_loop_keeps; [exact Hr|].
  apply promote_phase_keeps; [exact Hp|].
  apply enqueue_loop_keeps; [exact He | exact HP].
Qed.

Lemma promote_phase_inv acc log :
  MInv (fst acc) log ->
  MInv (fst (promote_phase acc)) (log ++ promote_phase_events acc)
  /\ (returned (snd (promote_phase acc)) = true ->
      MHeld (fst (promote_phase acc))).
Proof.
  destruct acc as [qs [out|]]; intros Hinv.
  - rewrite promote_phase_normal. cbn [fst snd promote_phase_events].
    destruct (minv_promote (JsObject.keys qs) qs log Hinv) as [Hi Hh].
    + intros k Hk. rewrite (view_absent _ _ Hk). apply held_idle.
    + auto.
  - simpl. rewrite app_nil_r. split; [exact Hinv | discriminate].
Qed.

Lemma execute_multi_inv arrivals signals qs log :
  MInv qs log ->
  MInv (fst (execute_multi arrivals signals qs))
       (log ++ log_multi arrivals signals qs)
  /\ (returned (snd (execute_multi arrivals signals qs)) = true ->
      MHeld (fst (execute_multi arrivals signals qs))).
Proof.
  intros Hinv. unfold execute_multi, log_multi. rewrite !app_assoc.
  assert (H1 : MInv (fst (fold_left enqueue_multi arrivals (running qs [])))
                 (log ++ trace enqueue_multi enqueue_events_multi
                           (running qs []) arrivals)).
  { apply (loop_invariant _ enqueue_ok enqueue_events_ok enqueue_throws
             enqueue_multi enqueue_events_multi enqueue_multi_normal
             enqueue_events_multi_normal ltac:(reflexivity) ltac:(reflexivity)
             MInv (fun _ => True)); simpl; auto.
    intros qs0 log0 a Hi _. split; [now apply minv_enqueue | exact I]. }
  destruct (promote_phase_inv _ _ H1) as [H2 H3].
  apply (loop_invariant _ release_state_ok release_events_ok release_throws
           release_multi release_events_multi release_multi_normal
           release_events_multi_normal ltac:(reflexivity) ltac:(reflexivity)
           MInv MHeld); auto.
  intros qs0 log0 s Hi Hh. now apply minv_release.
Qed.

(** ** What the history of one invocation holds *)

Lemma enqueue_events_multi_cases acc a :
  enqueue_events_multi acc a = []
  \/ enqueue_events_multi acc a = [Enqueued (Keyed (key_param a)) (new_entry a)].
Proof.
  destruct acc as [qs [out|]]; [|now left]. simpl.
  destruct (JsObject.read (key_param a) qs); auto.
Qed.

Lemma release_events_multi_cases acc s :
  release_events_multi acc s = []
  \/ exists k st, release_events_multi acc s = advance_events (Keyed k) st.
Proof.
  destruct acc as [qs [out|]]; [|now left]. simpl.
  destruct (signalKey s) as [k|]; [|now left].
  destruct (String.eqb k ""); [now left|].
  destruct (JsObject.read k qs) as [st| |]; eauto.
Qed.

Lemma promote_phase_events_spec acc ev :
  In ev (promote_phase_events acc) ->
  event_queue ev <> Global /\ is_enqueue ev = false.
Proof.
  destruct acc as [qs [out|]]; simpl; [|tauto].
  apply (trace_events _ _ _ _
           (fun e => event_queue e <> Global /\ is_enqueue e = false)).
  intros qs' k ev'. rewrite promote_events_key_view. intros Hin. split.
  - apply promote_events_queue in Hin. congruence.
  - now apply promote_events_no_enqueue in Hin.
Qed.

Lemma log_multi_keyed arrivals signals qs ev :
  In ev (log_multi arrivals signals qs) -> event_queue ev <> Global.
Proof.
  unfold log_multi. rewrite !in_app_iff. intros [H|[H|H]].
  - eapply (trace_events _ _ _ _ (fun e => event_queue e <> Global));
      [|exact H].
    intros acc a ev'.
    destruct (enqueue_events_multi_cases acc a) as [-> | ->];
      [intros [] | intros [<-|[]]; discriminate].
  - now apply promote_phase_events_spec in H.
  - eapply (trace_events _ _ _ _ (fun e => event_queue e <> Global));
      [|exact H].
    intros acc s ev'.
    destruct (release_events_multi_cases acc s) as [-> | (k & st & ->)];
      [intros []|].
    intros Hin. apply advance_events_queue in Hin. congruence.
Qed.

Lemma arrived_enqueue_trace q arrivals : forall qs,
  arrived q (trace enqueue_ok enqueue_events_ok qs arrivals) =
  match q with
  | Global => []
  | Keyed k =>
      map new_entry (filter (fun a => String.eqb k (key_param a)) arrivals)
  end.
Proof.
  induction arrivals as [|a l IH]; intros qs; simpl.
  - now destruct q.
  - rewrite IH. destruct q as [|k]; simpl; [reflexivity|].
    now destruct (String.eqb k (key_param a)).
Qed.

Lemma arrived_log_multi q arrivals signals qs :
  exists n,
    n <= List.length arrivals
    /\ arrived q (log_multi arrivals signals qs)
       = match q with
         | Global => []
         | Keyed k =>
             map new_entry
               (filter (fun a => String.eqb k (key_param a))
                  (firstn n arrivals))
         end
    /\ (returned (snd (execute_multi arrivals signals qs)) = true ->
        n = List.length arrivals).
Proof.
  destruct (enqueue_loop_cases arrivals qs []) as (n & Hn & _ & Htr & Hret).
  exists n. split; [exact Hn|]. split.
  - unfold log_multi. split_log. rewrite Htr, arrived_enqueue_trace.
    rewrite (arrived_no_enqueue q (promote_phase_events _))
      by (intros ev Hev; now apply promote_phase_events_spec in Hev).
    rewrite (arrived_no_enqueue q (trace release_multi _ _ _)).
    + now rewrite !app_nil_r.
    + apply (trace_events _ _ _ _ (fun e => is_enqueue e = false)).
      intros acc s ev.
      destruct (release_events_multi_cases acc s) as [-> | (k & st & ->)];
        [intros [] | apply advance_events_no_enqueue].
  - intros H. apply Hret. unfold execute_multi in H.
    apply release_loop_started in H.
    now rewrite promote_phase_returned in H.
Qed.

(** ** Order-preserving sublists *)

Lemma subseq_nil_l {A} (l : list A) : Subseq [] l.
Proof. induction l; [apply subseq_nil | now apply subseq_skip]. Qed.

Lemma subseq_refl {A} (l : list A) : Subseq l l.
Proof. induction l; [apply subseq_nil | now apply subseq_take]. Qed.

Lemma subseq_app {A} (l1 l2 l3 l4 : list A) :
  Subseq l1 l2 -> Subseq l3 l4 -> Subseq (l1 ++ l3) (l2 ++ l4).
Proof.
  intros H1 H2. induction H1; simpl.
  - exact H2.
  - now apply subseq_skip.
  - now apply subseq_take.
Qed.

Lemma subseq_trans {A} (l2 l3 : list A) :
  Subseq l2 l3 -> forall l1, Subseq l1 l2 -> Subseq l1 l3.
Proof.
  induction 1 as [|x l2 l3 H IH|x l2 l3 H IH]; intros l1 H1.
  - exact H1.
  - apply subseq_skip. now apply IH.
  - inversion H1; subst.
    + apply subseq_skip. now apply IH.
    + apply subseq_take. now apply IH.
Qed.

Lemma subseq_firstn {A} n (l : list A) : Subseq (firstn n l) l.
Proof.
  revert n. induction l as [|x l IH]; intros [|n]; simpl.
  - apply subseq_nil.
  - apply subseq_nil.
  - apply subseq_nil_l.
  - apply subseq_take, IH.
Qed.

Lemma subseq_prefix {A} (l1 l2 : list A) : prefix l1 l2 -> Subseq l1 l2.
Proof.
  intros [rest ->]. rewrite <- (app_nil_r l1) at 1.
  apply subseq_app; [apply subseq_refl | apply subseq_nil_l].
Qed.

Lemma subseq_flat_map {A B} (f : A -> list B) (l1 l2 : list A) :
  Subseq l1 l2 -> Subseq (flat_map f l1) (flat_map f l2).
Proof.
  induction 1; simpl.
  - apply subseq_nil.
  - rewrite <- (app_nil_l (flat_map f l1)).
    apply subseq_app; [apply subseq_nil_l | assumption].
  - apply subseq_app; [apply subseq_refl | assumption].
Qed.

Lemma subseq_filter {A} (p : A -> bool) (l1 l2 : list A) :
  Subseq l1 l2 -> Subseq (filter p l1) (filter p l2).
Proof.
  induction 1; simpl.
  - apply subseq_nil.
  - destruct (p x); [now apply subseq_skip | assumption].
  - destruct (p x); [now apply subseq_take | assumption].
Qed.

Lemma subseq_map {A B} (f : A -> B) (l1 l2 : list A) :
  Subseq l1 l2 -> Subseq (map f l1) (map f l2).
Proof.
  induction 1; simpl.
  - apply subseq_nil.
  - now apply subseq_skip.
  - now apply subseq_take.
Qed.

Lemma subseq_In {A} (l1 l2 : list A) x : Subseq l1 l2 -> In x l1 -> In x l2.
Proof. induction 1; simpl; intuition. Qed.

(** ** Invocations and runs *)

Lemma init_single_execute arrivals signals sd :
  init_single (fst (execute modeSingle arrivals signals sd)) =
  fst (execute_single arrivals signals (init_single sd)).
Proof.
  simpl. destruct (execute_single arrivals signals (init_single sd)) as [st o].
  now destruct st.
Qed.

Lemma init_multi_execute arrivals signals sd :
  init_multi (fst (execute modeMulti arrivals signals sd)) =
  fst (execute_multi arrivals signals (init_multi sd)).
Proof.
  simpl. now destruct (execute_multi arrivals signals (init_multi sd)).
Qed.

Lemma execute_single_returns arrivals signals sd :
  snd (execute modeSingle arrivals signals sd) =
  Normal [snd (execute_single arrivals signals (init_single sd))].
Proof.
  simpl. now destruct (execute_single arrivals signals (init_single sd)).
Qed.

Lemma execute_multi_completion arrivals signals sd :
  snd (execute modeMulti arrivals signals sd) =
  match snd (execute_multi arrivals signals (init_multi sd)) with
  | Normal output => Normal [output]
  | Throw => Throw
  end.
Proof.
  simpl. now destruct (execute_multi arrivals signals (init_multi sd)).
Qed.

Lemma returned_execute_multi arrivals signals sd :
  returned (snd (execute modeMulti arrivals signals sd)) =
  returned (snd (execute_multi arrivals signals (init_multi sd))).
Proof.
  rewrite execute_multi_completion.
  now destruct (snd (execute_multi arrivals signals (init_multi sd))).
Qed.

(** What an invocation returns is what its history says was emitted. *)
Lemma execute_items mode arrivals signals sd :
  items (snd (execute mode arrivals signals sd)) =
  if returned (snd (execute mode arrivals signals sd))
  then [outputs_of (execute_log mode arrivals signals sd)]
  else [].
Proof.
  destruct mode.
  - rewrite execute_single_returns. simpl. now rewrite execute_single_log.
  - rewrite returned_execute_multi, execute_multi_completion. simpl.
    destruct (returned (snd (execute_multi arrivals signals (init_multi sd))))
      eqn:H.
    + destruct (execute_multi_returned _ _ _ H) as [E1 E2].
      rewrite E1, E2. simpl. now rewrite execute_multi_ok_log.
    + now destruct (snd (execute_multi arrivals signals (init_multi sd))).
Qed.

Lemma execute_inv mode arrivals signals sd log :
  RunInv mode sd log ->
  RunInv mode (fst (execute mode arrivals signals sd))
    (log ++ execute_log mode arrivals signals sd).
Proof.
  intros Hinv q. destruct mode, q as [|k]; unfold view.
  - rewrite init_single_execute. apply execute_single_inv, (Hinv Global).
  - apply qinv_foreign; [|apply (Hinv (Keyed k))].
    intros ev Hin. simpl in Hin. apply log_single_global in Hin. congruence.
  - apply qinv_foreign; [|apply (Hinv Global)].
    intros ev Hin. simpl in Hin. now apply log_multi_keyed in Hin.
  - rewrite init_multi_execute.
    assert (Hm : MInv (init_multi sd) log) by (intros k'; apply (Hinv (Keyed k'))).
    destruct (execute_multi_inv arrivals signals _ _ Hm) as [Hi _].
    apply Hi.
Qed.

Lemma run_cons mode inv invs sd :
  run mode (inv :: invs) sd =
  (fst (run mode invs
          (fst (execute mode (dataInput inv) (signalInput inv) sd))),
   snd (execute mode (dataInput inv) (signalInput inv) sd)
   :: snd (run mode invs
             (fst (execute mode (dataInput inv) (signalInput inv) sd)))).
Proof.
  cbn [run].
  destruct (execute mode (dataInput inv) (signalInput inv) sd) as [sd1 out].
  simpl. now destruct (run mode invs sd1).
Qed.

Lemma run_cons_state mode inv invs sd :
  fst (run mode (inv :: invs) sd) =
  fst (run mode invs
         (fst (execute mode (dataInput inv) (signalInput inv) sd))).
Proof. now rewrite run_cons. Qed.

Lemma run_inv mode invs : forall sd log,
  RunInv mode sd log ->
  RunInv mode (fst (run mode invs sd)) (log ++ run_log mode invs sd).
Proof.
  induction invs as [|inv invs IH]; intros sd log Hinv.
  - simpl. now rewrite app_nil_r.
  - rewrite run_cons_state. cbn [run_log]. rewrite app_assoc.
    apply IH, execute_inv, Hinv.
Qed.

Lemma run_inv_initial mode : RunInv mode no_static_data [].
Proof. intros q. destruct mode, q; split; simpl; auto; discriminate. Qed.

Lemma reachable_inv mode invs :
  RunInv mode (fst (run mode invs no_static_data))
    (run_log mode invs no_static_data).
Proof. apply (run_inv mode invs no_static_data []), run_inv_initial. Qed.

Lemma run_output mode invs : forall sd,
  returned_items (snd (run mode invs sd)) =
  outputs_of (delivered_log mode invs sd).
Proof.
  induction invs as [|inv invs IH]; intros sd; [reflexivity|].
  rewrite run_cons. cbn [snd returned_items flat_map delivered_log].
  rewrite outputs_of_app. fold (returned_items
    (snd (run mode invs
            (fst (execute mode (dataInput inv) (signalInput inv) sd))))).
  rewrite IH, execute_items.
  destruct (returned (snd (execute mode (dataInput inv) (signalInput inv) sd)));
    simpl; now rewrite ?app_nil_r.
Qed.

Lemma delivered_subseq mode invs : forall sd,
  Subseq (delivered_log mode invs sd) (run_log mode invs sd).
Proof.
  induction invs as [|inv invs IH]; intros sd; simpl; [apply subseq_nil|].
  apply subseq_app; [|apply IH].
  destruct (returned _); [apply subseq_refl | apply subseq_nil_l].
Qed.

Lemma all_returned_cons mode inv invs sd :
  all_returned mode (inv :: invs) sd ->
  returned (snd (execute mode (dataInput inv) (signalInput inv) sd)) = true
  /\ all_returned mode invs
       (fst (execute mode (dataInput inv) (signalInput inv) sd)).
Proof.
  unfold all_returned. rewrite run_cons. simpl. intros H. split.
  - apply H. now left.
  - intros c Hc. apply H. now right.
Qed.

Lemma delivered_all mode invs : forall sd,
  all_returned mode invs sd ->
  delivered_log mode invs sd = run_log mode invs sd.
Proof.
  induction invs as [|inv invs IH]; intros sd H; [reflexivity|].
  apply all_returned_cons in H. destruct H as [H1 H2].
  simpl. now rewrite H1, IH.
Qed.

Lemma single_all_returned invs : forall sd, all_returned modeSingle invs sd.
Proof.
  induction invs as [|inv invs IH]; intros sd c; [intros []|].
  rewrite run_cons. cbn [snd In]. intros [<-|H].
  - now rewrite execute_single_returns.
  - exact (IH _ c H).
Qed.

Lemma run_log_single_global invs : forall sd ev,
  In ev (run_log modeSingle invs sd) -> event_queue ev = Global.
Proof.
  induction invs as [|inv invs IH]; intros sd ev; simpl; [tauto|].
  rewrite in_app_iff. intros [H|H]; [|now apply IH in H].
  now apply log_single_global in H.
Qed.

(** The entries the history has as enqueued are arrivals of the run, in
    their order; all of them when every invocation returned. *)
Lemma arrived_execute_log mode q arrivals signals sd :
  exists n,
    n <= List.length arrivals
    /\ arrived q (execute_log mode arrivals signals sd)
       = match mode, q with
         | modeSingle, Global => map new_entry (firstn n arrivals)
         | modeMulti, Keyed k =>
             map new_entry
               (filter (fun a => String.eqb k (key_param a))
                  (firstn n arrivals))
         | _, _ => []
         end
    /\ (returned (snd (execute mode arrivals signals sd)) = true ->
        n = List.length arrivals).
Proof.
  destruct mode.
  - exists (List.length arrivals). rewrite firstn_all. simpl.
    rewrite arrived_log_single.
    split; [auto|]. split; [now destruct q | auto].
  - destruct (arrived_log_multi q arrivals signals (init_multi sd))
      as (n & Hn & Ha & Hret).
    exists n. rewrite returned_execute_multi. simpl. rewrite Ha.
    split; [auto|]. split; [now destruct q | auto].
Qed.

Lemma arrivals_of_cons mode q inv invs :
  arrivals_of mode q (inv :: invs) =
  arrivals_of mode q [inv] ++ arrivals_of mode q invs.
Proof.
  unfold arrivals_of, all_arrivals. simpl. rewrite app_nil_r.
  destruct mode, q; try reflexivity.
  - now rewrite map_app.
  - now rewrite filter_app, map_app.
Qed.

Lemma arrived_run_log mode q invs : forall sd,
  Subseq (arrived q (run_log mode invs sd)) (arrivals_of mode q invs)
  /\ (all_returned mode invs sd ->
      arrived q (run_log mode invs sd) = arrivals_of mode q invs).
Proof.
  induction invs as [|inv invs IH]; intros sd.
  - split; [destruct mode, q; apply subseq_nil|].
    intros _. now destruct mode, q.
  - cbn [run_log]. split_log. rewrite arrivals_of_cons.
    destruct (IH (fst (execute mode (dataInput inv) (signalInput inv) sd)))
      as [IH1 IH2].
    destruct (arrived_execute_log mode q (dataInput inv) (signalInput inv) sd)
      as (n & Hn & Ha & Hret).
    assert (Hfull : arrivals_of mode q [inv] =
                    match mode, q with
                    | modeSingle, Global => map new_entry (dataInput inv)
                    | modeMulti, Keyed k =>
                        map new_entry
                          (filter (fun a => String.eqb k (key_param a))
                             (dataInput inv))
                    | _, _ => []
                    end).
    { unfold arrivals_of, all_arrivals. simpl. now rewrite app_nil_r. }
    split.
    + apply subseq_app; [|exact IH1]. rewrite Ha, Hfull.
      destruct mode, q; try apply subseq_nil.
      * apply subseq_map, subseq_firstn.
      * apply subseq_map, subseq_filter, subseq_firstn.
    + intros Hall. apply all_returned_cons in Hall. destruct Hall as [H1 H2].
      rewrite (IH2 H2), Ha, Hfull, (Hret H1), firstn_all. reflexivity.
Qed.

(** * Properties of the specification *)

(** ** FIFO order *)

Lemma emitted_prefix_arrived mode invs q :
  prefix (emitted q (run_log mode invs no_static_data))
         (arrived q (run_log mode invs no_static_data)).
Proof.
  destruct (reachable_inv mode invs q) as [Ha He Hl].
  unfold prefix. rewrite Ha, He.
  destruct (locked _) eqn:El.
  - destruct (queue _) as [|head rest]; [now destruct Hl|].
    exists rest. simpl. now rewrite <- app_assoc.
  - rewrite app_nil_r. eexists. reflexivity.
Qed.

(** C1.  In every run, in either mode and for every queue, the entries
    whose payload the run returned are, in the order they were returned,
    entries that arrived in that queue, in the order they arrived: no
    payload is returned before that of an entry enqueued ahead of it.
    More precisely: the returned items are the payloads the returning
    invocations emitted; the lock goes to the entries of a queue in exactly
    their order of arrival, none skipped; the entries enqueued are arrivals
    of the run in their order.  When every invocation returns, the entries
    returned are an initial segment of the arrivals of the queue, and in
    single mode, which never throws, the returned items are the payloads of
    an initial segment of the arrivals. *)
Theorem fifo_order mode invs q :
  let log := run_log mode invs no_static_data in
  let delivered := delivered_log mode invs no_static_data in
  let output := returned_items (snd (run mode invs no_static_data)) in
  output = outputs_of delivered
  /\ Subseq (emitted q delivered) (arrivals_of mode q invs)
  /\ Subseq (emitted q delivered) (emitted q log)
  /\ prefix (emitted q log) (arrived q log)
  /\ Subseq (arrived q log) (arrivals_of mode q invs)
  /\ (all_returned mode invs no_static_data ->
      prefix (emitted q delivered) (arrivals_of mode q invs))
  /\ (mode = modeSingle ->
      prefix output (map (fun a => spread (item a)) (all_arrivals invs))).
Proof.
  cbv zeta.
  pose proof (subseq_flat_map
                (fun ev => match ev with
                           | Emitted q' e => if qid_eqb q q' then [e] else []
                           | _ => []
                           end) _ _
                (delivered_subseq mode invs no_static_data)) as Hd.
  fold (emitted q (delivered_log mode invs no_static_data)) in Hd.
  fold (emitted q (run_log mode invs no_static_data)) in Hd.
  pose proof (emitted_prefix_arrived mode invs q) as Hp.
  destruct (arrived_run_log mode q invs no_static_data) as [Ha Hfull].
  split; [apply run_output|].
  split.
  { apply (subseq_trans _ _ Ha), (subseq_trans _ _ (subseq_prefix _ _ Hp)), Hd. }
  split; [exact Hd|]. split; [exact Hp|]. split; [exact Ha|].
  split.
  - intros Hall. rewrite (delivered_all _ _ _ Hall), <- (Hfull Hall). exact Hp.
  - intros ->.
    pose proof (single_all_returned invs no_static_data) as Hall.
    pose proof (emitted_prefix_arrived modeSingle invs Global) as HpG.
    destruct (arrived_run_log modeSingle Global invs no_static_data)
      as [_ HfullG].
    rewrite run_output, (delivered_all _ _ _ Hall).
    rewrite (outputs_of_global _ (run_log_single_global invs _)).
    destruct HpG as [rest Hrest]. rewrite (HfullG Hall) in Hrest.
    exists (map (fun e => spread (data e)) rest).
    rewrite <- map_app, <- Hrest. simpl. now rewrite map_map.
Qed.

Lemma fifo_order_witness :
  let invs := [ {| dataInput := [arrival "a" "A" 1; arrival "b" "B" 2;
                                 arrival "a" "C" 3];
                   signalInput := [signal "a"] |} ] in
  all_returned modeMulti invs no_static_data
  /\ prefix (emitted (Keyed "a") (delivered_log modeMulti invs no_static_data))
       (arrivals_of modeMulti (Keyed "a") invs).
Proof.
  assert (Hall : all_returned modeMulti
                   [ {| dataInput := [arrival "a" "A" 1; arrival "b" "B" 2;
                                      arrival "a" "C" 3];
                        signalInput := [signal "a"] |} ] no_static_data).
  { intros c [<-|[]]. reflexivity. }
  split; [exact Hall|].
  exact (proj1 (proj2 (proj2 (proj2 (proj2 (proj2
           (fifo_order modeMulti
              [ {| dataInput := [arrival "a" "A" 1; arrival "b" "B" 2;
                                 arrival "a" "C" 3];
                   signalInput := [signal "a"] |} ]
              (Keyed "a"))))))) Hall).
Defined.

(** ** Release signals that do not match *)

(** C2.  In single mode, a release signal that has a key other than the key
    of the head entry changes neither the queue nor the locked flag and
    pushes nothing on the output. *)
Theorem mismatched_release_ignored st output s k head rest :
  signalKey s = Some k ->
  queue st = head :: rest ->
  key head <> k ->
  release_single (st, output) s = (st, output).
Proof.
  intros Hk Hq Hne. unfold release_single. rewrite Hk, Hq.
  destruct (String.eqb k ""); [reflexivity|].
  destruct (String.eqb (key head) k) eqn:E; [|reflexivity].
  apply String.eqb_eq in E. contradiction.
Qed.

Lemma mismatched_release_ignored_witness :
  let st := {| queue := [entry "k2" "B" 2]; locked := true |} in
  signalKey (signal "k1") = Some "k1"
  /\ queue st = [entry "k2" "B" 2]
  /\ key (entry "k2" "B" 2) <> "k1"
  /\ release_single (st, []) (signal "k1") = (st, []).
Proof.
  assert (Hne : key (entry "k2" "B" 2) <> "k1") by (simpl; discriminate).
  split; [reflexivity|]. split; [reflexivity|]. split; [exact Hne|].
  exact (mismatched_release_ignored
           {| queue := [entry "k2" "B" 2]; locked := true |} []
           (signal "k1") "k1" (entry "k2" "B" 2) [] eq_refl eq_refl Hne).
Defined.

Lemma release_single_matched st output s :
  unmatched_single st s = false ->
  exists head rest,
    queue st = head :: rest
    /\ release_single (st, output) s =
       ({| queue := rest;
           locked := match rest with [] => false | _ :: _ => true end |},
        output ++ match rest with
                  | next :: _ => [spread (data next)]
                  | [] => []
                  end).
Proof.
  unfold unmatched_single, release_key, release_single.
  destruct (signalKey s) as [k|]; [|discriminate].
  destruct (String.eqb k ""); [discriminate|].
  destruct (queue st) as [|head rest] eqn:Eq; [discriminate|].
  destruct (String.eqb (key head) k); [|discriminate]. intros _.
  exists head, rest. split; [reflexivity|].
  unfold set_locked, shift. simpl. rewrite Eq. simpl.
  destruct rest; [now rewrite app_nil_r | reflexivity].
Qed.

Lemma unmatched_multi_ok qs s :
  unmatched_multi qs s = true ->
  release_throws qs s = false
  /\ release_state_ok qs s = qs /\ release_events_ok qs s = [].
Proof.
  unfold unmatched_multi, release_throws. intros H.
  destruct (release_key s) as [k|] eqn:Hk.
  - unfold release_state_ok. rewrite (release_ok_at _ _ _ _ Hk).
    rewrite (release_events_ok_view _ _ _ Hk). unfold view_multi.
    unfold JsObject.read in *.
    destruct (JsObject.get k qs) as [st|]; simpl.
    + destruct (queue st) eqn:Eq; [|discriminate]. unfold advance_events.
      now rewrite Eq.
    + destruct (JsObject.inherited k); [discriminate | auto].
  - destruct (release_ok_skip qs s Hk) as [-> ->]. auto.
Qed.

Lemma release_multi_unmatched qs output s :
  unmatched_multi qs s = true ->
  release_multi (running qs output) s = running qs output.
Proof.
  intros H. destruct (unmatched_multi_ok qs s H) as (Ht & Hs & He).
  rewrite release_multi_normal, Ht, Hs, He. simpl. now rewrite app_nil_r.
Qed.

Lemma release_multi_matched qs output s :
  unmatched_multi qs s = false ->
  release_throws qs s = false ->
  exists k st head rest,
    release_key s = Some k
    /\ JsObject.get k qs = Some st
    /\ queue st = head :: rest
    /\ view_multi (fst (release_multi (running qs output) s)) k
       = {| queue := rest;
            locked := match rest with [] => false | _ :: _ => true end |}
    /\ snd (release_multi (running qs output) s)
       = Normal (output ++ match rest with
                           | next :: _ => [spread (data next)]
                           | [] => []
                           end).
Proof.
  intros Hu Ht. rewrite release_multi_normal, Ht.
  unfold unmatched_multi, JsObject.read in Hu.
  destruct (release_key s) as [k|] eqn:Hk; [|discriminate].
  destruct (JsObject.get k qs) as [st|] eqn:G.
  - destruct (queue st) as [|head rest] eqn:Eq; [discriminate|].
    exists k, st, head, rest. repeat split; auto.
    + cbn [fst]. rewrite (view_release_ok _ _ _ _ Hk), String.eqb_refl.
      unfold view_multi. rewrite G. simpl. unfold advance_state.
      now rewrite Eq.
    + cbn [snd]. rewrite (release_events_ok_view _ _ _ Hk).
      unfold view_multi. rewrite G. simpl. unfold advance_events.
      rewrite Eq. now destruct rest.
  - unfold release_throws, JsObject.read in Ht. rewrite Hk, G in Ht.
    destruct (JsObject.inherited k); discriminate.
Qed.

Lemma release_single_twice_same st output s k head next rest :
  release_key s = Some k ->
  queue st = head :: next :: rest ->
  key head = k -> key next = k ->
  release_single (release_single (st, output) s) s =
  ({| queue := rest;
      locked := match rest with [] => false | _ :: _ => true end |},
   output ++ [spread (data next)]
          ++ match rest with
             | after :: _ => [spread (data after)]
             | [] => []
             end).
Proof.
  intros Hk Hq Hh Hn.
  assert (Hm : unmatched_single st s = false).
  { unfold unmatched_single. now rewrite Hk, Hq, Hh, String.eqb_refl. }
  destruct (release_single_matched st output s Hm) as (h & r & Hq' & ->).
  rewrite Hq in Hq'. injection Hq' as <- <-. cbv beta iota.
  assert (Hm' : unmatched_single {| queue := next :: rest; locked := true |} s
                = false).
  { unfold unmatched_single. simpl. now rewrite Hk, Hn, String.eqb_refl. }
  destruct (release_single_matched _ (output ++ [spread (data next)]) s Hm')
    as (h & r & Hq' & E).
  simpl in Hq'. injection Hq' as <- <-. rewrite <- app_assoc in E. exact E.
Qed.

Lemma release_single_twice_other st output s k head rest :
  release_key s = Some k ->
  queue st = head :: rest ->
  key head = k ->
  match rest with next :: _ => key next <> k | [] => True end ->
  release_single (release_single (st, output) s) s
  = release_single (st, output) s.
Proof.
  intros Hk Hq Hh Hn.
  assert (Hm : unmatched_single st s = false).
  { unfold unmatched_single. now rewrite Hk, Hq, Hh, String.eqb_refl. }
  destruct (release_single_matched st output s Hm) as (h & r & Hq' & ->).
  rewrite Hq in Hq'. injection Hq' as <- <-.
  apply release_single_unmatched. unfold unmatched_single. rewrite Hk.
  simpl. destruct rest as [|next rest]; [reflexivity|].
  destruct (String.eqb (key next) k) eqn:E; [|reflexivity].
  apply String.eqb_eq in E. contradiction.
Qed.

Lemma release_multi_own qs output s k st :
  release_key s = Some k ->
  JsObject.get k qs = Some st ->
  release_multi (running qs output) s
  = running (release_state_ok qs s)
      (output ++ outputs_of (advance_events (Keyed k) st))
  /\ JsObject.get k (release_state_ok qs s) = advance_slot (Some st).
Proof.
  intros Hk G.
  assert (Ht : release_throws qs s = false).
  { unfold release_throws. now rewrite Hk, (read_own _ _ _ G). }
  rewrite release_multi_normal, Ht, (release_events_ok_view _ _ _ Hk).
  unfold view_multi at 1. rewrite G. split; [reflexivity|].
  now rewrite (get_release_ok _ _ _ _ Hk), String.eqb_refl, G.
Qed.

Lemma release_multi_twice qs output s k st head next rest :
  release_key s = Some k ->
  JsObject.get k qs = Some st ->
  queue st = head :: next :: rest ->
  view_multi (fst (release_multi (release_multi (running qs output) s) s)) k
  = {| queue := rest;
       locked := match rest with [] => false | _ :: _ => true end |}
  /\ snd (release_multi (release_multi (running qs output) s) s)
     = Normal (output ++ [spread (data next)]
                      ++ match rest with
                         | after :: _ => [spread (data after)]
                         | [] => []
                         end).
Proof.
  intros Hk G Hq.
  destruct (release_multi_own qs output s k st Hk G) as [-> G1].
  simpl in G1. rewrite Hq in G1.
  destruct (release_multi_own (release_state_ok qs s)
              (output ++ outputs_of (advance_events (Keyed k) st)) s k _
              Hk G1) as [-> _].
  cbn [fst snd]. rewrite (view_release_ok _ _ _ _ Hk), String.eqb_refl.
  unfold view_multi. rewrite G1. unfold advance_state, advance_events.
  rewrite Hq. simpl. split; [reflexivity|].
  rewrite <- app_assoc. now destruct rest.
Qed.

Lemma release_multi_twice_last qs output s k st head :
  release_key s = Some k ->
  JsObject.get k qs = Some st ->
  queue st = [head] ->
  JsObject.inherited k = false ->
  release_multi (release_multi (running qs output) s) s
  = release_multi (running qs output) s.
Proof.
  intros Hk G Hq Hi.
  destruct (release_multi_own qs output s k st Hk G) as [-> G1].
  simpl in G1. rewrite Hq in G1.
  apply release_multi_unmatched. unfold unmatched_multi, JsObject.read.
  now rewrite Hk, G1, Hi.
Qed.

(** C3, as the code has it.  A release signal that is unmatched when it is
    processed leaves the state as it is and pushes nothing on the output,
    in both modes.  Any other release signal, unless it throws, removes the
    head of its queue, locks the queue for the next entry if there is one
    and pushes that entry's payload.  So a signal processed a second time
    is a no-op only when it is unmatched by then.  In single mode the second
    signal removes the next head when that head has the same key, and
    changes nothing when the next head has another key or there is none.
    In multi mode the second signal removes the next head whenever the
    queue had one, and changes nothing when the first removal emptied the
    queue and the key names no inherited property. *)
Theorem unmatched_release_is_noop :
  (forall st output s,
     unmatched_single st s = true ->
     release_single (st, output) s = (st, output))
  /\ (forall st output s,
        unmatched_single st s = false ->
        exists head rest,
          queue st = head :: rest
          /\ release_single (st, output) s =
             ({| queue := rest;
                 locked := match rest with [] => false | _ :: _ => true end |},
              output ++ match rest with
                        | next :: _ => [spread (data next)]
                        | [] => []
                        end))
  /\ (forall qs output s,
        unmatched_multi qs s = true ->
        release_multi (running qs output) s = running qs output)
  /\ (forall qs output s,
        unmatched_multi qs s = false ->
        release_throws qs s = false ->
        exists k st head rest,
          release_key s = Some k
          /\ JsObject.get k qs = Some st
          /\ queue st = head :: rest
          /\ view_multi (fst (release_multi (running qs output) s)) k
             = {| queue := rest;
                  locked := match rest with [] => false | _ :: _ => true end |}
          /\ snd (release_multi (running qs output) s)
             = Normal (output ++ match rest with
                                 | next :: _ => [spread (data next)]
                                 | [] => []
                                 end))
  /\ (forall st output s k head next rest,
        release_key s = Some k ->
        queue st = head :: next :: rest ->
        key head = k -> key next = k ->
        release_single (release_single (st, output) s) s =
        ({| queue := rest;
            locked := match rest with [] => false | _ :: _ => true end |},
         output ++ [spread (data next)]
                ++ match rest with
                   | after :: _ => [spread (data after)]
                   | [] => []
                   end))
  /\ (forall st output s k head rest,
        release_key s = Some k ->
        queue st = head :: rest ->
        key head = k ->
        match rest with next :: _ => key next <> k | [] => True end ->
        release_single (release_single (st, output) s) s
        = release_single (st, output) s)
  /\ (forall qs output s k st head next rest,
        release_key s = Some k ->
        JsObject.get k qs = Some st ->
        queue st = head :: next :: rest ->
        view_multi
          (fst (release_multi (release_multi (running qs output) s) s)) k
        = {| queue := rest;
             locked := match rest with [] => false | _ :: _ => true end |}
        /\ snd (release_multi (release_multi (running qs output) s) s)
           = Normal (output ++ [spread (data next)]
                            ++ match rest with
                               | after :: _ => [spread (data after)]
                               | [] => []
                               end))
  /\ (forall qs output s k st head,
        release_key s = Some k ->
        JsObject.get k qs = Some st ->
        queue st = [head] ->
        JsObject.inherited k = false ->
        release_multi (release_multi (running qs output) s) s
        = release_multi (running qs output) s).
Proof.
  split; [exact release_single_unmatched|].
  split; [exact release_single_matched|].
  split; [exact release_multi_unmatched|].
  split; [exact release_multi_matched|].
  split; [exact release_single_twice_same|].
  split; [exact release_single_twice_other|].
  split; [exact release_multi_twice | exact release_multi_twice_last].
Qed.

Lemma unmatched_release_is_noop_witness :
  let st := {| queue := [entry "k1" "A" 1; entry "k2" "B" 2]; locked := true |} in
  unmatched_single st (signal "k2") = true
  /\ release_single (st, []) (signal "k2") = (st, []).
Proof.
  split; [reflexivity|].
  exact (proj1 unmatched_release_is_noop
           {| queue := [entry "k1" "A" 1; entry "k2" "B" 2]; locked := true |}
           [] (signal "k2") eq_refl).
Defined.

(** C3 as stated fails for a signal sent twice.  From no static data, three
    arrivals under key [a] and the release signal for [a] once: the output
    is A and B, and B and C stay queued.  With the same signal a second
    time, after the head has advanced to B, the second signal removes B and
    emits C.  The same happens in single mode when the entries share their
    key. *)
Lemma duplicate_release_advances :
  let arrivals := [arrival "a" "A" 1; arrival "a" "B" 2; arrival "a" "C" 3] in
  let once := execute modeMulti arrivals [signal "a"] no_static_data in
  let twice :=
    execute modeMulti arrivals [signal "a"; signal "a"] no_static_data in
  snd once = Normal [[payload "A"; payload "B"]]
  /\ snd twice = Normal [[payload "A"; payload "B"; payload "C"]]
  /\ option_map queue_lengths (sd_queues (fst once)) = Some [("a", 2)]
  /\ option_map queue_lengths (sd_queues (fst twice)) = Some [("a", 1)]
  /\ snd (execute modeSingle arrivals [signal "a"; signal "a"] no_static_data)
     = Normal [[payload "A"; payload "B"; payload "C"]]
  /\ (let qs := nullish (sd_queues (fst once)) [] in
      snd (release_multi (running qs []) (signal "a"))
        = Normal [payload "C"]
      /\ queue_lengths (fst (release_multi (running qs []) (signal "a")))
         <> queue_lengths qs).
Proof.
  vm_compute. repeat split; discriminate.
Qed.

(** ** At most one holder *)

(** C4.  In every run, in either mode and for every queue, the entries
    that were handed the lock are the entries a release removed followed by
    at most one more entry: at most one entry has the lock without a
    release having removed it.  The entries whose payload the run returned
    are among them, so at most one entry of a queue has been returned
    without a release having removed it. *)
Theorem at_most_one_holder mode invs q :
  let log := run_log mode invs no_static_data in
  let delivered := delivered_log mode invs no_static_data in
  exists holders,
    emitted q log = dequeued q log ++ holders
    /\ List.length holders <= 1
    /\ Subseq (emitted q delivered) (dequeued q log ++ holders).
Proof.
  destruct (reachable_inv mode invs q) as [Ha He Hl].
  cbv zeta. eexists. split; [exact He|]. split.
  - destruct (locked _); simpl; [|lia].
    destruct (queue _); simpl; lia.
  - rewrite <- He.
    apply (subseq_flat_map
             (fun ev => match ev with
                        | Emitted q' e => if qid_eqb q q' then [e] else []
                        | _ => []
                        end)).
    apply delivered_subseq.
Qed.

(** ** A locked queue has its holder at the head *)

(** In every run a locked queue is not empty, and its head is the one entry
    that was handed the lock and that no release has removed. *)
Lemma locked_head_has_lock mode invs q :
  let sd := fst (run mode invs no_static_data) in
  let log := run_log mode invs no_static_data in
  locked (view mode sd q) = true ->
  exists holder rest,
    queue (view mode sd q) = holder :: rest
    /\ emitted q log = dequeued q log ++ [holder].
Proof.
  intros sd log El.
  destruct (reachable_inv mode invs q) as [Ha He Hl].
  fold sd in He, Hl. fold log in He. rewrite El in He.
  destruct (queue (view mode sd q)) as [|holder rest] eqn:Eq.
  - now destruct Hl.
  - exists holder, rest. split; [reflexivity | exact He].
Qed.

(** C8 fails for the code.  In multi mode, from no static data, A, B and C
    arrive under key [a] together with the release signals for [a] and for
    [constructor].  The release for [a] removes A and hands the lock to B;
    the lookup of [constructor] then finds the inherited property of the
    mapping, and reading [state.queue.length] throws.  The invocation
    returns no batch, and the static data keeps the queue of [a] locked
    with B at its head.  The next release for [a] removes B and returns C:
    B was the head of a locked queue at the boundary of an invocation, and
    its payload is on no batch of the run.  The payload of A is lost in the
    same way. *)
Theorem locked_head_not_delivered :
  let first := {| dataInput := [arrival "a" "A" 1; arrival "a" "B" 2;
                                arrival "a" "C" 3];
                  signalInput := [signal "a"; signal "constructor"] |} in
  let second := {| dataInput := []; signalInput := [signal "a"] |} in
  run modeMulti [first] no_static_data
  = ({| sd_queue := None; sd_locked := None;
        sd_queues :=
          Some [("a", {| queue := [entry "a" "B" 2; entry "a" "C" 3];
                         locked := true |})] |},
     [Throw])
  /\ run modeMulti [first; second] no_static_data
     = ({| sd_queue := None; sd_locked := None;
           sd_queues :=
             Some [("a", {| queue := [entry "a" "C" 3]; locked := true |})] |},
        [Throw; Normal [[payload "C"]]])
  /\ returned_items (snd (run modeMulti [first; second] no_static_data))
     = [payload "C"]
  /\ emitted (Keyed "a") (run_log modeMulti [first] no_static_data)
     = [entry "a" "A" 1; entry "a" "B" 2]
  /\ emitted (Keyed "a") (delivered_log modeMulti [first] no_static_data)
     = [].
Proof. vm_compute. repeat split. Qed.

(** ** Multi mode: a release works on the queue of its key only *)

(** C6.  In multi mode, processing a release signal leaves the state of
    every key other than the signal's key as it was: the same queue and
    locked flag, and present in the mapping exactly when it was before.
    This holds as well when the lookup of the signal's key throws, and
    after a throw, when the signal is not processed at all. *)
Theorem release_other_keys_untouched acc s k' :
  signalKey s <> Some k' ->
  JsObject.get k' (fst (release_multi acc s)) = JsObject.get k' (fst acc).
Proof.
  intros Hne. destruct acc as [qs [output|]]; [|reflexivity].
  rewrite release_multi_normal.
  destruct (release_throws qs s); [reflexivity|]. cbn [fst].
  destruct (release_key s) as [k0|] eqn:Hk.
  - rewrite (get_release_ok _ _ _ _ Hk).
    destruct (String.eqb k0 k') eqn:E; [|reflexivity].
    apply String.eqb_eq in E. subst k0.
    apply release_key_signalKey in Hk. contradiction.
  - now destruct (release_ok_skip qs s Hk) as [-> _].
Qed.

Lemma release_other_keys_untouched_witness :
  let qs := [("a", {| queue := [entry "a" "X" 1]; locked := true |});
             ("b", {| queue := [entry "b" "Y" 2]; locked := true |})] in
  signalKey (signal "a") <> Some "b"
  /\ JsObject.get "b" (fst (release_multi (running qs []) (signal "a")))
     = JsObject.get "b" qs.
Proof.
  assert (Hne : signalKey (signal "a") <> Some "b") by (simpl; discriminate).
  split; [exact Hne|].
  exact (release_other_keys_untouched
           (running
              [("a", {| queue := [entry "a" "X" 1]; locked := true |});
               ("b", {| queue := [entry "b" "Y" 2]; locked := true |})]
              [])
           (signal "a") "b" Hne).
Defined.

(** ** Multi mode: no key is left with an empty queue *)

Lemma nonempty_execute_multi arrivals signals qs :
  NonEmpty qs -> NonEmpty (fst (execute_multi arrivals signals qs)).
Proof.
  apply (execute_multi_keeps NonEmpty).
  - intros; now apply nonempty_enqueue.
  - intros; now apply nonempty_promote_key.
  - intros; now apply nonempty_release.
Qed.

Lemma nonempty_run invs : forall sd,
  NonEmpty (init_multi sd) ->
  NonEmpty (init_multi (fst (run modeMulti invs sd))).
Proof.
  induction invs as [|inv invs IH]; intros sd H; [exact H|].
  rewrite run_cons_state. apply IH. rewrite init_multi_execute.
  now apply nonempty_execute_multi.
Qed.

(** C7.  In multi mode, a release that removes the last entry of a key's
    queue deletes the key in the same step; an invocation that starts with
    no empty queue in the mapping ends with none, whether it returns or
    throws; and so after every invocation of a run every key of the mapping
    has a non-empty queue. *)
Theorem emptied_key_is_deleted :
  (forall qs output s k st last,
     release_key s = Some k ->
     JsObject.get k qs = Some st ->
     queue st = [last] ->
     JsObject.get k (fst (release_multi (running qs output) s)) = None)
  /\ (forall arrivals signals qs,
        NonEmpty qs -> NonEmpty (fst (execute_multi arrivals signals qs)))
  /\ (forall invs k st,
        JsObject.get k (init_multi (fst (run modeMulti invs no_static_data)))
          = Some st ->
        queue st <> []).
Proof.
  split; [|split].
  - intros qs output s k st last Hk G Eq.
    assert (Ht : release_throws qs s = false).
    { unfold release_throws. now rewrite Hk, (read_own _ _ _ G). }
    rewrite release_multi_normal, Ht. cbn [fst].
    rewrite (get_release_ok _ _ _ _ Hk).
    rewrite String.eqb_refl, G. simpl. now rewrite Eq.
  - exact nonempty_execute_multi.
  - intros invs. apply (nonempty_run invs no_static_data).
    intros k st. simpl. discriminate.
Qed.

Lemma emptied_key_is_deleted_witness :
  let qs := [("a", {| queue := [entry "a" "X" 1]; locked := true |});
             ("b", {| queue := [entry "b" "Y" 2]; locked := true |})] in
  release_key (signal "a") = Some "a"
  /\ JsObject.get "a" qs
     = Some {| queue := [entry "a" "X" 1]; locked := true |}
  /\ JsObject.get "a" (fst (release_multi (running qs []) (signal "a")))
     = None.
Proof.
  split; [reflexivity|]. split; [reflexivity|].
  exact (proj1 emptied_key_is_deleted
           [("a", {| queue := [entry "a" "X" 1]; locked := true |});
            ("b", {| queue := [entry "b" "Y" 2]; locked := true |})]
           [] (signal "a") "a"
           {| queue := [entry "a" "X" 1]; locked := true |}
           (entry "a" "X" 1) eq_refl eq_refl eq_refl).
Defined.

(** ** The output batch of one invocation *)

(** An invocation that returns, returns one batch: what the arrival phase
    promoted, which is the whole batch of the same invocation without
    signals, and then what each release signal emitted, signal by signal in
    the order of the signal batch. *)
Lemma returned_batch_order mode arrivals signals sd :
  returned (snd (execute mode arrivals signals sd)) = true ->
  let after_arrivals := execute mode arrivals [] sd in
  exists promoted,
    snd after_arrivals = Normal [promoted]
    /\ snd (execute mode arrivals signals sd) =
       Normal
         [promoted ++
          match mode with
          | modeSingle =>
              released_single (init_single (fst after_arrivals)) signals
          | modeMulti =>
              released_ok (init_multi (fst after_arrivals)) signals
          end].
Proof.
  intros Hr. destruct mode.
  - pose proof (init_single_execute arrivals [] sd) as Hst. cbv zeta.
    rewrite Hst. simpl. unfold execute_single. simpl.
    destruct (promote_single (fold_left enqueue_single arrivals (init_single sd)) [])
      as [st1 promoted] eqn:Hp.
    exists promoted. split; [reflexivity|].
    pose proof (fold_release_single signals st1 promoted) as Hf.
    destruct (fold_left release_single signals (st1, promoted)) as [st2 out].
    simpl in *. now rewrite Hf.
  - rewrite returned_execute_multi in Hr.
    assert (Hr0 : returned (snd (execute_multi arrivals [] (init_multi sd)))
                  = true).
    { unfold execute_multi in *. cbn [fold_left].
      exact (release_loop_started _ _ Hr). }
    destruct (execute_multi_returned _ _ _ Hr) as [E _].
    destruct (execute_multi_returned _ _ _ Hr0) as [E0 _].
    pose proof (init_multi_execute arrivals [] sd) as Hst. cbv zeta.
    rewrite Hst, E0. cbn [fst].
    rewrite !execute_multi_completion, E, E0. cbn [snd].
    unfold execute_multi_ok. cbn [fold_left].
    destruct (promote_multi (fold_left enqueue_ok arrivals (init_multi sd)) [])
      as [qs1 promoted] eqn:Hp.
    exists promoted. split; [reflexivity|]. cbn [fst].
    now rewrite fold_release_ok.
Qed.

(** C9 fails for the code.  In multi mode, from no static data, A arrives
    under key [a] and B under key [b], together with the release signals
    for [a] and for [toString].  Promotion hands the lock to A and to B and
    pushes their payloads; the release for [a] removes A; the lookup of
    [toString] then finds the inherited property of the mapping, and
    reading [state.queue.length] throws.  The invocation returns no batch:
    the admissions it decided are on no output, while the static data has
    B locked and A gone.  An arrival whose key is such a name throws in the
    enqueue loop in the same way. *)
Theorem admissions_lost_on_throw :
  let arrivals := [arrival "a" "A" 1; arrival "b" "B" 2] in
  let signals := [signal "a"; signal "toString"] in
  execute modeMulti arrivals signals no_static_data
  = ({| sd_queue := None; sd_locked := None;
        sd_queues :=
          Some [("b", {| queue := [entry "b" "B" 2]; locked := true |})] |},
     Throw)
  /\ execute_log modeMulti arrivals signals no_static_data
     = [ Enqueued (Keyed "a") (entry "a" "A" 1);
         Enqueued (Keyed "b") (entry "b" "B" 2);
         Emitted (Keyed "a") (entry "a" "A" 1);
         Emitted (Keyed "b") (entry "b" "B" 2);
         Dequeued (Keyed "a") (entry "a" "A" 1) ]
  /\ items (snd (execute modeMulti arrivals signals no_static_data)) = []
  /\ execute modeMulti [arrival "a" "A" 1; arrival "toString" "T" 2] []
       no_static_data
     = ({| sd_queue := None; sd_locked := None;
           sd_queues :=
             Some [("a", {| queue := [entry "a" "A" 1]; locked := false |})] |},
        Throw).
Proof. vm_compute. repeat split. Qed.

(** ** The empty key *)

Lemma promote_phase_queue acc k :
  option_map queue (JsObject.get k (fst (promote_phase acc)))
  = option_map queue (JsObject.get k (fst acc)).
Proof.
  rewrite promote_phase_state. destruct (returned (snd acc)); [|reflexivity].
  apply get_fold_promote.
Qed.

Lemma get_empty_key_release_loop signals acc :
  JsObject.get "" (fst (fold_left release_multi signals acc))
  = JsObject.get "" (fst acc).
Proof.
  apply (release_loop_keeps
           (fun qs => JsObject.get "" qs = JsObject.get "" (fst acc)));
    [|reflexivity].
  intros qs s H. now rewrite get_empty_key_release.
Qed.

(** The queue under [k] after the enqueue loop: the arrivals under [k] that
    the loop reached are appended, and the loop reaches them all when it
    does not throw. *)
Lemma enqueue_loop_queue arrivals qs k :
  exists n,
    n <= List.length arrivals
    /\ view_multi (fst (fold_left enqueue_multi arrivals (running qs []))) k
       = {| queue := queue (view_multi qs k)
                     ++ map new_entry
                          (filter (fun a => String.eqb (key_param a) k)
                                  (firstn n arrivals));
            locked := locked (view_multi qs k) |}
    /\ (returned (snd (fold_left enqueue_multi arrivals (running qs [])))
        = true -> n = List.length arrivals).
Proof.
  destruct (enqueue_loop_cases arrivals qs []) as (n & Hn & E & _ & Hr).
  exists n. split; [exact Hn|]. split; [|exact Hr].
  rewrite E. apply view_fold_enqueue_ok.
Qed.

(** C10.  A release signal whose key is the empty string is skipped like
    one without a key, in both modes.  So in multi mode no batch of signals
    changes the state kept under the empty key; after an invocation its
    queue is the queue from before followed by the arrivals under the empty
    key that the enqueue loop reached, none removed, and these are all the
    arrivals under the empty key when the invocation returns.  Such an
    entry does get the lock: its payload is emitted, and a signal with the
    empty key leaves it at the head. *)
Theorem empty_key_never_released :
  (forall s, signalKey s = Some "" \/ signalKey s = None ->
     (forall acc, release_single acc s = acc)
     /\ (forall acc, release_multi acc s = acc))
  /\ (forall acc signals,
        JsObject.get "" (fst (fold_left release_multi signals acc))
        = JsObject.get "" (fst acc))
  /\ (forall arrivals signals qs,
        exists n,
          n <= List.length arrivals
          /\ queue (view_multi (fst (execute_multi arrivals signals qs)) "")
             = queue (view_multi qs "")
               ++ map new_entry
                    (filter (fun a => String.eqb (key_param a) "")
                            (firstn n arrivals))
          /\ (returned (snd (execute_multi arrivals signals qs)) = true ->
              n = List.length arrivals))
  /\ execute modeMulti [arrival "" "A" 1] [signal ""] no_static_data
     = ({| sd_queue := None; sd_locked := None;
           sd_queues :=
             Some [("", {| queue := [entry "" "A" 1]; locked := true |})] |},
        Normal [[payload "A"]]).
Proof.
  split; [|split; [|split]].
  - intros s Hs. split.
    + intros [st out]. unfold release_single. now destruct Hs as [-> | ->].
    + intros [qs [out|]]; [|reflexivity].
      unfold release_multi. now destruct Hs as [-> | ->].
  - intros acc signals. apply get_empty_key_release_loop.
  - intros arrivals signals qs.
    destruct (enqueue_loop_queue arrivals qs "") as (n & Hn & Hv & Hr).
    exists n. split; [exact Hn|]. split.
    + apply (f_equal queue) in Hv. simpl in Hv. rewrite <- Hv.
      unfold execute_multi, view_multi.
      rewrite get_empty_key_release_loop.
      pose proof (promote_phase_queue
                    (fold_left enqueue_multi arrivals (running qs [])) "")
        as Hp.
      destruct (JsObject.get "" (fst (promote_phase _)));
        destruct (JsObject.get "" (fst (fold_left enqueue_multi arrivals _)));
        simpl in *; congruence.
    + intros H. apply Hr. unfold execute_multi in H.
      apply release_loop_started in H.
      now rewrite promote_phase_returned in H.
  - reflexivity.
Qed.

Lemma empty_key_never_released_witness :
  signalKey (signal "") = Some ""
  /\ release_multi
       (running [("", {| queue := [entry "" "A" 1]; locked := true |})] [])
       (signal "")
     = running [("", {| queue := [entry "" "A" 1]; locked := true |})] [].
Proof.
  split; [reflexivity|].
  exact (proj2 (proj1 empty_key_never_released (signal "") (or_introl eq_refl))
           (running [("", {| queue := [entry "" "A" 1]; locked := true |})]
              [])).
Defined.

(** ** Keys of the mapping stay distinct *)



(** ** Lock promotion *)



(** ** The scenarios of the node's description *)

(** Single mode: A arrives and gets the lock; B waits behind it; the
    release for A's key hands the lock to B; the same release again finds B
    at the head, with another key, and is ignored. *)
Example single_mode_scenario :
  run modeSingle
    [ {| dataInput := [arrival "k1" "A" 1]; signalInput := [] |};
      {| dataInput := [arrival "k2" "B" 2]; signalInput := [] |};
      {| dataInput := []; signalInput := [signal "k1"] |};
      {| dataInput := []; signalInput := [signal "k1"] |} ]
    no_static_data
  = ({| sd_queue := Some [entry "k2" "B" 2];
        sd_locked := Some true;
        sd_queues := None |},
     [ Normal [[payload "A"]]; Normal [[]]; Normal [[payload "B"]];
       Normal [[]] ]).
Proof. reflexivity. Qed.

(** Multi mode: X and Y arrive under different keys and both get their
    lock; the release for [a] leaves the queue of [b] alone. *)
Example multi_mode_scenario :
  execute modeMulti [arrival "a" "X" 1; arrival "b" "Y" 2] [signal "a"]
    no_static_data
  = ({| sd_queue := None;
        sd_locked := None;
        sd_queues :=
          Some [("b", {| queue := [entry "b" "Y" 2]; locked := true |})] |},
     Normal [[payload "X"; payload "Y"]]).
Proof. reflexivity. Qed.

(** [Object.keys] lists array-index keys first, in ascending order. *)
Example promotion_follows_property_order :
  snd (execute modeMulti
         [arrival "b" "Y" 1; arrival "10" "Z" 2; arrival "9" "W" 3] []
         no_static_data)
  = Normal [[payload "W"; payload "Z"; payload "Y"]].
Proof. reflexivity. Qed.

(** The history of the single mode scenario. *)
Example single_mode_history :
  run_log modeSingle
    [ {| dataInput := [arrival "k1" "A" 1]; signalInput := [] |};
      {| dataInput := [arrival "k2" "B" 2]; signalInput := [] |};
      {| dataInput := []; signalInput := [signal "k1"] |};
      {| dataInput := []; signalInput := [signal "k1"] |} ]
    no_static_data
  = [ Enqueued Global (entry "k1" "A" 1);
      Emitted Global (entry "k1" "A" 1);
      Enqueued Global (entry "k2" "B" 2);
      Dequeued Global (entry "k1" "A" 1);
      Emitted Global (entry "k2" "B" 2) ].
Proof. reflexivity. Qed.

(** The mapping is a plain object: a key that names a property of
    [Object.prototype] finds that property, and the invocation throws.  What
    the loops wrote before stays in the static data. *)
Example inherited_key_throws :
  execute modeMulti [arrival "constructor" "X" 1] [] no_static_data
  = ({| sd_queue := None; sd_locked := None; sd_queues := Some [] |}, Throw)
  /\ execute modeMulti [arrival "a" "A" 1; arrival "a" "B" 2]
       [signal "a"; signal "__proto__"] no_static_data
     = ({| sd_queue := None; sd_locked := None;
           sd_queues :=
             Some [("a", {| queue := [entry "a" "B" 2]; locked := true |})] |},
        Throw)
  /\ execute modeSingle [arrival "constructor" "X" 1] [signal "constructor"]
       no_static_data
     = ({| sd_queue := Some []; sd_locked := Some false; sd_queues := None |},
        Normal [[payload "X"]]).
Proof. vm_compute. repeat split. Qed.

(** * Further properties of [execute] *)

(** ** Nothing is lost, nothing is invented *)

(** X1.  In every run and for every queue, the entries that were enqueued
    are, in order, the entries that releases removed followed by the
    entries still in the queue: no entry is dropped, duplicated or moved
    once it is in its queue.  The entries enqueued are arrivals of the run
    that went to the queue, in their order, and they are all of them when
    every invocation returns; an arrival that an invocation did not reach
    before it threw was never enqueued. *)
Theorem queue_conserves_arrivals mode invs q :
  let sd := fst (run mode invs no_static_data) in
  let log := run_log mode invs no_static_data in
  arrived q log = dequeued q log ++ queue (view mode sd q)
  /\ Subseq (arrived q log) (arrivals_of mode q invs)
  /\ (all_returned mode invs no_static_data ->
      arrivals_of mode q invs = dequeued q log ++ queue (view mode sd q))
  /\ (mode = modeSingle ->
      arrivals_of mode q invs = dequeued q log ++ queue (view mode sd q)).
Proof.
  destruct (reachable_inv mode invs q) as [Ha _ _].
  destruct (arrived_run_log mode q invs no_static_data) as [Hs Hfull].
  cbv zeta. split; [exact Ha|]. split; [exact Hs|]. split.
  - intros Hall. now rewrite <- (Hfull Hall).
  - intros ->. rewrite <- Ha. symmetry. apply Hfull.
    apply single_all_returned.
Qed.

Lemma queue_conserves_arrivals_witness :
  let invs := [ {| dataInput := [arrival "a" "X" 1; arrival "a" "Y" 2];
                   signalInput := [signal "a"] |} ] in
  all_returned modeMulti invs no_static_data
  /\ arrivals_of modeMulti (Keyed "a") invs
     = dequeued (Keyed "a") (run_log modeMulti invs no_static_data)
       ++ queue (view modeMulti (fst (run modeMulti invs no_static_data))
                   (Keyed "a")).
Proof.
  assert (Hall : all_returned modeMulti
                   [ {| dataInput := [arrival "a" "X" 1; arrival "a" "Y" 2];
                        signalInput := [signal "a"] |} ] no_static_data).
  { intros c [<-|[]]. reflexivity. }
  split; [exact Hall|].
  exact (proj1 (proj2 (proj2
           (queue_conserves_arrivals modeMulti
              [ {| dataInput := [arrival "a" "X" 1; arrival "a" "Y" 2];
                   signalInput := [signal "a"] |} ]
              (Keyed "a")))) Hall).
Defined.

(** ** A queue with waiters is locked *)

Lemma held_promote_state st : Held (promote_state st).
Proof.
  unfold Held, promote_state.
  destruct (locked st) eqn:El; [now rewrite El|].
  destruct (queue st) eqn:Eq; simpl; [now rewrite Eq | reflexivity].
Qed.

Lemma held_advance_state st : Held st -> Held (advance_state st).
Proof.
  unfold Held, advance_state. intros H.
  destruct (queue st) as [|head rest] eqn:Eq; [now rewrite Eq|].
  simpl. now destruct rest.
Qed.

Lemma held_release_single st s : Held st -> Held (release_state_single st s).
Proof.
  intros H.
  destruct (release_single_cases st s) as [[-> _]|[-> _]];
    [exact H | now apply held_advance_state].
Qed.

Lemma held_execute_single arrivals signals st :
  Held (fst (execute_single arrivals signals st)).
Proof.
  unfold execute_single. rewrite promote_single_spec.
  rewrite (fold_left_trace _ _ release_state_single release_events_single
             release_single release_single_events). cbn [fst].
  apply fold_left_keeps; [intros; now apply held_release_single|].
  apply held_promote_state.
Qed.

Lemma mheld_promote ks : forall qs,
  (forall k, ~ In k ks -> Held (view_multi qs k)) ->
  MHeld (fold_left promote_state_key ks qs).
Proof.
  induction ks as [|k0 ks IH]; intros qs H; cbn [fold_left].
  - intros k. now apply H.
  - apply IH. intros k Hk. unfold view_multi. rewrite get_promote_key.
    destruct (String.eqb k0 k) eqn:E.
    + destruct (JsObject.get k qs); simpl;
        [apply held_promote_state | apply held_idle].
    + apply H. intros [->|Hin]; [|contradiction].
      now rewrite String.eqb_refl in E.
Qed.

Lemma mheld_release qs s : MHeld qs -> MHeld (release_state_ok qs s).
Proof.
  intros H k. destruct (release_key s) as [k0|] eqn:Hk.
  - rewrite (view_release_ok _ _ _ _ Hk).
    destruct (String.eqb k0 k); [|apply H].
    apply held_advance_state, H.
  - destruct (release_ok_skip qs s Hk) as [-> _]. apply H.
Qed.

Lemma mheld_execute_multi arrivals signals qs :
  returned (snd (execute_multi arrivals signals qs)) = true ->
  MHeld (fst (execute_multi arrivals signals qs)).
Proof.
  intros Hr. destruct (execute_multi_returned _ _ _ Hr) as [E _].
  rewrite E. cbn [fst]. rewrite execute_multi_ok_state.
  apply fold_left_keeps; [intros; now apply mheld_release|].
  apply mheld_promote. intros k Hk.
  rewrite (view_absent _ _ Hk). apply held_idle.
Qed.

Lemma held_execute mode arrivals signals sd q :
  returned (snd (execute mode arrivals signals sd)) = true ->
  Held (view mode (fst (execute mode arrivals signals sd)) q).
Proof.
  intros Hr. destruct mode, q; try apply held_idle; unfold view.
  - rewrite init_single_execute. apply held_execute_single.
  - rewrite init_multi_execute. rewrite returned_execute_multi in Hr.
    now apply mheld_execute_multi.
Qed.

(** X2.  After an invocation that returns, on any static data, a queue that
    is not empty is locked: no entry waits in a queue whose lock nobody
    holds.  When it started with no empty queue in the mapping, every state
    of the mapping is locked in multi mode. *)
Theorem waiting_queue_is_locked mode arrivals signals sd0 :
  let sd := fst (execute mode arrivals signals sd0) in
  returned (snd (execute mode arrivals signals sd0)) = true ->
  (forall q, queue (view mode sd q) <> [] -> locked (view mode sd q) = true)
  /\ (mode = modeMulti -> NonEmpty (init_multi sd0) ->
      forall k st, JsObject.get k (init_multi sd) = Some st ->
                   locked st = true).
Proof.
  intros sd Hr. split.
  - intros q. now apply held_execute.
  - intros -> Hne k st G.
    pose proof (held_execute modeMulti arrivals signals sd0 (Keyed k) Hr)
      as Hh.
    fold sd in Hh. unfold Held, view, view_multi in Hh. rewrite G in Hh.
    simpl in Hh. apply Hh.
    unfold sd in G. rewrite init_multi_execute in G.
    exact (nonempty_execute_multi _ _ _ Hne k st G).
Qed.

Lemma waiting_queue_is_locked_witness :
  let arrivals := [arrival "a" "X" 1; arrival "a" "Y" 2; arrival "b" "Z" 3] in
  let sd := fst (execute modeMulti arrivals [signal "a"] no_static_data) in
  returned (snd (execute modeMulti arrivals [signal "a"] no_static_data))
  = true
  /\ queue (view modeMulti sd (Keyed "a")) <> []
  /\ locked (view modeMulti sd (Keyed "a")) = true.
Proof.
  assert (Hq : queue (view modeMulti
                        (fst (execute modeMulti
                                [arrival "a" "X" 1; arrival "a" "Y" 2;
                                 arrival "b" "Z" 3]
                                [signal "a"] no_static_data))
                        (Keyed "a")) <> [])
    by (simpl; discriminate).
  split; [reflexivity|]. split; [exact Hq|].
  exact (proj1 (waiting_queue_is_locked modeMulti
                  [arrival "a" "X" 1; arrival "a" "Y" 2; arrival "b" "Z" 3]
                  [signal "a"] no_static_data eq_refl)
           (Keyed "a") Hq).
Defined.

(** X3.  Every item on an output batch of a run is the item of one of the
    run's arrivals, as it came in. *)
Theorem outputs_are_arrival_items mode invs x :
  In x (returned_items (snd (run mode invs no_static_data))) ->
  exists a, In a (all_arrivals invs) /\ x = item a.
Proof.
  rewrite run_output. intros H.
  destruct (in_outputs_of _ _ H) as (q & e & Hin & ->).
  apply (subseq_In _ _ _ (delivered_subseq mode invs no_static_data)) in Hin.
  apply in_emitted in Hin.
  destruct (emitted_prefix_arrived mode invs q) as [rest Hrest].
  assert (Harr : In e (arrived q (run_log mode invs no_static_data))).
  { rewrite Hrest. apply in_app_iff. now left. }
  destruct (arrived_run_log mode q invs no_static_data) as [Hs _].
  apply (subseq_In _ _ _ Hs) in Harr.
  destruct (in_arrivals_of _ _ _ _ Harr) as (a & Hall & ->).
  exists a. split; [exact Hall|]. simpl. apply spread_id.
Qed.

Lemma outputs_are_arrival_items_witness :
  let invs := [ {| dataInput := [arrival "a" "X" 1; arrival "b" "Y" 2];
                   signalInput := [] |} ] in
  In (payload "Y") (returned_items (snd (run modeMulti invs no_static_data)))
  /\ exists a, In a (all_arrivals invs) /\ payload "Y" = item a.
Proof.
  assert (Hin : In (payload "Y")
                  (returned_items (snd (run modeMulti
                     [ {| dataInput := [arrival "a" "X" 1; arrival "b" "Y" 2];
                          signalInput := [] |} ] no_static_data))))
    by (simpl; auto).
  split; [exact Hin|].
  exact (outputs_are_arrival_items modeMulti
           [ {| dataInput := [arrival "a" "X" 1; arrival "b" "Y" 2];
                signalInput := [] |} ] (payload "Y") Hin).
Defined.

(** ** The two modes keep apart *)

(** X4.  A run in single mode never touches [staticData.queues], and a run
    in multi mode never touches [staticData.queue] and [staticData.locked],
    whatever the static data held before and whether or not an invocation
    throws. *)
Theorem modes_keep_apart invs sd :
  sd_queues (fst (run modeSingle invs sd)) = sd_queues sd
  /\ sd_queue (fst (run modeMulti invs sd)) = sd_queue sd
  /\ sd_locked (fst (run modeMulti invs sd)) = sd_locked sd.
Proof.
  revert sd. induction invs as [|inv invs IH]; intros sd; [now simpl|].
  rewrite !run_cons_state.
  destruct (IH (fst (execute modeSingle (dataInput inv) (signalInput inv) sd)))
    as (H1 & _ & _).
  destruct (IH (fst (execute modeMulti (dataInput inv) (signalInput inv) sd)))
    as (_ & H2 & H3).
  rewrite H1, H2, H3. simpl.
  destruct (execute_single _ _ _), (execute_multi _ _ _). now simpl.
Qed.

(** ** How much one invocation emits *)

Lemma emission_bound_ok arrivals signals qs :
  List.length (snd (execute_multi_ok arrivals signals qs))
  <= List.length (JsObject.keys (fold_left enqueue_ok arrivals qs))
     + List.length signals.
Proof.
  rewrite execute_multi_ok_log. unfold log_multi_ok. split_log.
  rewrite outputs_of_enqueue_ok, !length_app. simpl.
  pose proof (trace_outputs_bound _ _ promote_state_key promote_events_key
                (fun qs k => eq_ind_r (fun l => List.length (outputs_of l) <= 1)
                               (promote_events_bound (Keyed k) (view_multi qs k))
                               (promote_events_key_view qs k))
                (JsObject.keys (fold_left enqueue_ok arrivals qs))
                (fold_left enqueue_ok arrivals qs)).
  pose proof (trace_outputs_bound _ _ release_state_ok
                release_events_ok release_events_ok_bound signals
                (fst (promote_multi (fold_left enqueue_ok arrivals qs) []))).
  lia.
Qed.

(** X5.  An invocation emits at most one item for each release signal, on
    top of what promotion emits: at most one item in single mode, at most
    one for each key of the mapping in multi mode.  An invocation that
    throws emits nothing. *)
Theorem emission_bound :
  (forall arrivals signals st,
     List.length (snd (execute_single arrivals signals st))
     <= 1 + List.length signals)
  /\ (forall arrivals signals qs output,
        snd (execute_multi arrivals signals qs) = Normal output ->
        List.length output
        <= List.length
             (JsObject.keys
                (fst (fold_left enqueue_multi arrivals (running qs []))))
           + List.length signals)
  /\ (forall arrivals signals sd,
        List.length
          (List.concat (items (snd (execute modeMulti arrivals signals sd))))
        <= List.length
             (JsObject.keys
                (fst (fold_left enqueue_multi arrivals
                        (running (init_multi sd) []))))
           + List.length signals).
Proof.
  assert (Hm : forall arrivals signals qs output,
             snd (execute_multi arrivals signals qs) = Normal output ->
             List.length output
             <= List.length
                  (JsObject.keys
                     (fst (fold_left enqueue_multi arrivals (running qs []))))
                + List.length signals).
  { intros arrivals signals qs output Ho.
    assert (Hr : returned (snd (execute_multi arrivals signals qs)) = true)
      by now rewrite Ho.
    destruct (execute_multi_returned _ _ _ Hr) as [E _].
    rewrite E in Ho. cbn [snd] in Ho. injection Ho as <-.
    unfold execute_multi in Hr. apply release_loop_started in Hr.
    rewrite promote_phase_returned in Hr.
    destruct (enqueue_loop_returned _ _ _ Hr) as [-> _]. cbn [fst].
    apply emission_bound_ok. }
  split; [|split; [exact Hm|]].
  - intros arrivals signals st.
    rewrite execute_single_log. unfold log_single. split_log.
    rewrite outputs_of_enqueue_single, !length_app. simpl.
    pose proof (promote_events_bound Global
                  (fold_left enqueue_single arrivals st)).
    pose proof (trace_outputs_bound _ _ release_state_single
                  release_events_single release_events_single_bound signals
                  (fst (promote_single (fold_left enqueue_single arrivals st) []))).
    lia.
  - intros arrivals signals sd. rewrite execute_multi_completion.
    destruct (snd (execute_multi arrivals signals (init_multi sd)))
      as [output|] eqn:Ho; simpl; [|lia].
    rewrite app_nil_r. now apply Hm.
Qed.

Lemma emission_bound_witness :
  let arrivals := [arrival "a" "A" 1; arrival "a" "B" 2; arrival "b" "C" 3] in
  snd (execute_multi arrivals [signal "a"] [])
  = Normal [payload "A"; payload "C"; payload "B"]
  /\ List.length [payload "A"; payload "C"; payload "B"]
     <= List.length
          (JsObject.keys
             (fst (fold_left enqueue_multi arrivals (running [] []))))
        + List.length [signal "a"].
Proof.
  split; [reflexivity|].
  exact (proj1 (proj2 emission_bound)
           [arrival "a" "A" 1; arrival "a" "B" 2; arrival "b" "C" 3]
           [signal "a"] [] [payload "A"; payload "C"; payload "B"] eq_refl).
Defined.

(** ** An invocation with nothing to do *)

Lemma execute_idle_single sd :
  Held (init_single sd) ->
  execute modeSingle [] [] sd
  = ({| sd_queue := Some (queue (init_single sd));
        sd_locked := Some (locked (init_single sd));
        sd_queues := sd_queues sd |}, Normal [[]]).
Proof.
  intros Hh. simpl. unfold execute_single. simpl.
  rewrite promote_single_spec, promote_state_held, promote_output_held
    by exact Hh.
  reflexivity.
Qed.

Lemma execute_idle_multi sd :
  MHeld (init_multi sd) ->
  execute modeMulti [] [] sd
  = ({| sd_queue := sd_queue sd; sd_locked := sd_locked sd;
        sd_queues := Some (init_multi sd) |}, Normal [[]]).
Proof.
  intros Hh. simpl. unfold execute_multi, promote_phase, promote_multi.
  cbn [fold_left]. rewrite promote_keys_held by exact Hh. reflexivity.
Qed.

(** X6.  On the static data that an invocation has left when it returned,
    an invocation without arrivals and without signals returns one empty
    batch and leaves the static data exactly as it is.  On static data that
    has no queue yet it returns one empty batch as well, and stores the
    empty queue with the flag [false], or the empty mapping. *)
Theorem idle_invocation :
  (forall mode arrivals signals sd0,
     returned (snd (execute mode arrivals signals sd0)) = true ->
     let sd := fst (execute mode arrivals signals sd0) in
     execute mode [] [] sd = (sd, Normal [[]]))
  /\ execute modeSingle [] [] no_static_data
     = ({| sd_queue := Some []; sd_locked := Some false; sd_queues := None |},
        Normal [[]])
  /\ execute modeMulti [] [] no_static_data
     = ({| sd_queue := None; sd_locked := None; sd_queues := Some [] |},
        Normal [[]]).
Proof.
  split; [|split; reflexivity].
  intros mode arrivals signals sd0 Hr sd. destruct mode.
  - rewrite execute_idle_single
      by exact (held_execute modeSingle arrivals signals sd0 Global Hr).
    unfold sd. simpl.
    now destruct (execute_single arrivals signals (init_single sd0)).
  - rewrite execute_idle_multi
      by (intros k;
          exact (held_execute modeMulti arrivals signals sd0 (Keyed k) Hr)).
    unfold sd. simpl.
    now destruct (execute_multi arrivals signals (init_multi sd0)).
Qed.

Lemma idle_invocation_witness :
  let sd := fst (execute modeMulti [arrival "a" "X" 1; arrival "a" "Y" 2]
                   [signal "b"] no_static_data) in
  returned (snd (execute modeMulti [arrival "a" "X" 1; arrival "a" "Y" 2]
                   [signal "b"] no_static_data)) = true
  /\ execute modeMulti [] [] sd = (sd, Normal [[]]).
Proof.
  split; [reflexivity|].
  exact (proj1 idle_invocation modeMulti
           [arrival "a" "X" 1; arrival "a" "Y" 2] [signal "b"]
           no_static_data eq_refl).
Defined.

(** After an invocation that threw in the enqueue loop, the next invocation
    has something to do even with empty batches: it promotes the entry that
    was left waiting. *)
Example idle_invocation_after_throw :
  let sd := fst (execute modeMulti
                   [arrival "a" "A" 1; arrival "toString" "T" 2] []
                   no_static_data) in
  snd (execute modeMulti [] [] sd) = Normal [[payload "A"]].
Proof. reflexivity. Qed.

(** ** Single mode: the head's key gates every release *)

(** X7.  In single mode, a batch of release signals none of which carries
    the key of the head entry changes nothing and emits nothing, however
    many entries with the signalled keys wait behind the head. *)
Theorem head_key_gates_batch st output signals head rest :
  queue st = head :: rest ->
  (forall s, In s signals -> signalKey s <> Some (key head)) ->
  fold_left release_single signals (st, output) = (st, output).
Proof.
  intros Hq Hs. apply fold_release_single_unmatched.
  intros s Hin. unfold unmatched_single. rewrite Hq.
  destruct (release_key s) as [k|] eqn:Hk; [|reflexivity].
  apply release_key_signalKey in Hk.
  destruct (String.eqb (key head) k) eqn:E; [|reflexivity].
  apply String.eqb_eq in E. subst k. now apply Hs in Hin.
Qed.

Lemma head_key_gates_batch_witness :
  let st := {| queue := [entry "k1" "A" 1; entry "k2" "B" 2]; locked := true |} in
  let signals := [signal "k2"; signal "k3"; signal_without_key] in
  queue st = [entry "k1" "A" 1; entry "k2" "B" 2]
  /\ (forall s, In s signals -> signalKey s <> Some (key (entry "k1" "A" 1)))
  /\ fold_left release_single signals (st, []) = (st, []).
Proof.
  assert (Hs : forall s,
             In s [signal "k2"; signal "k3"; signal_without_key] ->
             signalKey s <> Some (key (entry "k1" "A" 1))).
  { intros s [<-|[<-|[<-|[]]]]; simpl; discriminate. }
  split; [reflexivity|]. split; [exact Hs|].
  exact (head_key_gates_batch
           {| queue := [entry "k1" "A" 1; entry "k2" "B" 2]; locked := true |}
           [] [signal "k2"; signal "k3"; signal_without_key]
           (entry "k1" "A" 1) [entry "k2" "B" 2] eq_refl Hs).
Defined.

(** X8.  In single mode, once an entry with the empty key holds the lock at
    the head, no release signal can remove it: every later invocation only
    appends its arrivals and emits nothing. *)
Theorem empty_key_head_blocks_single arrivals signals st head rest :
  queue st = head :: rest ->
  key head = "" ->
  locked st = true ->
  execute_single arrivals signals st =
  ({| queue := queue st ++ map new_entry arrivals; locked := true |}, []).
Proof.
  intros Hq Hk Hl. unfold execute_single.
  rewrite fold_enqueue_single, promote_single_spec.
  unfold promote_state, promote_output. simpl. rewrite Hl.
  apply fold_release_single_unmatched.
  intros s _. unfold unmatched_single. simpl. rewrite Hq. simpl.
  destruct (release_key s) as [k|] eqn:E; [|reflexivity].
  rewrite Hk. destruct (String.eqb "" k) eqn:E'; [|reflexivity].
  apply String.eqb_eq in E'. subst k. now apply release_key_not_empty in E.
Qed.

Lemma empty_key_head_blocks_single_witness :
  let st := {| queue := [entry "" "A" 1; entry "k" "B" 2]; locked := true |} in
  queue st = [entry "" "A" 1; entry "k" "B" 2]
  /\ key (entry "" "A" 1) = ""
  /\ locked st = true
  /\ execute_single [arrival "k" "C" 3] [signal ""; signal "k"] st =
     ({| queue := queue st ++ map new_entry [arrival "k" "C" 3];
         locked := true |}, []).
Proof.
  split; [reflexivity|]. split; [reflexivity|]. split; [reflexivity|].
  exact (empty_key_head_blocks_single
           [arrival "k" "C" 3] [signal ""; signal "k"]
           {| queue := [entry "" "A" 1; entry "k" "B" 2]; locked := true |}
           (entry "" "A" 1) [entry "k" "B" 2] eq_refl eq_refl eq_refl).
Defined.

(** ** The arrival phase *)



(** ** Multi mode: entries and their keys *)

Lemma keysmatch_run invs : forall sd,
  KeysMatch (init_multi sd) ->
  KeysMatch (init_multi (fst (run modeMulti invs sd))).
Proof.
  induction invs as [|inv invs IH]; intros sd H; [exact H|].
  rewrite run_cons_state. apply IH. rewrite init_multi_execute.
  apply (execute_multi_keeps KeysMatch); auto.
  - intros; now apply keysmatch_enqueue.
  - intros; now apply keysmatch_promote_key.
  - intros; now apply keysmatch_release.
Qed.

(** X10.  In multi mode, after every run, each entry of the mapping sits in
    the queue of its own key: the [key] field of an entry is the key its
    queue is stored under. *)
Theorem entries_stored_under_their_key invs k st e :
  JsObject.get k (init_multi (fst (run modeMulti invs no_static_data)))
    = Some st ->
  In e (queue st) ->
  key e = k.
Proof.
  apply (keysmatch_run invs no_static_data).
  intros k' st' e'. simpl. discriminate.
Qed.

Lemma entries_stored_under_their_key_witness :
  let invs := [ {| dataInput := [arrival "a" "X" 1; arrival "b" "Y" 2;
                                 arrival "a" "Z" 3];
                   signalInput := [] |} ] in
  let st := {| queue := [entry "a" "X" 1; entry "a" "Z" 3]; locked := true |} in
  JsObject.get "a" (init_multi (fst (run modeMulti invs no_static_data)))
    = Some st
  /\ In (entry "a" "Z" 3) (queue st)
  /\ key (entry "a" "Z" 3) = "a".
Proof.
  assert (Hin : In (entry "a" "Z" 3) [entry "a" "X" 1; entry "a" "Z" 3])
    by (right; left; reflexivity).
  split; [reflexivity|]. split; [exact Hin|].
  exact (entries_stored_under_their_key
           [ {| dataInput := [arrival "a" "X" 1; arrival "b" "Y" 2;
                              arrival "a" "Z" 3];
                signalInput := [] |} ]
           "a"
           {| queue := [entry "a" "X" 1; entry "a" "Z" 3]; locked := true |}
           (entry "a" "Z" 3) eq_refl Hin).
Defined.

(** ** Multi mode: the order of the signal batch *)

Lemma released_ok_trace qs signals :
  released_ok qs signals
  = outputs_of (trace release_state_ok release_events_ok qs signals).
Proof.
  pose proof (fold_release_ok signals qs []) as H1.
  rewrite fold_release_ok_trace in H1. simpl in H1. now symmetry.
Qed.

(** A signal whose key is not the name of an inherited property does not
    throw, whatever the mapping holds. *)
Lemma release_not_inherited qs s :
  (forall k, release_key s = Some k -> JsObject.inherited k = false) ->
  release_throws qs s = false.
Proof.
  intros H. unfold release_throws, JsObject.read.
  destruct (release_key s) as [k|]; [|reflexivity].
  destruct (JsObject.get k qs); [reflexivity|].
  now rewrite (H k eq_refl).
Qed.

Lemma enqueue_not_inherited qs a :
  JsObject.inherited (key_param a) = false -> enqueue_throws qs a = false.
Proof.
  intros H. unfold enqueue_throws, JsObject.read.
  destruct (JsObject.get (key_param a) qs); [reflexivity|]. now rewrite H.
Qed.

(** X11.  In multi mode, when no signal of the batch carries the name of an
    inherited property, the order of the signals within the batch does not
    matter to the static data: any reordering of the batch leaves the same
    mapping, and the invocation throws for both orders or returns the same
    items for both, possibly in another order. *)
Theorem signal_order_irrelevant_multi arrivals signals signals' qs :
  (forall s k, In s signals -> release_key s = Some k ->
               JsObject.inherited k = false) ->
  Permutation signals signals' ->
  fst (execute_multi arrivals signals qs)
  = fst (execute_multi arrivals signals' qs)
  /\ match snd (execute_multi arrivals signals qs),
           snd (execute_multi arrivals signals' qs) with
     | Normal output, Normal output' => Permutation output output'
     | Throw, Throw => True
     | _, _ => False
     end.
Proof.
  intros Hs Hperm. unfold execute_multi.
  destruct (promote_phase (fold_left enqueue_multi arrivals (running qs [])))
    as [qs1 [out|]].
  - assert (H1 : forall s qs', In s signals -> release_throws qs' s = false).
    { intros s qs' Hin. apply release_not_inherited. intros k.
      now apply Hs. }
    assert (H2 : forall s qs', In s signals' -> release_throws qs' s = false).
    { intros s qs' Hin. apply H1.
      now apply (Permutation_in _ (Permutation_sym Hperm)). }
    destruct (release_loop_no_throw signals qs1 out H1) as [-> _].
    destruct (release_loop_no_throw signals' qs1 out H2) as [-> _].
    cbn [fst snd].
    destruct (release_batch_permutation _ _ Hperm qs1) as [Hst Ho].
    split; [exact Hst|]. apply Permutation_app_head.
    now rewrite <- !released_ok_trace.
  - destruct (release_loop_after_throw signals qs1) as [-> _].
    destruct (release_loop_after_throw signals' qs1) as [-> _].
    split; [reflexivity | exact I].
Qed.

Lemma signal_order_irrelevant_multi_witness :
  let arrivals := [arrival "a" "A1" 1; arrival "a" "A2" 2;
                   arrival "b" "B1" 3; arrival "b" "B2" 4] in
  (forall s k, In s [signal "a"; signal "b"] -> release_key s = Some k ->
               JsObject.inherited k = false)
  /\ Permutation [signal "a"; signal "b"] [signal "b"; signal "a"]
  /\ fst (execute_multi arrivals [signal "a"; signal "b"] [])
     = fst (execute_multi arrivals [signal "b"; signal "a"] []).
Proof.
  assert (Hs : forall s k, In s [signal "a"; signal "b"] ->
                           release_key s = Some k ->
                           JsObject.inherited k = false).
  { intros s k Hs Hk.
    repeat (destruct Hs as [<-|Hs];
            [vm_compute in Hk; injection Hk as <-; reflexivity|]);
    destruct Hs. }
  split; [exact Hs|]. split; [apply perm_swap|].
  exact (proj1 (signal_order_irrelevant_multi
                  [arrival "a" "A1" 1; arrival "a" "A2" 2;
                   arrival "b" "B1" 3; arrival "b" "B2" 4]
                  [signal "a"; signal "b"] [signal "b"; signal "a"] [] Hs
                  (perm_swap (signal "b") (signal "a") []))).
Defined.

(** In single mode the order matters: the head's key gates each release. *)
Example signal_order_matters_single :
  let st := {| queue := [entry "k1" "A" 1; entry "k2" "B" 2]; locked := true |} in
  fst (fold_left release_single [signal "k1"; signal "k2"] (st, []))
    = {| queue := []; locked := false |}
  /\ fst (fold_left release_single [signal "k2"; signal "k1"] (st, []))
    = {| queue := [entry "k2" "B" 2]; locked := true |}.
Proof. split; reflexivity. Qed.

(** With the name of an inherited property in the batch the order matters
    in multi mode as well: the signals before it are processed, the signals
    after it are not. *)
Example signal_order_matters_on_throw :
  let qs := [("a", {| queue := [entry "a" "A" 1; entry "a" "B" 2];
                      locked := true |})] in
  fst (execute_multi [] [signal "a"; signal "toString"] qs)
    = [("a", {| queue := [entry "a" "B" 2]; locked := true |})]
  /\ fst (execute_multi [] [signal "toString"; signal "a"] qs) = qs.
Proof. split; reflexivity. Qed.

(** ** The clock *)

Lemma read_retime f k qs :
  JsObject.read k (retime_queues f qs)
  = match JsObject.read k qs with
    | JsObject.Own st => JsObject.Own (retime_state f st)
    | JsObject.Inherited => JsObject.Inherited
    | JsObject.Undefined => JsObject.Undefined
    end.
Proof.
  unfold JsObject.read. rewrite get_retime.
  destruct (JsObject.get k qs); simpl; [reflexivity|].
  now destruct (JsObject.inherited k).
Qed.

Lemma enqueue_throws_retime f qs a :
  enqueue_throws (retime_queues f qs) (retime_arrival f a)
  = enqueue_throws qs a.
Proof.
  unfold enqueue_throws. cbn [key_param retime_arrival].
  rewrite read_retime. now destruct (JsObject.read (key_param a) qs).
Qed.

Lemma release_throws_retime f qs s :
  release_throws (retime_queues f qs) s = release_throws qs s.
Proof.
  unfold release_throws. destruct (release_key s) as [k|]; [|reflexivity].
  rewrite read_retime. now destruct (JsObject.read k qs).
Qed.

Lemma enqueue_multi_retime f acc a :
  enqueue_multi (retime_running f acc) (retime_arrival f a)
  = retime_running f (enqueue_multi acc a).
Proof.
  destruct acc as [qs [out|]]; [|reflexivity].
  unfold retime_running at 1. cbn [fst snd].
  rewrite !enqueue_multi_normal, enqueue_throws_retime, enqueue_ok_retime.
  now destruct (enqueue_throws qs a).
Qed.

Lemma fold_enqueue_multi_retime f arrivals : forall acc,
  fold_left enqueue_multi (map (retime_arrival f) arrivals)
    (retime_running f acc)
  = retime_running f (fold_left enqueue_multi arrivals acc).
Proof.
  induction arrivals as [|a l IH]; intros acc; cbn [map fold_left];
    [reflexivity|].
  rewrite enqueue_multi_retime. apply IH.
Qed.

Lemma promote_phase_retime f acc :
  promote_phase (retime_running f acc) = retime_running f (promote_phase acc).
Proof.
  destruct acc as [qs [out|]]; [|reflexivity].
  unfold retime_running at 1. cbn [fst snd promote_phase].
  unfold promote_multi. rewrite keys_retime.
  change (retime_queues f qs, out)
    with (retime_acc (retime_queues f) (qs, out)).
  rewrite (fold_left_retime _ _ promote_key (retime_queues f)
             (promote_key_retime f)).
  now destruct (fold_left promote_key (JsObject.keys qs) (qs, out)).
Qed.

Lemma release_multi_retime f acc s :
  release_multi (retime_running f acc) s
  = retime_running f (release_multi acc s).
Proof.
  destruct acc as [qs [out|]]; [|reflexivity].
  unfold retime_running at 1. cbn [fst snd].
  rewrite !release_multi_lift, release_throws_retime.
  destruct (release_throws qs s); [reflexivity|].
  change (retime_queues f qs, out)
    with (retime_acc (retime_queues f) (qs, out)).
  rewrite release_ok_retime. reflexivity.
Qed.

Lemma fold_release_multi_retime f signals : forall acc,
  fold_left release_multi signals (retime_running f acc)
  = retime_running f (fold_left release_multi signals acc).
Proof.
  induction signals as [|s l IH]; intros acc; cbn [fold_left];
    [reflexivity|].
  rewrite release_multi_retime. apply IH.
Qed.

(** X12.  The timestamps that [Date.now()] gives the entries are stored and
    never read: with other clock readings, on the arrivals and on the
    entries already queued, an invocation returns the same items, or throws
    all the same, and leaves the same queues and locks, the stored
    timestamps apart. *)
Theorem clock_is_never_read (f : Z -> Z) :
  (forall arrivals signals st,
     execute_single (map (retime_arrival f) arrivals) signals
       (retime_state f st)
     = (retime_state f (fst (execute_single arrivals signals st)),
        snd (execute_single arrivals signals st)))
  /\ (forall arrivals signals qs,
        execute_multi (map (retime_arrival f) arrivals) signals
          (retime_queues f qs)
        = (retime_queues f (fst (execute_multi arrivals signals qs)),
           snd (execute_multi arrivals signals qs))).
Proof.
  split.
  - intros arrivals signals st. unfold execute_single.
    rewrite fold_enqueue_single_retime, promote_single_retime.
    apply (fold_left_retime _ _ release_single (retime_state f)
             (release_single_retime f)).
  - intros arrivals signals qs. unfold execute_multi.
    change (running (retime_queues f qs) [])
      with (retime_running f (running qs [])).
    rewrite fold_enqueue_multi_retime, promote_phase_retime,
      fold_release_multi_retime.
    reflexivity.
Qed.

(** ** An arrival into an idle queue *)

Lemma idle_queue_admits_ok arrivals signals qs k a others :
  JsObject.get k qs = None ->
  filter (fun a => String.eqb (key_param a) k) arrivals = a :: others ->
  In (item a) (snd (execute_multi_ok arrivals signals qs)).
Proof.
  intros G Hf. unfold execute_multi_ok.
  pose proof (view_fold_enqueue_ok arrivals qs k) as Hv.
  unfold view_multi at 2 3 in Hv. rewrite G, Hf in Hv. simpl in Hv.
  unfold view_multi in Hv.
  destruct (JsObject.get k (fold_left enqueue_ok arrivals qs))
    as [st|] eqn:G1; simpl in Hv; [|discriminate].
  assert (Hk : In k (JsObject.keys (fold_left enqueue_ok arrivals qs))).
  { destruct (in_dec string_dec k
                (JsObject.keys (fold_left enqueue_ok arrivals qs)))
      as [H|H]; [exact H|].
    apply get_None_keys in H. congruence. }
  pose proof (promote_keys_emit _ (fold_left enqueue_ok arrivals qs) []
                k st (new_entry a) (map new_entry others) Hk G1
                ltac:(now rewrite Hv) ltac:(now rewrite Hv)) as Hem.
  simpl in Hem. rewrite spread_id in Hem.
  unfold promote_multi.
  destruct (fold_left promote_key _ _) as [qs2 promoted]. simpl in Hem.
  rewrite fold_release_ok. apply in_app_iff. now left.
Qed.

(** X13.  An arrival that finds its queue idle gets the lock in the same
    invocation.  In single mode, with the queue empty and unlocked, the
    first arrival of the batch is the first item of the output.  In multi
    mode, for a key the mapping does not have, the first arrival of the
    batch with that key is on the output when the invocation returns
    one. *)
Theorem idle_queue_admits_at_once :
  (forall a arrivals signals st,
     locked st = false -> queue st = [] ->
     exists rest,
       snd (execute_single (a :: arrivals) signals st) = item a :: rest)
  /\ (forall arrivals signals qs k a others output,
        JsObject.get k qs = None ->
        filter (fun a => String.eqb (key_param a) k) arrivals = a :: others ->
        snd (execute_multi arrivals signals qs) = Normal output ->
        In (item a) output).
Proof.
  split.
  - intros a arrivals signals st El Eq. unfold execute_single.
    rewrite fold_enqueue_single, promote_single_spec, fold_release_single.
    unfold promote_output. simpl. rewrite El, Eq. simpl.
    rewrite spread_id. eexists. reflexivity.
  - intros arrivals signals qs k a others output G Hf Ho.
    assert (Hr : returned (snd (execute_multi arrivals signals qs)) = true)
      by now rewrite Ho.
    destruct (execute_multi_returned _ _ _ Hr) as [E _].
    rewrite E in Ho. cbn [snd] in Ho. injection Ho as <-.
    now apply (idle_queue_admits_ok arrivals signals qs k a others).
Qed.

Lemma idle_queue_admits_at_once_witness :
  let qs := [("b", {| queue := [entry "b" "Y" 1]; locked := true |})] in
  let arrivals := [arrival "b" "Y2" 2; arrival "a" "X" 3; arrival "a" "X2" 4] in
  JsObject.get "a" qs = None
  /\ filter (fun a => String.eqb (key_param a) "a") arrivals
     = [arrival "a" "X" 3; arrival "a" "X2" 4]
  /\ snd (execute_multi arrivals [signal "b"] qs)
     = Normal [payload "X"; payload "Y2"]
  /\ In (item (arrival "a" "X" 3)) [payload "X"; payload "Y2"].
Proof.
  split; [reflexivity|]. split; [reflexivity|]. split; [reflexivity|].
  exact (proj2 idle_queue_admits_at_once
           [arrival "b" "Y2" 2; arrival "a" "X" 3; arrival "a" "X2" 4]
           [signal "b"]
           [("b", {| queue := [entry "b" "Y" 1]; locked := true |})]
           "a" (arrival "a" "X" 3) [arrival "a" "X2" 4]
           [payload "X"; payload "Y2"] eq_refl eq_refl eq_refl).
Defined.

(** An arrival whose key names an inherited property finds no queue of its
    own and gets no lock: the invocation throws. *)
Example inherited_key_is_not_idle :
  JsObject.get "toString" (@nil (string * KeyQueueState)) = None
  /\ snd (execute_multi [arrival "toString" "T" 1] [] []) = Throw.
Proof. split; reflexivity. Qed.

(** ** One key: the two modes agree *)

(** An invocation in which no key names an inherited property never
    throws. *)
Lemma execute_multi_no_throw arrivals signals qs :
  (forall a, In a arrivals -> JsObject.inherited (key_param a) = false) ->
  (forall s k, In s signals -> release_key s = Some k ->
               JsObject.inherited k = false) ->
  execute_multi arrivals signals qs
  = running (fst (execute_multi_ok arrivals signals qs))
      (snd (execute_multi_ok arrivals signals qs)).
Proof.
  intros Ha Hs. apply execute_multi_returned. unfold execute_multi.
  destruct (enqueue_loop_no_throw arrivals qs [])
    as [-> _].
  { intros a qs' Hin. now apply enqueue_not_inherited, Ha. }
  rewrite promote_phase_normal.
  destruct (release_loop_no_throw signals
              (fold_left promote_state_key
                 (JsObject.keys (fold_left enqueue_ok arrivals qs))
                 (fold_left enqueue_ok arrivals qs))
              ([] ++ outputs_of
                       (promote_phase_events
                          (running (fold_left enqueue_ok arrivals qs) []))))
    as [-> _]; [|reflexivity].
  intros s qs' Hin. apply release_not_inherited. intros k. now apply Hs.
Qed.

Lemma one_key_run k invs : forall sd1 sd2,
  (forall a, In a (all_arrivals invs) -> key_param a = k) ->
  JsObject.inherited k = false ->
  (forall inv s k', In inv invs -> In s (signalInput inv) ->
                    release_key s = Some k' ->
                    JsObject.inherited k' = false) ->
  one_key k (init_single sd1) (init_multi sd2) ->
  snd (run modeSingle invs sd1) = snd (run modeMulti invs sd2).
Proof.
  induction invs as [|inv invs IH]; intros sd1 sd2 Hall Hk Hsig H;
    [reflexivity|].
  rewrite !run_cons. cbn [snd].
  assert (Hhere : forall a, In a (dataInput inv) -> key_param a = k).
  { intros a Ha. apply Hall. unfold all_arrivals. simpl.
    apply in_app_iff. now left. }
  assert (Hrest : forall a, In a (all_arrivals invs) -> key_param a = k).
  { intros a Ha. apply Hall. unfold all_arrivals. simpl.
    apply in_app_iff. now right. }
  pose proof (execute_multi_no_throw (dataInput inv) (signalInput inv)
                (init_multi sd2)
                ltac:(intros a Ha; now rewrite (Hhere a Ha))
                ltac:(intros s k' Hin Hk';
                      exact (Hsig inv s k' (or_introl eq_refl) Hin Hk')))
    as E.
  destruct (one_key_execute k (dataInput inv) (signalInput inv) _ _ Hhere H)
    as [Ho Hone].
  rewrite execute_single_returns, execute_multi_completion, E. cbn [snd].
  rewrite Ho. f_equal.
  apply IH; auto.
  - intros inv' s k' Hin. apply Hsig. now right.
  - rewrite init_single_execute, init_multi_execute, E. exact Hone.
Qed.

(** X14.  When all arrivals of a run carry the same key, and neither that
    key nor the key of a signal is the name of an inherited property,
    single mode and multi mode return the same batches, invocation by
    invocation. *)
Theorem modes_agree_on_one_key k invs :
  (forall a, In a (all_arrivals invs) -> key_param a = k) ->
  JsObject.inherited k = false ->
  (forall inv s k', In inv invs -> In s (signalInput inv) ->
                    release_key s = Some k' ->
                    JsObject.inherited k' = false) ->
  snd (run modeSingle invs no_static_data)
  = snd (run modeMulti invs no_static_data).
Proof.
  intros Hall Hk Hsig. apply (one_key_run k invs _ _ Hall Hk Hsig).
  split; [intros e []|]. left. split; reflexivity.
Qed.

Lemma modes_agree_on_one_key_witness :
  let invs := [ {| dataInput := [arrival "k" "A" 1; arrival "k" "B" 2];
                   signalInput := [signal "x"; signal "k"] |};
                {| dataInput := [arrival "k" "C" 3];
                   signalInput := [signal "k"; signal "k"; signal "k"] |} ] in
  (forall a, In a (all_arrivals invs) -> key_param a = "k")
  /\ JsObject.inherited "k" = false
  /\ (forall inv s k', In inv invs -> In s (signalInput inv) ->
                       release_key s = Some k' ->
                       JsObject.inherited k' = false)
  /\ snd (run modeSingle invs no_static_data)
     = snd (run modeMulti invs no_static_data).
Proof.
  assert (Hall : forall a,
             In a (all_arrivals
                     [ {| dataInput := [arrival "k" "A" 1; arrival "k" "B" 2];
                          signalInput := [signal "x"; signal "k"] |};
                       {| dataInput := [arrival "k" "C" 3];
                          signalInput := [signal "k"; signal "k"; signal "k"] |} ]) ->
             key_param a = "k").
  { intros a [<-|[<-|[<-|[]]]]; reflexivity. }
  assert (Hsig : forall inv s k',
             In inv [ {| dataInput := [arrival "k" "A" 1; arrival "k" "B" 2];
                         signalInput := [signal "x"; signal "k"] |};
                      {| dataInput := [arrival "k" "C" 3];
                         signalInput := [signal "k"; signal "k"; signal "k"] |} ] ->
             In s (signalInput inv) ->
             release_key s = Some k' ->
             JsObject.inherited k' = false).
  { intros inv s k' [<-|[<-|[]]] Hs Hk; simpl in Hs;
      repeat (destruct Hs as [<-|Hs];
              [vm_compute in Hk; injection Hk as <-; reflexivity|]);
      destruct Hs. }
  split; [exact Hall|]. split; [reflexivity|]. split; [exact Hsig|].
  exact (modes_agree_on_one_key "k"
           [ {| dataInput := [arrival "k" "A" 1; arrival "k" "B" 2];
                signalInput := [signal "x"; signal "k"] |};
             {| dataInput := [arrival "k" "C" 3];
                signalInput := [signal "k"; signal "k"; signal "k"] |} ]
           Hall eq_refl Hsig).
Defined.

(** With the name of an inherited property as the one key the modes part:
    single mode queues the entry, multi mode throws. *)
Example modes_part_on_inherited_key :
  let invs := [ {| dataInput := [arrival "constructor" "A" 1];
                   signalInput := [] |} ] in
  snd (run modeSingle invs no_static_data) = [Normal [[payload "A"]]]
  /\ snd (run modeMulti invs no_static_data) = [Throw].
Proof. split; reflexivity. Qed.
